(** * Wave order picking: the validator and the ratio sweep

    A shallow embedding of [checker.py] (class [WaveOrderPicking] and
    [check_all_files]) and of [solve_instance] in its four copies (the
    Gurobi scripts [challenge-sbpo-2025/math_solve.py] and
    [math_solve/math_solve (gurobi).py], the PuLP script
    [math_solve/math_solve (pulp).py] and the PuLP copy at the end of
    [checker.py]), with the properties their design document states about
    them.

    Python values are modelled as follows.
    - [int] is [Z]; a [dict] from item to quantity is a [gmap Z Z]; a [list]
      is a [list], indexed the way Python does it (negative indices count
      from the end, anything else out of range raises [IndexError]).
    - A raised exception is a [Raise e] result; only the loop of
      [check_all_files] catches one.
    - [np.sum] gives a numpy scalar, not a Python [int]: a [numpy.int64], a
      [numpy.uint64] or a [numpy.float64] by the values it is given (a
      Python [int] when one of them fits no 64-bit type).  The scalar
      keeps its kind and the arithmetic of its kind: 64-bit integers wrap
      around, doubles round to 53 bits, a Python [int] that fits no double
      raises [OverflowError].
    - A double is the rational it stands for, an infinity or NaN; every
      operation rounds its exact result to the nearest double, ties to
      even.
    - The solver is a parameter: a function from the model to what the
      script reads back from it, or to an exception.  [ObjVal] is the
      double it hands back.  *)

From Stdlib Require Import ZArith QArith Qround Qabs Qpower Lia Lqa.
From stdpp Require Import base option list sets gmap sorting.

Local Open Scope Z_scope.

(** ** Exceptions and results *)

Inductive exn : Type :=
| IndexError
| KeyError
| ZeroDivisionError
| OverflowError
| TypeError
| SolverError.

Inductive result (A : Type) : Type :=
| Ok (a : A)
| Raise (e : exn).
Arguments Ok {A} a.
Arguments Raise {A} e.

(** Sequencing: [x ← r; k] runs [k] unless [r] raised. *)
#[global] Instance result_bind : MBind result := λ A B k r,
  match r with
  | Ok a => k a
  | Raise e => Raise e
  end.

#[global] Instance result_fmap : FMap result := λ A B f r,
  match r with
  | Ok a => Ok (f a)
  | Raise e => Raise e
  end.

(** A [for] loop that threads a state and stops at the first exception. *)
Fixpoint for_each {A S : Type} (body : S → A → result S) (s : S) (l : list A)
  : result S :=
  match l with
  | [] => Ok s
  | x :: rest => s' ← body s x; for_each body s' rest
  end.

(** ** Python containers *)

(** [l[i]] on a Python list. *)
Definition py_getitem {A : Type} (l : list A) (i : Z) : result A :=
  let n := Z.of_nat (length l) in
  let j := if i <? 0 then i + n else i in
  if (0 <=? j) && (j <? n) then
    match l !! Z.to_nat j with
    | Some x => Ok x
    | None => Raise IndexError
    end
  else Raise IndexError.

(** [d.values()], [d.keys()] and [d.get(k, 0)] on a dict of quantities. *)
Definition dict_values (d : gmap Z Z) : list Z := (map_to_list d).*2.
Definition dict_keys (d : gmap Z Z) : gset Z := dom d.
Definition dict_get (d : gmap Z Z) (k : Z) (dflt : Z) : Z := default dflt (d !! k).

(** The builtin [sum] over a list of Python ints. *)
Definition py_sum (l : list Z) : Z := foldr Z.add 0 l.

(** The total units of an order, and the entry of a table at a position
    (the empty dict outside the table), for stating properties. *)
Definition units_of (d : gmap Z Z) : Z := py_sum (dict_values d).

Definition entry_at (table : list (gmap Z Z)) (i : Z) : gmap Z Z :=
  default ∅ (table !! Z.to_nat i).

(** The position that Python takes for an index that counts from the end. *)
Definition from_end {A : Type} (table : list A) (i : Z) : Z :=
  if i <? 0 then i + Z.of_nat (length table) else i.

(** Index lists that Python accepts for the table: positions, or negative
    indices not below [-len(table)]. *)
Definition accepted {A : Type} (table : list A) (l : list Z) : Prop :=
  Forall (λ i, - Z.of_nat (length table) ≤ i < Z.of_nat (length table)) l.

(** ** Numbers of the validator

    [np.sum] hands back numpy scalars, and the running total of the
    validator is one from the first order on.  Their arithmetic is that of
    the machine: 64-bit integers wrap around, doubles round.  The rules
    below are those of NumPy 2 on a 64-bit platform. *)

(** *** Doubles

    A finite double is kept as the rational it stands for. *)

(** The nearest integer, ties to the even one. *)
Definition rne (q : Q) : Z :=
  let f := Qfloor q in
  match (q - inject_Z f ?= 1 # 2)%Q with
  | Lt => f
  | Gt => f + 1
  | Eq => if Z.even f then f else f + 1
  end.

(** [floor (log2 q)] of a positive rational. *)
Definition Qlog2 (q : Q) : Z :=
  let l := Z.log2 (Qnum q) - Z.log2 (Z.pos (Qden q)) in
  if Qle_bool (2 ^ l) q then l else l - 1.

(** A positive rational rounded to 53 significant bits (to a multiple of
    [2^-1074] below the normal range), to nearest, ties to even. *)
Definition round_pos (q : Q) : Q :=
  let e := Z.max (Qlog2 q - 52) (-1074) in
  (inject_Z (rne (q / 2 ^ e)) * 2 ^ e)%Q.

(** Rounding to the nearest double, before the test for overflow; the
    result is in lowest terms. *)
Definition round_Q (q : Q) : Q :=
  Qred match (q ?= 0)%Q with
       | Eq => 0
       | Gt => round_pos q
       | Lt => - round_pos (- q)
       end%Q.

(** An integer converted to a double: the double is an integer again. *)
Definition round_int (z : Z) : Z := Qfloor (round_Q (inject_Z z)).

(** The value of a true division. *)
Inductive float64 : Type :=
| Finite (q : Q)
| Infinite (negative : bool)
| NaN.

(** The double nearest to [q]: infinite from [2^1024] on. *)
Definition round_double (q : Q) : float64 :=
  let r := round_Q q in
  if Qle_bool (2 ^ 1024) (Qabs r) then Infinite (Qnum r <? 0) else Finite r.

(** *** Scalars *)

(** The running total [total_units_picked]: a Python [int], or a numpy
    scalar of one of three kinds.  A [numpy.float64] total is a sum of
    integers, each rounded to a double: it is an integer, held here as such
    (it stays finite: to overflow, a sum of 64-bit values would need more
    than [2^960] of them). *)
Inductive number : Type :=
| PyInt (z : Z)
| NpInt64 (z : Z)
| NpUInt64 (z : Z)
| NpFloat64 (z : Z).

Definition number_val (n : number) : Z :=
  match n with
  | PyInt z | NpInt64 z | NpUInt64 z | NpFloat64 z => z
  end.

Definition in_int64 (z : Z) : bool := (- 2 ^ 63 <=? z) && (z <? 2 ^ 63).
Definition in_uint64 (z : Z) : bool := (0 <=? z) && (z <? 2 ^ 64).

(** What 64 bits keep of an integer, signed and unsigned. *)
Definition wrap_int64 (z : Z) : Z := (z + 2 ^ 63) mod 2 ^ 64 - 2 ^ 63.
Definition wrap_uint64 (z : Z) : Z := z mod 2 ^ 64.

(** The sum of two doubles that are integers. *)
Definition float_add (a b : Z) : Z := round_int (a + b).

(** Doubles added one after the other, from [acc] on. *)
Definition float_sum_from (acc : Z) (l : list Z) : Z := foldl float_add acc l.

(** The eight running sums of numpy's unrolled loop: [r[j] += a[i + j]]
    for every whole block of eight values. *)
Fixpoint add_blocks (fuel : nat) (r l : list Z) : list Z * list Z :=
  match fuel with
  | O => (r, l)
  | S fuel =>
      if (8 <=? length l)%nat
      then add_blocks fuel (zip_with float_add r (take 8 l)) (drop 8 l)
      else (r, l)
  end.

(** numpy's pairwise sum of an array of doubles: fewer than eight values
    are added one after the other; up to 128 values go to eight running
    sums, which are added as a tree before the values left over; a longer
    array is cut near its middle, at a multiple of eight. *)
Fixpoint pairwise_sum (fuel : nat) (l : list Z) : Z :=
  let n := length l in
  if (n <? 8)%nat then float_sum_from 0 l
  else if (n <=? 128)%nat then
    let '(r, rest) := add_blocks n (take 8 l) (drop 8 l) in
    let r := λ j, default 0 (r !! j) in
    float_sum_from
      (float_add (float_add (float_add (r 0%nat) (r 1%nat))
                            (float_add (r 2%nat) (r 3%nat)))
                 (float_add (float_add (r 4%nat) (r 5%nat))
                            (float_add (r 6%nat) (r 7%nat))))
      rest
  else
    match fuel with
    | O => 0
    | S fuel =>
        let n2 := (n / 2 - (n / 2) mod 8)%nat in
        float_add (pairwise_sum fuel (take n2 l))
                  (pairwise_sum fuel (drop n2 l))
    end.

(** The sum of an array of doubles made from integers. *)
Definition float_sum (l : list Z) : Z :=
  float_add 0 (pairwise_sum (length l) (round_int <$> l)).

(** [np.sum(list_of_ints)].  The list becomes an array first, whose type
    numpy chooses from the values: [float64] for no value at all, [int64]
    if every value fits, else [uint64] if every value fits that, else
    [float64] if every value fits one of the two, else an array of Python
    objects.  The sum is taken in that type: integers wrap around, doubles
    round, Python ints are exact.  (A dict lists its values in the order
    of the file, which the map does not keep; only the rounded sum of
    three or more doubles can depend on it.) *)
Definition np_sum (l : list Z) : number :=
  match l with
  | [] => NpFloat64 0
  | _ =>
      if forallb in_int64 l then NpInt64 (wrap_int64 (py_sum l))
      else if forallb in_uint64 l then NpUInt64 (wrap_uint64 (py_sum l))
      else if forallb (λ v, in_int64 v || in_uint64 v) l
      then NpFloat64 (float_sum l)
      else PyInt (py_sum l)
  end.

(** [float(n)] of a Python int. *)
Definition py_float (z : Z) : result Z :=
  let r := round_int z in
  if 2 ^ 1024 <=? Z.abs r then Raise OverflowError else Ok r.

(** [a + b] where one of the two may be a Python int.  A Python int takes
    the type of the numpy scalar it meets and has to fit it; [int64] and
    [uint64] meet in [float64]; an integer that meets a double is converted
    to a double first. *)
Definition py_add (a b : number) : result number :=
  match a, b with
  | PyInt x, PyInt y => Ok (PyInt (x + y))
  | PyInt x, NpInt64 y | NpInt64 y, PyInt x =>
      if in_int64 x then Ok (NpInt64 (wrap_int64 (x + y)))
      else Raise OverflowError
  | PyInt x, NpUInt64 y | NpUInt64 y, PyInt x =>
      if in_uint64 x then Ok (NpUInt64 (wrap_uint64 (x + y)))
      else Raise OverflowError
  | PyInt x, NpFloat64 y | NpFloat64 y, PyInt x =>
      fx ← py_float x; Ok (NpFloat64 (round_int (fx + y)))
  | NpInt64 x, NpInt64 y => Ok (NpInt64 (wrap_int64 (x + y)))
  | NpUInt64 x, NpUInt64 y => Ok (NpUInt64 (wrap_uint64 (x + y)))
  | NpInt64 x, NpUInt64 y | NpUInt64 y, NpInt64 x =>
      Ok (NpFloat64 (round_int (round_int x + round_int y)))
  | NpFloat64 x, NpInt64 y | NpFloat64 x, NpUInt64 y
  | NpInt64 y, NpFloat64 x | NpUInt64 y, NpFloat64 x =>
      Ok (NpFloat64 (round_int (x + round_int y)))
  | NpFloat64 x, NpFloat64 y => Ok (NpFloat64 (round_int (x + y)))
  end.

(** [n <= t] and [t <= n] for a Python int [n]: exact against an integer
    total; against a double, [n] is converted to a double first. *)
Definition int_le_number (n : Z) (t : number) : result bool :=
  match t with
  | NpFloat64 f => fn ← py_float n; Ok (fn <=? f)
  | PyInt z | NpInt64 z | NpUInt64 z => Ok (n <=? z)
  end.

Definition number_le_int (t : number) (n : Z) : result bool :=
  match t with
  | NpFloat64 f => fn ← py_float n; Ok (f <=? fn)
  | PyInt z | NpInt64 z | NpUInt64 z => Ok (z <=? n)
  end.

(** The chained comparison [lb <= t <= ub]: the second comparison is made
    only when the first holds. *)
Definition between (lb : Z) (t : number) (ub : Z) : result bool :=
  low ← int_le_number lb t;
  if low : bool then number_le_int t ub else Ok false.

Definition is_float (n : number) : bool :=
  match n with
  | NpFloat64 _ => true
  | _ => false
  end.

(** The numpy total of integers that are all held exactly. *)
Definition exact_number (float : bool) (v : Z) : number :=
  if float then NpFloat64 v else NpInt64 v.

Definition is_numpy (n : number) : Prop :=
  match n with
  | PyInt _ => False
  | _ => True
  end.

(** [a / n] for the length [n] of a list (which a double holds exactly).
    Python's own division raises on a zero divisor and gives the double
    nearest to the quotient otherwise; numpy makes doubles of both sides
    and divides them, to [inf], [-inf] or [nan], with only a warning, when
    the divisor is zero. *)
Definition true_divide (a : number) (n : Z) : result float64 :=
  match a with
  | PyInt z =>
      if n =? 0 then Raise ZeroDivisionError
      else match round_double (inject_Z z / inject_Z n) with
           | Finite q => Ok (Finite q)
           | _ => Raise OverflowError
           end
  | NpInt64 z | NpUInt64 z | NpFloat64 z =>
      let x := match a with NpFloat64 _ => z | _ => round_int z end in
      if n =? 0 then
        if x =? 0 then Ok NaN else Ok (Infinite (x <? 0))
      else Ok (round_double (inject_Z x / inject_Z n))
  end.

(** ** The validator: class [WaveOrderPicking] of [checker.py] *)

Module Checker.

Record WaveOrderPicking : Type := {
  orders : list (gmap Z Z);
  aisles : list (gmap Z Z);
  wave_size_lb : Z;
  wave_size_ub : Z
}.

Section Validator.
Variable self : WaveOrderPicking.

(** The loop shared by both methods:
    [for order in selected_orders:
       total_units_picked += np.sum(list(self.orders[order].values()))]. *)
Definition total_units_picked (selected_orders : list Z) : result number :=
  for_each
    (λ total order,
       d ← py_getitem (orders self) order;
       py_add total (np_sum (dict_values d)))
    (PyInt 0) selected_orders.

(** [required_items.update(self.orders[order].keys())] over the selection. *)
Definition required_items (selected_orders : list Z) : result (gset Z) :=
  for_each
    (λ items order,
       d ← py_getitem (orders self) order;
       Ok (items ∪ dict_keys d))
    ∅ selected_orders.

(** [sum(table[ix].get(item, 0) for ix in indices)]. *)
Definition sum_get (table : list (gmap Z Z)) (item : Z) (indices : list Z)
  : result Z :=
  for_each
    (λ acc ix, d ← py_getitem table ix; Ok (acc + dict_get d item 0))
    0 indices.

(** The loop over [required_items], leaving at the first short item. *)
Fixpoint check_items (selected_orders visited_aisles : list Z)
    (items : list Z) : result bool :=
  match items with
  | [] => Ok true
  | item :: rest =>
      total_required ← sum_get (orders self) item selected_orders;
      total_available ← sum_get (aisles self) item visited_aisles;
      if total_available <? total_required then Ok false
      else check_items selected_orders visited_aisles rest
  end.

Definition is_solution_feasible (selected_orders visited_aisles : list Z)
  : result bool :=
  total ← total_units_picked selected_orders;
  within ← between (wave_size_lb self) total (wave_size_ub self);
  if negb within then Ok false
  else
    items ← required_items selected_orders;
    check_items selected_orders visited_aisles (elements items).

Definition compute_objective_function (selected_orders visited_aisles : list Z)
  : result float64 :=
  total ← total_units_picked selected_orders;
  let num_visited_aisles := Z.of_nat (length visited_aisles) in
  true_divide total num_visited_aisles.
End Validator.

(** [read_output] after parsing: [list(set(...))] on both index lists.  The
    order in which Python walks a set is not specified; the lists returned
    here are one enumeration of the two sets. *)
Definition list_set (l : list Z) : list Z := elements (list_to_set l : gset Z).

Definition read_output (parsed_orders parsed_aisles : list Z) : list Z * list Z :=
  (list_set parsed_orders, list_set parsed_aisles).

(** *** The feasibility conditions as the design document words them

    A selection is a pair of index sets; sums range over the members of a
    set, each counted once. *)

Definition sum_over (S : gset Z) (f : Z → Z) : Z := py_sum (f <$> elements S).

Section Conditions.
Variable self : WaveOrderPicking.

(** Total units over the selected orders. *)
Definition total_picked (SO : gset Z) : Z :=
  sum_over SO (λ o, units_of (entry_at (orders self) o)).

(** Summed demand for an item over the selected orders. *)
Definition demand (SO : gset Z) (item : Z) : Z :=
  sum_over SO (λ o, dict_get (entry_at (orders self) o) item 0).

(** Summed supply of an item over the selected aisles. *)
Definition supply (VA : gset Z) (item : Z) : Z :=
  sum_over VA (λ a, dict_get (entry_at (aisles self) a) item 0).

(** The item appears in some selected order. *)
Definition appears (SO : gset Z) (item : Z) : Prop :=
  ∃ o, o ∈ SO ∧ is_Some (entry_at (orders self) o !! item).

Definition wave_condition (SO : gset Z) : Prop :=
  wave_size_lb self ≤ total_picked SO ≤ wave_size_ub self.

Definition availability_condition (SO VA : gset Z) : Prop :=
  ∀ item, appears SO item → demand SO item ≤ supply VA item.
End Conditions.

(** An index set of a table: every member is a position of the table. *)
Definition index_set {A : Type} (table : list A) (S : gset Z) : Prop :=
  ∀ i, i ∈ S → 0 ≤ i < Z.of_nat (length table).

(** An index list whose entries are all positions of the table. *)
Definition in_range {A : Type} (table : list A) (l : list Z) : Prop :=
  Forall (λ i, 0 ≤ i < Z.of_nat (length table)) l.

(** *** The range in which the validator's arithmetic is exact

    Integers up to [2^53] in magnitude are held exactly by [int64] and by
    [float64] alike. *)

(** The quantities of a dict, added up in magnitude. *)
Definition weight (d : gmap Z Z) : Z := py_sum (Z.abs <$> dict_values d).

Definition load (table : list (gmap Z Z)) (l : list Z) : Z :=
  py_sum ((λ o, weight (entry_at table o)) <$> l).

(** The listed orders weigh no more than [2^53] together, nor do the wave
    bounds exceed it. *)
Definition modest (self : WaveOrderPicking) (selected_orders : list Z) : Prop :=
  load (orders self) selected_orders ≤ 2 ^ 53
  ∧ Z.abs (wave_size_lb self) ≤ 2 ^ 53
  ∧ Z.abs (wave_size_ub self) ≤ 2 ^ 53.

(** Every quantity of every order is one that a 64-bit integer of numpy
    holds, signed or unsigned. *)
Definition numpy_sized (self : WaveOrderPicking) : Prop :=
  ∀ d v, d ∈ orders self → v ∈ dict_values d → - 2 ^ 63 ≤ v < 2 ^ 64.

(** Both wave bounds are integers that [float] converts. *)
Definition bounds_convert (self : WaveOrderPicking) : Prop :=
  (∃ lb, py_float (wave_size_lb self) = Ok lb)
  ∧ ∃ ub, py_float (wave_size_ub self) = Ok ub.

(** The total of [total_units_picked] in that range: a Python int before
    the first order, then a [float64] if one of the listed orders is empty
    and an [int64] if none is. *)
Definition empty_order (table : list (gmap Z Z)) (o : Z) : bool :=
  bool_decide (entry_at table o = ∅).

Definition exact_total (table : list (gmap Z Z)) (l : list Z) : number :=
  match l with
  | [] => PyInt 0
  | _ => exact_number (existsb (empty_order table) l)
                      (py_sum ((λ o, units_of (entry_at table o)) <$> l))
  end.

(** Scenario A of the design document. *)
Definition scenario_A : WaveOrderPicking := {|
  orders := [ {[ 0 := 3 ]} ; <[ 0 := 2 ]> {[ 1 := 2 ]} ];
  aisles := [ {[ 0 := 5 ]} ; {[ 1 := 2 ]} ];
  wave_size_lb := 2;
  wave_size_ub := 5
|}.

(** One order of [2^63] units in two items, which aisle 0 supplies. *)
Definition scenario_wrap : WaveOrderPicking := {|
  orders := [ <[ 0 := 2 ^ 62 ]> {[ 1 := 2 ^ 62 ]} ];
  aisles := [ <[ 0 := 2 ^ 62 ]> {[ 1 := 2 ^ 62 ]} ];
  wave_size_lb := 1;
  wave_size_ub := 2 ^ 63
|}.

(** An empty order, one of [2^53 + 1] units and one of a single unit. *)
Definition scenario_round : WaveOrderPicking := {|
  orders := [ ∅ ; {[ 0 := 2 ^ 53 + 1 ]} ; {[ 0 := 1 ]} ];
  aisles := [ {[ 0 := 2 ^ 54 ]} ];
  wave_size_lb := 0;
  wave_size_ub := 2 ^ 53
|}.

(** An empty order, and an order of [2^1024] units, which no double
    holds. *)
Definition scenario_huge : WaveOrderPicking := {|
  orders := [ ∅ ; {[ 0 := 2 ^ 1024 ]} ];
  aisles := [ {[ 0 := 2 ^ 1024 ]} ];
  wave_size_lb := 0;
  wave_size_ub := 2 ^ 1024
|}.

End Checker.

(** ** The engine: [solve_instance] of [math_solve.py] *)

Module MathSolve.

(** *** The integer program handed to the solver *)

(** The binary variables [x[o]] and [y[a]]. *)
Inductive var : Type :=
| x (o : nat)
| y (a : nat).

(** A sum of [coefficient * variable] terms, as [quicksum] / [lpSum] build. *)
Definition lin_expr : Type := list (Z * var).

Inductive cname : Type :=
| WaveLB
| WaveUB
| Availability (i : Z)
| AisleLimit.

Inductive sense : Type :=
| LessEqual
| GreaterEqual.

(** [lhs <= rhs_terms + rhs_const] or [lhs >= rhs_terms + rhs_const]. *)
Record constr : Type := {
  c_name : cname;
  c_lhs : lin_expr;
  c_sense : sense;
  c_rhs_terms : lin_expr;
  c_rhs_const : Z
}.

Inductive direction : Type :=
| MINIMIZE
| MAXIMIZE.

(** The model object: the constraints in the order they were added, the
    objective and its direction. *)
Record Model : Type := {
  constrs : list constr;
  objective : lin_expr;
  model_sense : direction
}.

Definition addConstr (c : constr) (m : Model) : Model :=
  {| constrs := constrs m ++ [c]; objective := objective m;
     model_sense := model_sense m |}.

(** [model.setObjective(obj, GRB.MAXIMIZE)] *)
Definition setObjective (obj : lin_expr) (d : direction) (m : Model) : Model :=
  {| constrs := constrs m; objective := obj; model_sense := d |}.

(** [constr.setAttr(GRB.Attr.RHS, k)] on the constraint named [n]. *)
Definition set_rhs (n : cname) (k : Z) (c : constr) : constr :=
  match n, c_name c with
  | AisleLimit, AisleLimit =>
      {| c_name := c_name c; c_lhs := c_lhs c; c_sense := c_sense c;
         c_rhs_terms := c_rhs_terms c; c_rhs_const := k |}
  | _, _ => c
  end.

Definition setAttr_RHS (n : cname) (k : Z) (m : Model) : Model :=
  {| constrs := set_rhs n k <$> constrs m; objective := objective m;
     model_sense := model_sense m |}.

(** *** What a model means *)

(** A value for every binary variable. *)
Definition assignment : Type := var → bool.

Definition eval (a : assignment) (e : lin_expr) : Z :=
  foldr (λ '(c, v) acc, c * Z.b2z (a v) + acc) 0 e.

Definition satisfies (a : assignment) (c : constr) : Prop :=
  match c_sense c with
  | LessEqual => eval a (c_lhs c) ≤ eval a (c_rhs_terms c) + c_rhs_const c
  | GreaterEqual => eval a (c_rhs_terms c) + c_rhs_const c ≤ eval a (c_lhs c)
  end.

Definition feasible (m : Model) (a : assignment) : Prop :=
  Forall (satisfies a) (constrs m).

(** [v] is the optimal objective value of the maximisation [m]. *)
Definition is_optimum (m : Model) (v : Z) : Prop :=
  (∃ a, feasible m a ∧ eval a (objective m) = v)
  ∧ ∀ a, feasible m a → eval a (objective m) ≤ v.

Definition satisfiesb (a : assignment) (c : constr) : bool :=
  match c_sense c with
  | LessEqual => eval a (c_lhs c) <=? eval a (c_rhs_terms c) + c_rhs_const c
  | GreaterEqual => eval a (c_rhs_terms c) + c_rhs_const c <=? eval a (c_lhs c)
  end.

Definition feasibleb (m : Model) (a : assignment) : bool :=
  forallb (satisfiesb a) (constrs m).

(** *** The solver, a black box *)

(** The status after a solve: optimal, or one of the others. *)
Inductive status : Type :=
| OPTIMAL
| INFEASIBLE
| TIME_LIMIT.

(** What the script reads back after [model.optimize()]: the status and,
    meaningful when the status is [OPTIMAL], [ObjVal] and the [X] attribute of
    every variable (floats, kept as the rationals they are). *)
Record Solution : Type := {
  sol_status : status;
  ObjVal : Q;
  X : var → Q
}.

(** *** What the script does that can be seen from outside

    [Optimize k] is the call of the solver for the budget [k]; the others
    are the lines printed (without their timings) and the output file
    written. *)

Inductive event : Type :=
| Optimize (k : nat)
| PrintProgress (k : nat) (v_k ratio : Q)
| PrintNewBest (ratio : Q) (n_orders n_aisles : nat)
| PrintInfeasible (k : nat)
| WriteOutput (selected_orders selected_aisles : list nat)
| PrintDone (ratio : Q)
| PrintNoSolution.

(** [a > b] on floats. *)
Definition Qgtb (a b : Q) : bool :=
  match (b ?= a)%Q with
  | Lt => true
  | _ => false
  end.

Record sweep_state : Type := {
  best_ratio : Q;
  best_solution : option (list nat * list nat);
  output : list event
}.

Section Engine.
(** The tuple that [read_instance] returns. *)
Variable orders : list (gmap Z Z).
Variable aisles : list (gmap Z Z).
Variable n_items : Z.
Variable wave_size_lb wave_size_ub : Z.

(** [model.optimize()] for the Gurobi script, [model.solve(...)] for the
    PuLP one; a solver fault is an exception. *)
Variable optimize : Model → result Solution.

(** [[sum(order.values()) for order in orders]] *)
Definition total_units : list Z := (λ order, py_sum (dict_values order)) <$> orders.

(** [{i: [] for i in range(n_items)}] *)
Definition empty_index : gmap Z (list (nat * Z)) :=
  list_to_map ((λ i, (i, [])) <$> seqZ 0 n_items).

(** [index[i].append(entry)]: a [KeyError] when [i] is no key. *)
Definition index_append (index : gmap Z (list (nat * Z))) (i : Z)
    (entry : nat * Z) : result (gmap Z (list (nat * Z))) :=
  match index !! i with
  | Some l => Ok (<[ i := l ++ [entry] ]> index)
  | None => Raise KeyError
  end.

(** [for o, order in enumerate(table):
       for i, qty in order.items(): index[i].append((o, qty))] *)
Definition build_index (table : list (gmap Z Z))
  : result (gmap Z (list (nat * Z))) :=
  for_each
    (λ index '(o, order),
       for_each (λ index' '(i, qty), index_append index' i (o, qty))
                index (map_to_list order))
    empty_index (imap pair table).

(** [index[i]] on a dict. *)
Definition dict_index (index : gmap Z (list (nat * Z))) (i : Z)
  : result (list (nat * Z)) :=
  match index !! i with
  | Some l => Ok l
  | None => Raise KeyError
  end.

(** [quicksum(total_units[o] * x[o] for o in range(len(orders)))] *)
Definition units_expr : lin_expr := imap (λ o u, (u, x o)) total_units.

(** [quicksum(y[a] for a in range(len(aisles)))] *)
Definition aisles_expr : lin_expr := (λ a, (1, y a)) <$> seq 0 (length aisles).

(** [quicksum(q * v[e] for e, q in pairs)] *)
Definition incidence_expr (v : nat → var) (pairs : list (nat * Z)) : lin_expr :=
  (λ '(e, q), (q, v e)) <$> pairs.

(** The four kinds of constraint, as the scripts write them. *)
Definition wave_lb_constr : constr :=
  {| c_name := WaveLB; c_lhs := units_expr; c_sense := GreaterEqual;
     c_rhs_terms := []; c_rhs_const := wave_size_lb |}.

Definition wave_ub_constr : constr :=
  {| c_name := WaveUB; c_lhs := units_expr; c_sense := LessEqual;
     c_rhs_terms := []; c_rhs_const := wave_size_ub |}.

Definition availability_constr (i : Z) (ios ias : list (nat * Z)) : constr :=
  {| c_name := Availability i; c_lhs := incidence_expr x ios;
     c_sense := LessEqual; c_rhs_terms := incidence_expr y ias;
     c_rhs_const := 0 |}.

Definition aisle_limit_constr (k : Z) : constr :=
  {| c_name := AisleLimit; c_lhs := aisles_expr; c_sense := LessEqual;
     c_rhs_terms := []; c_rhs_const := k |}.

(** The body of [for i in range(n_items)]: a constraint only
    [if item_to_orders[i]]. *)
Definition add_availability (item_to_orders item_to_aisles : gmap Z (list (nat * Z)))
    (m : Model) (i : Z) : result Model :=
  ios ← dict_index item_to_orders i;
  match ios with
  | [] => Ok m
  | _ =>
      ias ← dict_index item_to_aisles i;
      Ok (addConstr (availability_constr i ios ias) m)
  end.

(** The constraints and the objective, in the order both scripts add them;
    [k] is the right-hand side given to [AisleLimit]. *)
Definition build_model (k : Z) : result Model :=
  item_to_orders ← build_index orders;
  item_to_aisles ← build_index aisles;
  (* the fresh model: PuLP's is created with [LpMaximize], Gurobi's gets
     its direction together with the objective *)
  let m0 := {| constrs := []; objective := []; model_sense := MAXIMIZE |} in
  let m1 := addConstr wave_lb_constr m0 in
  let m2 := addConstr wave_ub_constr m1 in
  m3 ← for_each (add_availability item_to_orders item_to_aisles) m2
                (seqZ 0 n_items);
  let m4 := addConstr (aisle_limit_constr k) m3 in
  Ok (setObjective units_expr MAXIMIZE m4).

(** The Gurobi script builds the model once with [AisleLimit <= 1] and
    moves that bound before each solve; the PuLP script builds a new model
    for every [k]. *)
Definition formulation_gurobi (m : Model) (k : nat) : Model :=
  setAttr_RHS AisleLimit (Z.of_nat k) m.

Definition formulation_pulp (k : nat) : result Model := build_model (Z.of_nat k).

(** [v / k] for a double [v] and a budget [k] of at least 1: the double
    nearest to the quotient (which is no larger than [v], so there is no
    overflow to test for). *)
Definition float_div (v : Q) (k : nat) : Q :=
  round_Q (v / inject_Z (Z.of_nat k)).

(** [[o for o in range(n) if v[o].X > 0.5]] *)
Definition selected (v : nat → var) (n : nat) (s : Solution) : list nat :=
  filter (λ e, Qgtb (X s (v e)) (1 # 2) = true) (seq 0 n).

(** The body of [for k in range(1, k_max + 1)], after the model for [k]
    has been set up. *)
Definition sweep_step (m : Model) (k : nat) (st : sweep_state)
  : result sweep_state :=
  s ← optimize m;
  let out := output st ++ [Optimize k] in
  match sol_status s with
  | OPTIMAL =>
      let v_k := ObjVal s in
      let ratio := float_div v_k k in
      let out := out ++ [PrintProgress k v_k ratio] in
      if Qgtb ratio (best_ratio st) then
        let selected_orders := selected x (length orders) s in
        let selected_aisles := selected y (length aisles) s in
        Ok {| best_ratio := ratio;
              best_solution := Some (selected_orders, selected_aisles);
              output := out ++ [PrintNewBest ratio (length selected_orders)
                                             (length selected_aisles)] |}
      else
        Ok {| best_ratio := best_ratio st;
              best_solution := best_solution st;
              output := out |}
  | _ =>
      Ok {| best_ratio := best_ratio st;
            best_solution := best_solution st;
            output := out ++ [PrintInfeasible k] |}
  end.

(** PuLP hands a value to the variables of the problem only, those that
    stand with a coefficient other than zero in the objective or in a
    constraint; [value()] of any other variable is [None].  Every [y[a]]
    stands in [AisleLimit]; [x[o]] stands in the constraint of an item as
    soon as order [o] has a quantity other than zero, and nowhere if it has
    none. *)
Definition in_problem (o : nat) : bool :=
  existsb (λ q, negb (q =? 0)) (dict_values (default ∅ (orders !! o))).

(** [[o for o in range(len(orders)) if x[o].value() > 0.5]]: the
    comparison of [None] with [0.5] raises [TypeError]. *)
Definition selected_orders_pulp (s : Solution) : result (list nat) :=
  if forallb in_problem (seq 0 (length orders))
  then Ok (selected x (length orders) s)
  else Raise TypeError.

(** The body of the loop of the PuLP scripts, after the model for [k] has
    been built. *)
Definition sweep_step_pulp (m : Model) (k : nat) (st : sweep_state)
  : result sweep_state :=
  s ← optimize m;
  let out := output st ++ [Optimize k] in
  match sol_status s with
  | OPTIMAL =>
      let v_k := ObjVal s in
      let ratio := float_div v_k k in
      let out := out ++ [PrintProgress k v_k ratio] in
      if Qgtb ratio (best_ratio st) then
        selected_orders ← selected_orders_pulp s;
        let selected_aisles := selected y (length aisles) s in
        Ok {| best_ratio := ratio;
              best_solution := Some (selected_orders, selected_aisles);
              output := out ++ [PrintNewBest ratio (length selected_orders)
                                             (length selected_aisles)] |}
      else
        Ok {| best_ratio := best_ratio st;
              best_solution := best_solution st;
              output := out |}
  | _ =>
      Ok {| best_ratio := best_ratio st;
            best_solution := best_solution st;
            output := out ++ [PrintInfeasible k] |}
  end.

Definition initial_state : sweep_state :=
  {| best_ratio := 0; best_solution := None; output := [] |}.

Definition k_max : nat := length aisles.

(** The sweep of the Gurobi script over the budgets [ks]: one model is
    retained, and the bound of [AisleLimit] is moved on it before each
    solve. *)
Definition sweep_gurobi (m : Model) (ks : list nat) (st : sweep_state)
  : result (Model * sweep_state) :=
  for_each
    (λ '(m, st) k,
       let m' := setAttr_RHS AisleLimit (Z.of_nat k) m in
       st' ← sweep_step m' k st;
       Ok (m', st'))
    (m, st) ks.

(** The sweep of the PuLP script: a new model for each budget. *)
Definition sweep_pulp (ks : list nat) (st : sweep_state) : result sweep_state :=
  for_each (λ st k, m ← formulation_pulp k; sweep_step_pulp m k st) st ks.

(** The sweep as the proofs take it: the model for each budget is the
    first model with the bound of [AisleLimit] set to that budget.  The
    Gurobi sweep is this one, and so is a PuLP sweep that returns. *)
Definition sweep (m : Model) (ks : list nat) (st : sweep_state)
  : result sweep_state :=
  for_each (λ st k, sweep_step (formulation_gurobi m k) k st) st ks.

(** The ratio and the selection that the loop body computes from a
    solution, and the budgets at which the solver ended optimal. *)
Definition ratio_at (k : nat) (s : Solution) : Q := float_div (ObjVal s) k.

Definition selection (s : Solution) : list nat * list nat :=
  (selected x (length orders) s, selected y (length aisles) s).

Definition optimal_at (m : Model) (k : nat) (s : Solution) : Prop :=
  optimize (formulation_gurobi m k) = Ok s ∧ sol_status s = OPTIMAL.

(** What the state holds after the budgets [1 .. j]: nothing as long as no
    optimal ratio was positive, else the solution of the lowest budget
    whose ratio is the greatest. *)
Definition retained (m : Model) (j : nat) (st : sweep_state) : Prop :=
  match best_solution st with
  | None =>
      best_ratio st = 0%Q
      ∧ ∀ k s, (1 ≤ k ≤ j)%nat → optimal_at m k s → ¬ (0 < ratio_at k s)%Q
  | Some sol =>
      ∃ k1 s1,
        (1 ≤ k1 ≤ j)%nat ∧ optimal_at m k1 s1
        ∧ sol = selection s1 ∧ best_ratio st = ratio_at k1 s1
        ∧ (0 < ratio_at k1 s1)%Q
        ∧ (∀ k s, (1 ≤ k ≤ j)%nat → optimal_at m k s →
             (ratio_at k s <= ratio_at k1 s1)%Q)
        ∧ (∀ k s, (1 ≤ k < k1)%nat → optimal_at m k s →
             (ratio_at k s < ratio_at k1 s1)%Q)
  end.

(** The solver is the one of the design document: an optimal result
    carries a 0/1 value for every variable and the objective at it. *)
Definition solver_sound (m : Model) : Prop :=
  ∀ k s, optimal_at m k s →
    ∃ a : assignment,
      (∀ v, (X s v == if a v then 1 else 0)%Q)
      ∧ (ObjVal s == inject_Z (eval a (objective (formulation_gurobi m k))))%Q.

(** [solve_instance] of [challenge-sbpo-2025/math_solve.py]; the result is
    everything it printed and wrote. *)
Definition solve_instance : result (list event) :=
  m ← build_model 1;
  swept ← sweep_gurobi m (seq 1 k_max) initial_state;
  let st := swept.2 in
  match best_solution st with
  | Some (selected_orders, selected_aisles) =>
      Ok (output st ++ [WriteOutput selected_orders selected_aisles;
                        PrintDone (best_ratio st)])
  | None => Ok (output st ++ [PrintNoSolution])
  end.

(** The model that the PuLP script makes in each turn of its loop, from the
    two indices it has built before the loop. *)
Definition model_from_index
    (item_to_orders item_to_aisles : gmap Z (list (nat * Z))) (k : Z)
  : result Model :=
  let m0 := {| constrs := []; objective := []; model_sense := MAXIMIZE |} in
  let m1 := addConstr wave_lb_constr m0 in
  let m2 := addConstr wave_ub_constr m1 in
  m3 ← for_each (add_availability item_to_orders item_to_aisles) m2
                (seqZ 0 n_items);
  let m4 := addConstr (aisle_limit_constr k) m3 in
  Ok (setObjective units_expr MAXIMIZE m4).

(** [solve_instance] of [math_solve (pulp).py]: the indices once, then a
    new model for every budget. *)
Definition solve_instance_pulp : result (list event) :=
  item_to_orders ← build_index orders;
  item_to_aisles ← build_index aisles;
  st ← for_each
         (λ st k,
            m ← model_from_index item_to_orders item_to_aisles (Z.of_nat k);
            sweep_step_pulp m k st)
         initial_state (seq 1 k_max);
  match best_solution st with
  | Some (selected_orders, selected_aisles) =>
      Ok (output st ++ [WriteOutput selected_orders selected_aisles;
                        PrintDone (best_ratio st)])
  | None => Ok (output st ++ [PrintNoSolution])
  end.

(** [solve_instance] of [math_solve (gurobi).py]: the [if best_solution]
    at its end has no [else]. *)
Definition solve_instance_gurobi : result (list event) :=
  m ← build_model 1;
  swept ← sweep_gurobi m (seq 1 k_max) initial_state;
  let st := swept.2 in
  match best_solution st with
  | Some (selected_orders, selected_aisles) =>
      Ok (output st ++ [WriteOutput selected_orders selected_aisles;
                        PrintDone (best_ratio st)])
  | None => Ok (output st)
  end.

(** [solve_instance] of the copy of the PuLP script that [checker.py]
    carries: no [else] either. *)
Definition solve_instance_checker : result (list event) :=
  item_to_orders ← build_index orders;
  item_to_aisles ← build_index aisles;
  st ← for_each
         (λ st k,
            m ← model_from_index item_to_orders item_to_aisles (Z.of_nat k);
            sweep_step_pulp m k st)
         initial_state (seq 1 k_max);
  match best_solution st with
  | Some (selected_orders, selected_aisles) =>
      Ok (output st ++ [WriteOutput selected_orders selected_aisles;
                        PrintDone (best_ratio st)])
  | None => Ok (output st)
  end.
End Engine.

(** Every order has a quantity other than zero. *)
Definition orders_count (orders : list (gmap Z Z)) : Prop :=
  Forall (λ d, ∃ q, q ∈ dict_values d ∧ q ≠ 0) orders.

(** A log without its "no solution found" line. *)
Definition no_solution_line (e : event) : bool :=
  match e with
  | PrintNoSolution => true
  | _ => false
  end.

Definition without_no_solution (log : list event) : list event :=
  filter (λ e, no_solution_line e = false) log.

(** The budgets for which the solver was called, and the events of the
    loop body. *)
Definition calls (out : list event) : list nat :=
  omap (λ e, match e with Optimize k => Some k | _ => None end) out.

Definition step_event (e : event) : Prop :=
  match e with
  | Optimize _ | PrintProgress _ _ _ | PrintNewBest _ _ _ | PrintInfeasible _ => True
  | _ => False
  end.

(** The pairs that [build_index] collects for item [i], counting positions
    from [start]. *)
Fixpoint incidence_from (start : nat) (table : list (gmap Z Z)) (i : Z)
  : list (nat * Z) :=
  match table with
  | [] => []
  | d :: rest =>
      match d !! i with
      | Some q => (start, q) :: incidence_from (S start) rest i
      | None => incidence_from (S start) rest i
      end
  end.

(** *** The formulation as the design document words it *)

(** [Σ_e f e (table[e])] over the positions of a table. *)
Definition sum_indexed {A : Type} (table : list A) (f : nat → A → Z) : Z :=
  py_sum (imap f table).

Section Formulation.
Variable orders : list (gmap Z Z).
Variable aisles : list (gmap Z Z).
Variable n_items : Z.
Variable wave_size_lb wave_size_ub : Z.

(** Every item of every order and aisle is one of the [n_items] items. *)
Definition items_in_range (table : list (gmap Z Z)) : Prop :=
  ∀ d i, d ∈ table → is_Some (d !! i) → 0 ≤ i < n_items.

Definition well_formed : Prop :=
  items_in_range orders ∧ items_in_range aisles.

(** Item [i] appears in at least one order. *)
Definition demanded (i : Z) : Prop := Exists (λ d, is_Some (d !! i)) orders.

#[global] Instance demanded_dec (i : Z) : Decision (demanded i).
Proof. unfold demanded. apply _. Defined.

Definition stated_units (a : assignment) : Z :=
  sum_indexed orders (λ o d, units_of d * Z.b2z (a (x o))).

Definition stated_demand (a : assignment) (i : Z) : Z :=
  sum_indexed orders (λ o d, dict_get d i 0 * Z.b2z (a (x o))).

Definition stated_supply (a : assignment) (i : Z) : Z :=
  sum_indexed aisles (λ e d, dict_get d i 0 * Z.b2z (a (y e))).

Definition stated_constraint (k : Z) (a : assignment) (n : cname) : Prop :=
  match n with
  | WaveLB => wave_size_lb ≤ stated_units a
  | WaveUB => stated_units a ≤ wave_size_ub
  | Availability i => stated_demand a i ≤ stated_supply a i
  | AisleLimit => sum_indexed aisles (λ e _, Z.b2z (a (y e))) ≤ k
  end.

(** The names of the constraints that the formulation consists of. *)
Definition stated_names : list cname :=
  [WaveLB; WaveUB]
  ++ (Availability <$> filter demanded (seqZ 0 n_items))
  ++ [AisleLimit].

(** The model that both scripts hand to the solver for the budget [k],
    written out. *)
Definition model_for (k : Z) : Model :=
  {| constrs :=
       [wave_lb_constr orders wave_size_lb; wave_ub_constr orders wave_size_ub]
       ++ ((λ i, availability_constr i (incidence_from 0 orders i)
                                       (incidence_from 0 aisles i))
             <$> filter demanded (seqZ 0 n_items))
       ++ [aisle_limit_constr aisles k];
     objective := units_expr orders;
     model_sense := MAXIMIZE |}.
End Formulation.

(** *** A solver by enumeration, to run the engine on small instances *)

Fixpoint bitvectors (n : nat) : list (list bool) :=
  match n with
  | O => [[]]
  | S n' => bs ← bitvectors n'; [false :: bs; true :: bs]
  end.

Definition assignment_of (xs ys : list bool) : assignment :=
  λ v, match v with
       | x o => default false (xs !! o)
       | y e => default false (ys !! e)
       end.

Definition candidates (n_orders n_aisles : nat) : list assignment :=
  xs ← bitvectors n_orders; ys ← bitvectors n_aisles; [assignment_of xs ys].

(** An assignment cut down to the variables of the instance. *)
Definition restrict (n_orders n_aisles : nat) (a : assignment) : assignment :=
  assignment_of ((λ o, a (x o)) <$> seq 0 n_orders)
                ((λ e, a (y e)) <$> seq 0 n_aisles).

(** The first feasible candidate of greatest objective value. *)
Definition best_candidate (m : Model) (cands : list assignment) : option assignment :=
  foldr (λ a best,
           if feasibleb m a then
             match best with
             | Some b =>
                 if eval b (objective m) <=? eval a (objective m)
                 then Some a else Some b
             | None => Some a
             end
           else best)
        None cands.

Definition enumerate_optimize (n_orders n_aisles : nat) (m : Model)
  : result Solution :=
  match best_candidate m (candidates n_orders n_aisles) with
  | Some a =>
      Ok {| sol_status := OPTIMAL;
            ObjVal := inject_Z (eval a (objective m));
            X := λ v, if a v then 1%Q else 0%Q |}
  | None =>
      Ok {| sol_status := INFEASIBLE; ObjVal := 0; X := λ _, 0%Q |}
  end.

(** Scenario A as [read_instance] returns it, solved by enumeration. *)
Definition scenario_A_orders : list (gmap Z Z) :=
  [ {[ 0 := 3 ]} ; <[ 0 := 2 ]> {[ 1 := 2 ]} ].
Definition scenario_A_aisles : list (gmap Z Z) :=
  [ {[ 0 := 5 ]} ; {[ 1 := 2 ]} ].

Definition scenario_A_run : result (list event) :=
  solve_instance scenario_A_orders scenario_A_aisles 2 2 5 (enumerate_optimize 2 2).

(** Scenario D: the lower bound exceeds the units of all orders together. *)
Definition scenario_D_run : result (list event) :=
  solve_instance scenario_A_orders scenario_A_aisles 2 100 200
                 (enumerate_optimize 2 2).

End MathSolve.

(** ** The files: [read_input], [read_output], [read_instance], [write_output]

    A text file is taken as [readlines()] and [split()] leave it: a list of
    lines, each the list of its whitespace-separated tokens.  A token is what
    [int()] makes of it: an integer, or a [ValueError].  Writing an integer
    with [f"{n}\n"] gives a line of one token that reads back as [n]. *)

Module Files.

Inductive token : Type :=
| Num (z : Z)
| Word.

Definition line : Type := list token.

(** The exceptions of this layer: those of the core, and [ValueError]. *)
Inductive exception : Type :=
| Builtin (e : exn)
| ValueError.

Inductive outcome (A : Type) : Type :=
| Returns (a : A)
| Raises (e : exception).
Arguments Returns {A} a.
Arguments Raises {A} e.

#[global] Instance outcome_bind : MBind outcome := λ A B k r,
  match r with
  | Returns a => k a
  | Raises e => Raises e
  end.

#[global] Instance outcome_fmap : FMap outcome := λ A B f r,
  match r with
  | Returns a => Returns (f a)
  | Raises e => Raises e
  end.

Definition lift {A : Type} (r : result A) : outcome A :=
  match r with
  | Ok a => Returns a
  | Raise e => Raises (Builtin e)
  end.

(** The exceptions of a reader on a file that is not laid out as it
    expects: a missing line or token, or a token that is no integer. *)
Definition parse_error (e : exception) : Prop :=
  e = ValueError ∨ e = Builtin IndexError.

(** [int(tok)] *)
Definition int (t : token) : outcome Z :=
  match t with
  | Num z => Returns z
  | Word => Raises ValueError
  end.

(** [int(tokens[i])] *)
Definition int_at (tokens : line) (i : Z) : outcome Z :=
  t ← lift (py_getitem tokens i); int t.

(** [int(lines[i].strip())]: the whole line has to be one integer. *)
Definition int_stripped (l : line) : outcome Z :=
  match l with
  | [t] => int t
  | _ => Raises ValueError
  end.

Definition int_line (lines : list line) (i : Z) : outcome Z :=
  l ← lift (py_getitem lines i); int_stripped l.

(** [[f(j) for j in js]], and the loops that [append] one [f(j)] per turn. *)
Fixpoint collect {A B : Type} (f : A → outcome B) (js : list A)
  : outcome (list B) :=
  match js with
  | [] => Returns []
  | j :: rest => b ← f j; bs ← collect f rest; Returns (b :: bs)
  end.

(** [{int(tokens[2*k+1]): int(tokens[2*k+2]) for k in ks}], on top of the
    entries already made: a later pair replaces an earlier one of the same
    item. *)
Fixpoint dict_comprehension (tokens : line) (ks : list Z) (acc : gmap Z Z)
  : outcome (gmap Z Z) :=
  match ks with
  | [] => Returns acc
  | k :: rest =>
      key ← int_at tokens (2 * k + 1);
      val ← int_at tokens (2 * k + 2);
      dict_comprehension tokens rest (<[ key := val ]> acc)
  end.

(** One order or aisle line: [d item_1 qty_1 ... item_d qty_d]. *)
Definition read_map (tokens : line) : outcome (gmap Z Z) :=
  d ← int_at tokens 0;
  dict_comprehension tokens (seqZ 0 d) ∅.

(** [WaveOrderPicking.read_input] of [checker.py] *)
Definition read_input (lines : list line) : outcome Checker.WaveOrderPicking :=
  first_line ← lift (py_getitem lines 0);
  o ← int_at first_line 0;
  i ← int_at first_line 1;
  a ← int_at first_line 2;
  orders ← collect (λ j, order_line ← lift (py_getitem lines (j + 1));
                         read_map order_line) (seqZ 0 o);
  aisles ← collect (λ j, aisle_line ← lift (py_getitem lines (j + o + 1));
                         read_map aisle_line) (seqZ 0 a);
  bounds ← lift (py_getitem lines (o + a + 1));
  lb ← int_at bounds 0;
  ub ← int_at bounds 1;
  Returns {| Checker.orders := orders; Checker.aisles := aisles;
             Checker.wave_size_lb := lb; Checker.wave_size_ub := ub |}.

(** What [read_instance] of the solver scripts returns. *)
Record Instance : Type := {
  orders : list (gmap Z Z);
  aisles : list (gmap Z Z);
  n_items : Z;
  wave_size_lb : Z;
  wave_size_ub : Z
}.

(** [read_instance] of [math_solve.py] *)
Definition read_instance (lines : list line) : outcome Instance :=
  first_line ← lift (py_getitem lines 0);
  n_orders ← int_at first_line 0;
  n_items ← int_at first_line 1;
  n_aisles ← int_at first_line 2;
  orders ← collect (λ i, l ← lift (py_getitem lines i); read_map l)
                   (seqZ 1 n_orders);
  aisles ← collect (λ i, l ← lift (py_getitem lines i); read_map l)
                   (seqZ (n_orders + 1) n_aisles);
  bounds ← lift (py_getitem lines (n_orders + n_aisles + 1));
  lb ← int_at bounds 0;
  ub ← int_at bounds 1;
  Returns {| orders := orders; aisles := aisles; n_items := n_items;
             wave_size_lb := lb; wave_size_ub := ub |}.

(** The instance of the validator that holds the same data. *)
Definition to_checker (inst : Instance) : Checker.WaveOrderPicking :=
  {| Checker.orders := orders inst; Checker.aisles := aisles inst;
     Checker.wave_size_lb := wave_size_lb inst;
     Checker.wave_size_ub := wave_size_ub inst |}.

(** [write_output] of [math_solve.py]: the lines written. *)
Definition write_output (selected_orders selected_aisles : list Z) : list line :=
  [[Num (Z.of_nat (length selected_orders))]]
  ++ ((λ o, [Num o]) <$> selected_orders)
  ++ [[Num (Z.of_nat (length selected_aisles))]]
  ++ ((λ a, [Num a]) <$> selected_aisles).

(** [WaveOrderPicking.read_output] of [checker.py], from the lines on. *)
Definition read_output (lines : list line) : outcome (list Z * list Z) :=
  num_orders ← int_line lines 0;
  selected_orders ← collect (λ i, int_line lines (i + 1)) (seqZ 0 num_orders);
  num_aisles ← int_line lines (num_orders + 1);
  visited_aisles ← collect (λ i, int_line lines (num_orders + 2 + i))
                           (seqZ 0 num_aisles);
  Returns (Checker.read_output selected_orders visited_aisles).

(** *** The layout of an instance file, to state what the readers accept *)

(** [item_1 qty_1 item_2 qty_2 ...] *)
Definition pair_tokens (pairs : list (Z * Z)) : line :=
  pairs ≫= λ '(i, q), [Num i; Num q].

(** The dict that a comprehension over these pairs leaves: of two pairs
    with the same item the later one stays. *)
Definition dict_of_pairs (pairs : list (Z * Z)) : gmap Z Z :=
  list_to_map (reverse pairs).

(** A line [d item_1 qty_1 ... item_d qty_d]. *)
Definition map_line (pairs : list (Z * Z)) : line :=
  Num (Z.of_nat (length pairs)) :: pair_tokens pairs.

(** Header, one line per order, one line per aisle, the bounds. *)
Definition instance_lines (n_items : Z) (order_pairs aisle_pairs : list (list (Z * Z)))
    (lb ub : Z) : list line :=
  [Num (Z.of_nat (length order_pairs)); Num n_items;
   Num (Z.of_nat (length aisle_pairs))]
  :: (map_line <$> order_pairs) ++ (map_line <$> aisle_pairs)
  ++ [[Num lb; Num ub]].

(** *** [check_all_files] on one pair of files *)

Inductive report : Type :=
| SayFeasible (b : bool)
| SayObjective (v : float64)
| SayZeroDivision
| SayError (e : exception).

(** What the two [except] clauses print for an exception. *)
Definition say_error (e : exception) : report :=
  match e with
  | Builtin ZeroDivisionError => SayZeroDivision
  | _ => SayError e
  end.

(** The body of the loop of [check_all_files]: every exception is caught
    and reported, after what was printed before it. *)
Definition check_pair (input output : list line) : list report :=
  match read_input input with
  | Raises e => [say_error e]
  | Returns self =>
      match read_output output with
      | Raises e => [say_error e]
      | Returns (selected_orders, visited_aisles) =>
          match Checker.is_solution_feasible self selected_orders visited_aisles with
          | Raise e => [say_error (Builtin e)]
          | Ok false => [SayFeasible false]
          | Ok true =>
              match Checker.compute_objective_function self selected_orders
                      visited_aisles with
              | Ok v => [SayFeasible true; SayObjective v]
              | Raise e => [SayFeasible true; say_error (Builtin e)]
              end
          end
      end
  end.

End Files.

(** ** From the engine to the validator

    What the validator makes of the file that the engine wrote. *)

Module Pipeline.
Import MathSolve.

(** The index lists of the engine as the integers that go to the file. *)
Definition as_indices (l : list nat) : list Z := Z.of_nat <$> l.

Section Pipeline.
Variable orders aisles : list (gmap Z Z).
Variable n_items wave_size_lb wave_size_ub : Z.
Variable optimize : Model → result Solution.

(** The validator after [read_input] of the same instance file. *)
Definition validator : Checker.WaveOrderPicking :=
  {| Checker.orders := orders; Checker.aisles := aisles;
     Checker.wave_size_lb := wave_size_lb;
     Checker.wave_size_ub := wave_size_ub |}.

(** All the orders of the instance weigh no more than [2^53] together,
    nor do the wave bounds exceed it: the validator's arithmetic is exact
    on every selection of distinct orders. *)
Definition modest_instance : Prop :=
  Checker.modest validator (as_indices (seq 0 (length orders))).

(** The solver does what it is asked: an optimal result carries a 0/1
    value for every variable, these values satisfy the constraints of the
    model, and [ObjVal] is the objective at them. *)
Definition solver_correct (m : Model) : Prop :=
  ∀ k s, optimal_at optimize m k s →
    ∃ a : assignment,
      (∀ v, (X s v == if a v then 1 else 0)%Q)
      ∧ feasible (formulation_gurobi m k) a
      ∧ (ObjVal s == inject_Z (eval a (objective (formulation_gurobi m k))))%Q.

(** [write_output], then [read_output] and [is_solution_feasible]. *)
Definition validate_written (selected_orders selected_aisles : list nat)
  : Files.outcome bool :=
  read ← Files.read_output
            (Files.write_output (as_indices selected_orders)
                                (as_indices selected_aisles));
  Files.lift (Checker.is_solution_feasible validator read.1 read.2).

(** [write_output], then [read_output] and [compute_objective_function]. *)
Definition objective_of_written (selected_orders selected_aisles : list nat)
  : Files.outcome float64 :=
  read ← Files.read_output
            (Files.write_output (as_indices selected_orders)
                                (as_indices selected_aisles));
  Files.lift (Checker.compute_objective_function validator read.1 read.2).
End Pipeline.

End Pipeline.

(** * Properties of the validator *)

Section ResultFacts.
Context {A S : Type}.

Lemma for_each_app (body : S → A → result S) (s : S) (l1 l2 : list A) :
  for_each body s (l1 ++ l2) = (s' ← for_each body s l1; for_each body s' l2).
Proof.
  revert s. induction l1 as [|a l1 IH]; intros s; simpl; [done|].
  destruct (body s a) as [s'|e]; simpl; [apply IH | done].
Qed.

Lemma for_each_ext (body body' : S → A → result S) (s : S) (l : list A) :
  (∀ s a, body s a = body' s a) →
  for_each body s l = for_each body' s l.
Proof.
  intros Hext. revert s. induction l as [|a l IH]; intros s; [done|].
  cbn [for_each]. rewrite Hext.
  destruct (body' s a); cbn; [apply IH | done].
Qed.

(** A loop whose body commutes with itself does not depend on the order in
    which it walks its list. *)
Lemma for_each_perm (body : S → A → result S) (l l' : list A) :
  (∀ s a b, (s' ← body s a; body s' b) = (s' ← body s b; body s' a)) →
  l ≡ₚ l' → ∀ s, for_each body s l = for_each body s l'.
Proof.
  intros Hswap Hperm.
  induction Hperm as [|a l l' _ IH|a b l|l l' l'' _ IH1 _ IH2]; intros s.
  - done.
  - simpl. destruct (body s a); simpl; [apply IH | done].
  - simpl. specialize (Hswap s b a).
    destruct (body s a) as [sa|ea], (body s b) as [sb|eb]; simpl in *.
    + destruct (body sb a), (body sa b); simpl; congruence.
    + destruct (body sa b); simpl; congruence.
    + destruct (body sb a); simpl; congruence.
    + congruence.
  - by rewrite IH1.
Qed.
End ResultFacts.

Lemma py_getitem_in_range {A : Type} (l : list A) (i : Z) :
  0 ≤ i < Z.of_nat (length l) →
  ∃ v, l !! Z.to_nat i = Some v ∧ py_getitem l i = Ok v.
Proof.
  intros Hi. unfold py_getitem.
  destruct (Z.ltb_spec i 0) as [?|_]; [lia|].
  destruct (Z.leb_spec 0 i) as [_|?]; [|lia].
  destruct (Z.ltb_spec i (Z.of_nat (length l))) as [_|?]; [|lia]. simpl.
  destruct (l !! Z.to_nat i) as [v|] eqn:Hv; [by exists v|].
  apply lookup_ge_None in Hv. lia.
Qed.

Lemma py_getitem_raises {A : Type} (l : list A) (i : Z) (e : exn) :
  py_getitem l i = Raise e → e = IndexError.
Proof.
  unfold py_getitem.
  destruct (_ && _); [destruct (l !! _)|]; congruence.
Qed.

Lemma py_sum_perm (l l' : list Z) : l ≡ₚ l' → py_sum l = py_sum l'.
Proof.
  unfold py_sum. induction 1; simpl; lia.
Qed.

Lemma py_sum_cons (z : Z) (l : list Z) : py_sum (z :: l) = z + py_sum l.
Proof. done. Qed.

(** ** Doubles and 64-bit integers *)

Lemma rne_int (q : Q) (n : Z) : (q == inject_Z n)%Q → rne q = n.
Proof.
  intros Hq. unfold rne. rewrite (Qfloor_comp _ _ Hq), Qfloor_Z.
  assert (H : (q - inject_Z n ?= 1 # 2)%Q = Lt).
  { apply Qlt_alt. rewrite Hq. unfold Qminus. rewrite Qplus_opp_r.
    reflexivity. }
  by rewrite H.
Qed.

Lemma rne_floor (q : Q) : Qfloor q ≤ rne q ≤ Qfloor q + 1.
Proof.
  unfold rne. destruct (_ ?= _)%Q; [destruct (Z.even _)|..]; lia.
Qed.

Lemma rne_nonneg (q : Q) : (0 <= q)%Q → 0 ≤ rne q.
Proof.
  intros Hq. pose proof (rne_floor q) as [H _].
  pose proof (Qfloor_resp_le _ _ Hq) as H0.
  change (Qfloor 0) with 0 in H0. lia.
Qed.

Lemma Qlog2_int (z : Z) : 0 < z → Qlog2 (inject_Z z) = Z.log2 z.
Proof.
  intros Hz. unfold Qlog2. cbn [Qnum Qden inject_Z].
  change (Z.log2 1) with 0. rewrite Z.sub_0_r.
  assert (H : Qle_bool (2 ^ Z.log2 z) (inject_Z z) = true).
  { apply Qle_bool_iff.
    rewrite <- (Zpower_Qpower 2 (Z.log2 z)) by apply Z.log2_nonneg.
    rewrite <- Zle_Qle. by apply Z.log2_spec. }
  by rewrite H.
Qed.

Lemma Qred_inject_Z (z : Z) : Qred (inject_Z z) = inject_Z z.
Proof.
  unfold Qred, inject_Z.
  pose proof (Z.ggcd_gcd z 1) as Hg.
  pose proof (Z.ggcd_correct_divisors z 1) as Hd.
  destruct (Z.ggcd z 1) as [g [aa bb]]. cbn [fst snd] in *.
  rewrite Z.gcd_1_r in Hg. subst g. destruct Hd as [Ha Hb].
  rewrite Z.mul_1_l in Ha, Hb. subst. reflexivity.
Qed.

(** An integer of at most 53 bits is a double. *)
Lemma round_pos_int (z : Z) :
  0 < z ≤ 2 ^ 53 → (round_pos (inject_Z z) == inject_Z z)%Q.
Proof.
  intros [Hz Hb]. unfold round_pos. rewrite (Qlog2_int z Hz).
  pose proof (Z.log2_spec z Hz) as [Hl Hu].
  pose proof (Z.log2_nonneg z) as Hn.
  assert (Hl53 : Z.log2 z ≤ 53).
  { destruct (Z.le_gt_cases (Z.log2 z) 53) as [|Hgt]; [done|].
    assert (2 ^ 54 ≤ 2 ^ Z.log2 z) by (apply Z.pow_le_mono_r; lia).
    lia. }
  rewrite Z.max_l by lia.
  set (e := Z.log2 z - 52).
  assert (Hint : ∃ n, (inject_Z z / 2 ^ e == inject_Z n)%Q).
  { destruct (Z.le_gt_cases e 0) as [He|He].
    - exists (z * 2 ^ (- e)).
      rewrite inject_Z_mult, (Zpower_Qpower 2 (- e)) by lia.
      change (inject_Z 2) with 2%Q.
      unfold Qdiv. apply Qmult_comp; [reflexivity|].
      symmetry. apply Qpower_opp.
    - assert (Z.log2 z = 53) as Hl53' by (unfold e in He; lia).
      unfold e. rewrite Hl53' in Hl |- *.
      assert (z = 2 ^ 53) as -> by lia.
      exists (2 ^ 52). reflexivity. }
  destruct Hint as [n Hn']. rewrite (rne_int _ _ Hn'), <- Hn'.
  field. by apply Qpower_not_0.
Qed.

Lemma round_Q_int (z : Z) :
  Z.abs z ≤ 2 ^ 53 → round_Q (inject_Z z) = inject_Z z.
Proof.
  intros Hz. unfold round_Q.
  transitivity (Qred (inject_Z z)); [|apply Qred_inject_Z].
  apply Qred_complete.
  destruct (Qcompare_spec (inject_Z z) 0) as [H0|Hlt|Hgt].
  - by rewrite H0.
  - change 0%Q with (inject_Z 0) in Hlt. rewrite <- Zlt_Qlt in Hlt.
    change (- inject_Z z)%Q with (inject_Z (- z)).
    rewrite round_pos_int by lia.
    rewrite inject_Z_opp. apply Qopp_involutive.
  - change 0%Q with (inject_Z 0) in Hgt. rewrite <- Zlt_Qlt in Hgt.
    apply round_pos_int. lia.
Qed.

Lemma round_int_exact (z : Z) : Z.abs z ≤ 2 ^ 53 → round_int z = z.
Proof.
  intros Hz. unfold round_int. by rewrite round_Q_int, Qfloor_Z.
Qed.

Lemma round_pos_nonneg (q : Q) : (0 <= q)%Q → (0 <= round_pos q)%Q.
Proof.
  intros Hq. unfold round_pos.
  apply Qmult_le_0_compat.
  - change 0%Q with (inject_Z 0). rewrite <- Zle_Qle. apply rne_nonneg.
    apply Qle_shift_div_l; [by apply Qpower_0_lt|].
    by rewrite Qmult_0_l.
  - by apply Qpower_0_le.
Qed.

(** Rounding keeps the sign: only a positive quotient rounds to a positive
    double. *)
Lemma round_Q_pos (q : Q) : (0 < round_Q q)%Q → (0 < q)%Q.
Proof.
  unfold round_Q. rewrite Qred_correct.
  destruct (Qcompare_spec q 0) as [H0|Hlt|Hgt]; [done| |done].
  intros Hpos. exfalso.
  assert (0 <= round_pos (- q))%Q.
  { apply round_pos_nonneg. apply (Qopp_le_compat q 0).
    by apply Qlt_le_weak. }
  apply (Qlt_irrefl 0). eapply Qlt_le_trans; [exact Hpos|].
  by apply (Qopp_le_compat 0 (round_pos (- q))).
Qed.

Lemma round_Q_zero (q : Q) : (q == 0)%Q → round_Q q = 0%Q.
Proof.
  intros Hq. unfold round_Q.
  by destruct (Qcompare_spec q 0) as [_|Hlt|Hgt];
    [|rewrite Hq in Hlt|rewrite Hq in Hgt].
Qed.

Lemma round_double_zero (q : Q) : (q == 0)%Q → round_double q = Finite 0.
Proof. intros Hq. unfold round_double. by rewrite (round_Q_zero q Hq). Qed.

Lemma Qpow2_pos (e : Z) : (0 < 2 ^ e)%Q.
Proof. by apply Qpower_0_lt. Qed.

Lemma Qpow2_plus (a b : Z) : (2 ^ (a + b) == 2 ^ a * 2 ^ b)%Q.
Proof. by apply Qpower_plus. Qed.

Lemma Qpow2_inject (a : Z) : 0 ≤ a → (inject_Z (2 ^ a) == 2 ^ a)%Q.
Proof. intros Ha. by rewrite (Zpower_Qpower 2 a Ha). Qed.

Lemma Qpow2_sub (a b : Z) :
  0 ≤ a → 0 ≤ b → (2 ^ (a - b) == inject_Z (2 ^ a) / inject_Z (2 ^ b))%Q.
Proof.
  intros Ha Hb. rewrite !Qpow2_inject by done. by apply Qpower_minus.
Qed.

Lemma Qdiv_lt_cross (n d X Y : Z) :
  0 < d → 0 < Y → n * Y < X * d →
  (inject_Z n / inject_Z d < inject_Z X / inject_Z Y)%Q.
Proof.
  intros Hd HY H. destruct d as [|d|d]; try lia. destruct Y as [|Y|Y]; try lia.
  unfold Qlt, Qdiv, Qmult, Qinv, inject_Z. cbn. lia.
Qed.

Lemma Qdiv_le_cross (n d X Y : Z) :
  0 < d → 0 < Y → n * Y ≤ X * d →
  (inject_Z n / inject_Z d <= inject_Z X / inject_Z Y)%Q.
Proof.
  intros Hd HY H. destruct d as [|d|d]; try lia. destruct Y as [|Y|Y]; try lia.
  unfold Qle, Qdiv, Qmult, Qinv, inject_Z. cbn. lia.
Qed.

(** [2^l <= q < 2^(l+1)] for [l = Qlog2 q]. *)
Lemma Qlog2_spec (q : Q) :
  (0 < q)%Q → (2 ^ Qlog2 q <= q)%Q ∧ (q < 2 ^ (Qlog2 q + 1))%Q.
Proof.
  intros Hq. destruct q as [n d]. unfold Qlog2. cbn [Qnum Qden].
  assert (Hn : 0 < n) by (unfold Qlt in Hq; cbn in Hq; lia).
  pose proof (Z.log2_spec n Hn) as [Hna Hnb].
  pose proof (Z.log2_spec (Z.pos d) (Pos2Z.is_pos d)) as [Hda Hdb].
  pose proof (Z.log2_nonneg n) as Ha0.
  pose proof (Z.log2_nonneg (Z.pos d)) as Hb0.
  set (a := Z.log2 n) in *. set (b := Z.log2 (Z.pos d)) in *.
  assert (Hnd : (n # d == inject_Z n / inject_Z (Z.pos d))%Q)
    by apply Qmake_Qdiv.
  assert (Hpa : 0 < 2 ^ a) by (apply Z.pow_pos_nonneg; lia).
  assert (Hpb : 0 < 2 ^ b) by (apply Z.pow_pos_nonneg; lia).
  rewrite Z.pow_succ_r in Hnb, Hdb by done.
  destruct (Qle_bool (2 ^ (a - b)) (n # d)) eqn:Hle.
  - apply Qle_bool_iff in Hle. split; [done|].
    replace (a - b + 1) with ((a + 1) - b) by lia.
    rewrite Hnd, Qpow2_sub by lia. apply Qdiv_lt_cross; [done..|].
    rewrite Z.pow_add_r, Z.pow_1_r by lia. nia.
  - assert (Hlt : (n # d < 2 ^ (a - b))%Q).
    { apply Qnot_le_lt. intros H. apply Qle_bool_iff in H. congruence. }
    split.
    + replace (a - b - 1) with (a - (b + 1)) by lia.
      rewrite Hnd, Qpow2_sub by lia. apply Qdiv_le_cross; [lia|done|].
      rewrite Z.pow_add_r, Z.pow_1_r by lia. nia.
    + replace (a - b - 1 + 1) with (a - b) by lia. done.
Qed.

Lemma Qlog2_unique (q : Q) (l : Z) :
  (2 ^ l <= q)%Q → (q < 2 ^ (l + 1))%Q → Qlog2 q = l.
Proof.
  intros Hl Hu.
  assert (Hq : (0 < q)%Q) by (eapply Qlt_le_trans; [apply (Qpow2_pos l) | done]).
  destruct (Qlog2_spec q Hq) as [Hl' Hu'].
  assert (H1 : l < Qlog2 q + 1).
  { apply (Qpower_lt_compat_l_inv 2); [|done].
    eapply Qle_lt_trans; [exact Hl | exact Hu']. }
  assert (H2 : Qlog2 q < l + 1).
  { apply (Qpower_lt_compat_l_inv 2); [|done].
    eapply Qle_lt_trans; [exact Hl' | exact Hu]. }
  lia.
Qed.

Lemma Qlog2_mono (p q : Q) : (0 < p)%Q → (p <= q)%Q → Qlog2 p ≤ Qlog2 q.
Proof.
  intros Hp Hpq.
  assert (Hq : (0 < q)%Q) by (eapply Qlt_le_trans; [exact Hp | done]).
  destruct (Qlog2_spec p Hp) as [Hl _]. destruct (Qlog2_spec q Hq) as [_ Hu].
  assert (Qlog2 p < Qlog2 q + 1); [|lia].
  apply (Qpower_lt_compat_l_inv 2); [|done].
  eapply Qle_lt_trans; [exact Hl|]. eapply Qle_lt_trans; [exact Hpq | exact Hu].
Qed.

Lemma rne_mono (x y : Q) : (x <= y)%Q → rne x ≤ rne y.
Proof.
  intros Hxy. pose proof (Qfloor_resp_le _ _ Hxy) as Hf.
  pose proof (rne_floor x) as [_ Hx]. pose proof (rne_floor y) as [Hy _].
  destruct (decide (Qfloor x = Qfloor y)) as [Heq|Hne]; [|lia].
  unfold rne. rewrite <- Heq.
  destruct (Qcompare_spec (x - inject_Z (Qfloor x)) (1 # 2)) as [Hx1|Hx1|Hx1];
    destruct (Qcompare_spec (y - inject_Z (Qfloor x)) (1 # 2)) as [Hy1|Hy1|Hy1];
    try (destruct (Z.even (Qfloor x))); try lia; exfalso; lra.
Qed.

Lemma rne_le_int (x : Q) (n : Z) : (x <= inject_Z n)%Q → rne x ≤ n.
Proof.
  intros Hx. pose proof (rne_mono _ _ Hx) as H.
  assert (rne (inject_Z n) = n); [|lia].
  unfold rne. rewrite Qfloor_Z.
  assert (H' : (inject_Z n - inject_Z n ?= 1 # 2)%Q = Lt).
  { apply Qlt_alt. unfold Qminus. rewrite Qplus_opp_r. reflexivity. }
  by rewrite H'.
Qed.

Lemma rne_ge_int (x : Q) (n : Z) : (inject_Z n <= x)%Q → n ≤ rne x.
Proof.
  intros Hx. pose proof (Qfloor_resp_le _ _ Hx) as H. rewrite Qfloor_Z in H.
  pose proof (rne_floor x). lia.
Qed.

Lemma round_pos_mono (p q : Q) :
  (0 < p)%Q → (p <= q)%Q → (round_pos p <= round_pos q)%Q.
Proof.
  intros Hp Hpq.
  assert (Hq : (0 < q)%Q) by (eapply Qlt_le_trans; [exact Hp | done]).
  pose proof (Qlog2_mono p q Hp Hpq) as Hlog.
  destruct (Qlog2_spec p Hp) as [_ Hpu]. destruct (Qlog2_spec q Hq) as [Hql _].
  unfold round_pos.
  set (ep := Z.max (Qlog2 p - 52) (-1074)).
  set (eq := Z.max (Qlog2 q - 52) (-1074)).
  destruct (decide (ep = eq)) as [Heq|Hne].
  - rewrite Heq. apply Qmult_le_compat_r; [|apply Qlt_le_weak, Qpow2_pos].
    rewrite <- Zle_Qle. apply rne_mono.
    apply Qmult_le_compat_r; [done|].
    apply Qlt_le_weak, Qinv_lt_0_compat, Qpow2_pos.
  - assert (Hlt : ep < eq) by lia.
    assert (Heq' : eq = Qlog2 q - 52) by lia.
    (* round_pos p <= 2^(ep+53) <= 2^(eq+52) <= round_pos q *)
    apply Qle_trans with (2 ^ (ep + 53))%Q.
    + rewrite Qpow2_plus, (Qmult_comm (2 ^ ep) (2 ^ 53)).
      apply Qmult_le_compat_r; [|apply Qlt_le_weak, Qpow2_pos].
      rewrite <- (Qpow2_inject 53) by lia. rewrite <- Zle_Qle.
      apply rne_le_int. rewrite Qpow2_inject by lia.
      apply Qle_shift_div_r; [apply Qpow2_pos|].
      rewrite <- Qpow2_plus. apply Qlt_le_weak.
      eapply Qlt_le_trans; [exact Hpu|].
      apply Qpower_le_compat_l; [lia | done].
    + apply Qle_trans with (2 ^ (eq + 52))%Q.
      { apply Qpower_le_compat_l; [lia | done]. }
      rewrite Qpow2_plus, (Qmult_comm (2 ^ eq) (2 ^ 52)).
      apply Qmult_le_compat_r; [|apply Qlt_le_weak, Qpow2_pos].
      rewrite <- (Qpow2_inject 52) by lia. rewrite <- Zle_Qle.
      apply rne_ge_int. rewrite Qpow2_inject by lia.
      apply Qle_shift_div_l; [apply Qpow2_pos|].
      rewrite <- Qpow2_plus. replace (52 + eq) with (Qlog2 q) by lia. done.
Qed.

Lemma round_Q_mono_pos (p q : Q) :
  (0 < p)%Q → (p <= q)%Q → (round_Q p <= round_Q q)%Q.
Proof.
  intros Hp Hpq.
  assert (Hq : (0 < q)%Q) by (eapply Qlt_le_trans; [exact Hp | done]).
  unfold round_Q. rewrite !Qred_correct.
  assert (Hcp : (p ?= 0)%Q = Gt) by (by apply Qgt_alt).
  assert (Hcq : (q ?= 0)%Q = Gt) by (by apply Qgt_alt).
  rewrite Hcp, Hcq. by apply round_pos_mono.
Qed.

Lemma round_Q_comp_pos (p q : Q) :
  (0 < p)%Q → (p == q)%Q → round_Q p = round_Q q.
Proof.
  intros Hp Hpq.
  assert (Hq : (0 < q)%Q) by (by rewrite <- Hpq).
  assert (H : (round_Q p == round_Q q)%Q).
  { apply Qle_antisym; apply round_Q_mono_pos; try done.
    - by rewrite Hpq; apply Qle_refl.
    - by rewrite Hpq; apply Qle_refl. }
  unfold round_Q in *. rewrite !Qred_correct in H. by apply Qred_complete.
Qed.

(** A rational between 0 and [2^53] rounds to a finite double. *)
Lemma round_double_finite (q : Q) :
  (0 <= q)%Q → (q <= inject_Z (2 ^ 53))%Q →
  round_double q = Finite (round_Q q).
Proof.
  intros H0 Hq. unfold round_double.
  assert (Hr : (0 <= round_Q q)%Q ∧ (round_Q q <= inject_Z (2 ^ 53))%Q).
  { destruct (Qle_lt_or_eq _ _ H0) as [Hpos|Hz].
    - split.
      + unfold round_Q. rewrite Qred_correct.
        assert (Hc : (q ?= 0)%Q = Gt) by (by apply Qgt_alt). rewrite Hc.
        by apply round_pos_nonneg.
      + rewrite <- (round_Q_int (2 ^ 53)) by lia.
        by apply round_Q_mono_pos.
    - rewrite (round_Q_zero q) by done. split; [done|].
      change 0%Q with (inject_Z 0). rewrite <- Zle_Qle. lia. }
  destruct Hr as [Hr0 Hr1].
  destruct (Qle_bool (2 ^ 1024) (Qabs (round_Q q))) eqn:Hb; [|done].
  exfalso. apply Qle_bool_iff in Hb. rewrite Qabs_pos in Hb by done.
  assert (H : (2 ^ 1024 <= inject_Z (2 ^ 53))%Q) by (by eapply Qle_trans).
  revert H. rewrite <- (Qpow2_inject 1024) by lia.
  rewrite <- Zle_Qle. lia.
Qed.

Lemma wrap_int64_exact (z : Z) : Z.abs z ≤ 2 ^ 53 → wrap_int64 z = z.
Proof. intros Hz. unfold wrap_int64. rewrite Z.mod_small by lia. lia. Qed.

Lemma in_int64_exact (z : Z) : Z.abs z ≤ 2 ^ 53 → in_int64 z = true.
Proof.
  intros Hz. unfold in_int64. apply andb_true_iff.
  split; [apply Z.leb_le | apply Z.ltb_lt]; lia.
Qed.

Lemma py_sum_abs_nonneg (l : list Z) : 0 ≤ py_sum (Z.abs <$> l).
Proof.
  induction l as [|v l IH]; [done|]. rewrite fmap_cons, py_sum_cons. lia.
Qed.

Lemma py_sum_abs (l : list Z) : Z.abs (py_sum l) ≤ py_sum (Z.abs <$> l).
Proof.
  induction l as [|v l IH]; [done|].
  rewrite fmap_cons, !py_sum_cons. lia.
Qed.

Lemma py_sum_abs_elem (l : list Z) (v : Z) :
  v ∈ l → Z.abs v ≤ py_sum (Z.abs <$> l).
Proof.
  induction l as [|w l IH]; [by intros H%elem_of_nil|].
  rewrite fmap_cons, py_sum_cons. pose proof (py_sum_abs_nonneg l).
  intros [->|Hin]%elem_of_cons; [lia|]. specialize (IH Hin). lia.
Qed.

(** [np.sum] of values that weigh at most [2^53]. *)
Lemma np_sum_exact (l : list Z) :
  py_sum (Z.abs <$> l) ≤ 2 ^ 53 →
  np_sum l = match l with
             | [] => NpFloat64 0
             | _ => NpInt64 (py_sum l)
             end.
Proof.
  intros Hl. destruct l as [|v l]; [done|]. unfold np_sum.
  assert (Hall : forallb in_int64 (v :: l) = true).
  { apply Is_true_true, forallb_True, Forall_forall. intros w Hw.
    apply Is_true_true, in_int64_exact. apply py_sum_abs_elem in Hw. lia. }
  rewrite Hall, wrap_int64_exact; [done|].
  pose proof (py_sum_abs (v :: l)). lia.
Qed.

Lemma py_float_exact (z : Z) : Z.abs z ≤ 2 ^ 53 → py_float z = Ok z.
Proof.
  intros Hz. unfold py_float. rewrite (round_int_exact z Hz).
  assert (H : (2 ^ 1024 <=? Z.abs z) = false) by (apply Z.leb_gt; lia).
  by rewrite H.
Qed.

(** One turn of the loop of [total_units_picked] in that range. *)
Lemma py_add_np_sum (acc : number) (l : list Z) :
  (match acc with NpUInt64 _ => False | _ => True end) →
  Z.abs (number_val acc) + py_sum (Z.abs <$> l) ≤ 2 ^ 53 →
  py_add acc (np_sum l)
  = Ok (exact_number (is_float acc || bool_decide (l = []))
                     (number_val acc + py_sum l)).
Proof.
  intros Hacc Hb.
  pose proof (py_sum_abs_nonneg l) as Hw. pose proof (py_sum_abs l) as Hs.
  rewrite np_sum_exact by lia.
  destruct l as [|v l].
  - change (py_sum []) with 0 in *. rewrite Z.add_0_r.
    destruct acc as [z|z|z|z]; cbn [number_val] in Hb; [| |done|];
      cbn [py_add is_float orb exact_number bool_decide decide_rel].
    + rewrite py_float_exact by lia. cbn [mbind result_bind].
      rewrite Z.add_0_r. by rewrite round_int_exact by lia.
    + rewrite Z.add_0_l, (round_int_exact z) by lia.
      by rewrite round_int_exact by lia.
    + rewrite Z.add_0_r. by rewrite round_int_exact by lia.
  - rewrite bool_decide_eq_false_2 by done. rewrite orb_false_r.
    destruct acc as [z|z|z|z]; cbn [number_val] in Hb |- *; [| |done|];
      cbn [py_add is_float exact_number].
    + rewrite in_int64_exact by lia. by rewrite wrap_int64_exact by lia.
    + by rewrite wrap_int64_exact by lia.
    + rewrite (round_int_exact (py_sum (v :: l))) by lia.
      by rewrite round_int_exact by lia.
Qed.

Lemma between_exact_number (lb ub : Z) (float : bool) (v : Z) :
  Z.abs lb ≤ 2 ^ 53 → Z.abs ub ≤ 2 ^ 53 →
  between lb (exact_number float v) ub = Ok ((lb <=? v) && (v <=? ub)).
Proof.
  intros Hlb Hub. unfold between.
  destruct float; cbn [exact_number int_le_number number_le_int].
  - rewrite (py_float_exact lb) by done. cbn [mbind result_bind].
    destruct (lb <=? v); [|done].
    by rewrite (py_float_exact ub) by done.
  - cbn [mbind result_bind]. by destruct (lb <=? v).
Qed.

Lemma true_divide_exact_number (float : bool) (v n : Z) :
  Z.abs v ≤ 2 ^ 53 → n ≠ 0 →
  true_divide (exact_number float v) n
  = Ok (round_double (inject_Z v / inject_Z n)).
Proof.
  intros Hv Hn. apply Z.eqb_neq in Hn.
  destruct float; cbn [exact_number true_divide]; rewrite Hn; [done|].
  by rewrite round_int_exact.
Qed.

Section ValidatorFacts.
Import Checker.
Variable self : WaveOrderPicking.

(** **** The three loops on index lists that are in range *)

Lemma py_getitem_entry_at (table : list (gmap Z Z)) (i : Z) :
  0 ≤ i < Z.of_nat (length table) →
  py_getitem table i = Ok (entry_at table i).
Proof.
  intros Hi. destruct (py_getitem_in_range table i Hi) as (v & Hv & ->).
  unfold entry_at. by rewrite Hv.
Qed.

Lemma weight_nonneg (d : gmap Z Z) : 0 ≤ weight d.
Proof. apply py_sum_abs_nonneg. Qed.

Lemma units_le_weight (d : gmap Z Z) : Z.abs (units_of d) ≤ weight d.
Proof. apply py_sum_abs. Qed.

Lemma load_nonneg (table : list (gmap Z Z)) (l : list Z) : 0 ≤ load table l.
Proof.
  unfold load. induction l as [|o l IH]; [done|].
  rewrite fmap_cons, py_sum_cons. pose proof (weight_nonneg (entry_at table o)).
  lia.
Qed.

Lemma units_le_load (table : list (gmap Z Z)) (l : list Z) :
  Z.abs (py_sum ((λ o, units_of (entry_at table o)) <$> l)) ≤ load table l.
Proof.
  unfold load. induction l as [|o l IH]; [done|].
  rewrite !fmap_cons, !py_sum_cons.
  pose proof (units_le_weight (entry_at table o)). lia.
Qed.

Lemma dict_values_empty (d : gmap Z Z) : dict_values d = [] ↔ d = ∅.
Proof.
  unfold dict_values. rewrite <- map_to_list_empty_iff.
  split; [apply fmap_nil_inv | by intros ->].
Qed.

Lemma total_units_loop_exact (so : list Z) (acc : number) :
  in_range (orders self) so →
  (match acc with NpUInt64 _ => False | _ => True end) →
  Z.abs (number_val acc) + load (orders self) so ≤ 2 ^ 53 →
  for_each
    (λ total order,
       d ← py_getitem (orders self) order;
       py_add total (np_sum (dict_values d))) acc so
  = Ok match so with
       | [] => acc
       | _ => exact_number
                (is_float acc || existsb (empty_order (orders self)) so)
                (number_val acc
                 + py_sum ((λ o, units_of (entry_at (orders self) o)) <$> so))
       end.
Proof.
  intros Hso. revert acc.
  induction Hso as [|o so Ho Hso IH]; intros acc Hacc Hb; [done|].
  unfold load in Hb. rewrite fmap_cons, py_sum_cons in Hb.
  fold (load (orders self) so) in Hb.
  pose proof (load_nonneg (orders self) so) as Hl.
  pose proof (units_le_weight (entry_at (orders self) o)) as Hu.
  cbn [for_each]. rewrite (py_getitem_entry_at _ _ Ho).
  cbn [mbind result_bind].
  rewrite py_add_np_sum by (done || (fold (weight (entry_at (orders self) o)); lia)).
  cbn [mbind result_bind].
  fold (units_of (entry_at (orders self) o)).
  assert (Hempty : bool_decide (dict_values (entry_at (orders self) o) = [])
                   = empty_order (orders self) o).
  { unfold empty_order. apply bool_decide_ext, dict_values_empty. }
  rewrite Hempty.
  set (acc' := exact_number _ _).
  assert (Hval : number_val acc'
                 = number_val acc + units_of (entry_at (orders self) o)).
  { unfold acc'. by destruct (_ || _). }
  assert (Hfl : is_float acc'
                = is_float acc || empty_order (orders self) o).
  { unfold acc'. by destruct (_ || _). }
  rewrite IH.
  - destruct so as [|o' so'].
    + unfold acc'. cbn [existsb fmap list_fmap]. rewrite orb_false_r.
      change (py_sum [units_of (entry_at (orders self) o)])
        with (units_of (entry_at (orders self) o) + 0).
      by rewrite Z.add_0_r.
    + rewrite Hval, Hfl. cbn [existsb]. rewrite <- orb_assoc.
      rewrite (fmap_cons _ o), py_sum_cons. by rewrite Z.add_assoc.
  - unfold acc'. by destruct (_ || _).
  - rewrite Hval. lia.
Qed.

(** In the exact range the loop of [total_units_picked] ends with the exact
    total, of the kind that the listed orders decide. *)
Lemma total_units_picked_exact (so : list Z) :
  in_range (orders self) so → load (orders self) so ≤ 2 ^ 53 →
  total_units_picked self so = Ok (exact_total (orders self) so).
Proof.
  intros Hso Hl. unfold total_units_picked.
  rewrite (total_units_loop_exact so (PyInt 0) Hso I)
    by (cbn [number_val]; lia).
  unfold exact_total. destruct so; [done|].
  cbn [is_float orb number_val]. by rewrite Z.add_0_l.
Qed.

Lemma exact_total_val (table : list (gmap Z Z)) (l : list Z) :
  number_val (exact_total table l)
  = py_sum ((λ o, units_of (entry_at table o)) <$> l).
Proof. destruct l; [done|]. unfold exact_total. by destruct (existsb _ _). Qed.

Lemma between_exact_total (table : list (gmap Z Z)) (l : list Z) (lb ub : Z) :
  Z.abs lb ≤ 2 ^ 53 → Z.abs ub ≤ 2 ^ 53 →
  between lb (exact_total table l) ub
  = Ok ((lb <=? py_sum ((λ o, units_of (entry_at table o)) <$> l))
        && (py_sum ((λ o, units_of (entry_at table o)) <$> l) <=? ub)).
Proof.
  intros Hlb Hub. destruct l as [|o l].
  - unfold between. cbn [exact_total int_le_number number_le_int mbind
      result_bind fmap list_fmap py_sum foldr].
    by destruct (lb <=? 0).
  - unfold exact_total. by apply between_exact_number.
Qed.

Lemma true_divide_exact_total (table : list (gmap Z Z)) (l : list Z) (n : Z) :
  load table l ≤ 2 ^ 53 → n ≠ 0 →
  true_divide (exact_total table l) n
  = Ok (round_double
          (inject_Z (py_sum ((λ o, units_of (entry_at table o)) <$> l))
           / inject_Z n)).
Proof.
  intros Hl Hn. pose proof (units_le_load table l) as Hu.
  destruct l as [|o l].
  - cbn [exact_total true_divide fmap list_fmap]. change (py_sum []) with 0.
    apply Z.eqb_neq in Hn. rewrite Hn.
    rewrite round_double_zero; [done|]. unfold Qdiv. apply Qmult_0_l.
  - unfold exact_total. apply true_divide_exact_number; [lia | done].
Qed.

Lemma required_items_loop_ok (so : list Z) (acc : gset Z) :
  in_range (orders self) so →
  ∃ r, for_each
         (λ items order,
            d ← py_getitem (orders self) order;
            Ok (items ∪ dict_keys d)) acc so = Ok r
       ∧ ∀ item, item ∈ r ↔
           item ∈ acc ∨ ∃ o, o ∈ so ∧ is_Some (entry_at (orders self) o !! item).
Proof.
  intros Hso. revert acc.
  induction Hso as [|o so Ho _ IH]; intros acc; simpl.
  - exists acc. split; [done|]. intros item. split; [by left|].
    intros [?|(o & Ho & _)]; [done|]. by apply elem_of_nil in Ho.
  - rewrite (py_getitem_entry_at _ _ Ho). simpl.
    destruct (IH (acc ∪ dict_keys (entry_at (orders self) o))) as (r & -> & Hr).
    exists r. split; [done|]. intros item. rewrite Hr.
    unfold dict_keys. rewrite elem_of_union, elem_of_dom. split.
    + intros [[?|?]|(o' & Ho' & ?)]; [by left| |].
      * right. exists o. split; [by left | done].
      * right. exists o'. split; [by right | done].
    + intros [?|(o' & Ho' & ?)]; [by left; left|].
      apply elem_of_cons in Ho' as [->|Ho']; [by left; right|].
      right. by exists o'.
Qed.

Lemma sum_get_ok (table : list (gmap Z Z)) (item : Z) (l : list Z) (acc : Z) :
  in_range table l →
  for_each (λ acc ix, d ← py_getitem table ix; Ok (acc + dict_get d item 0))
           acc l
  = Ok (acc + py_sum ((λ ix, dict_get (entry_at table ix) item 0) <$> l)).
Proof.
  intros Hl. revert acc.
  induction Hl as [|i l Hi _ IH]; intros acc.
  - cbn. f_equal. lia.
  - rewrite fmap_cons, py_sum_cons. cbn [for_each].
    rewrite (py_getitem_entry_at _ _ Hi). cbn [mbind result_bind].
    rewrite IH. f_equal. lia.
Qed.

Lemma check_items_ok (so va items : list Z) :
  in_range (orders self) so → in_range (aisles self) va →
  ∃ b, check_items self so va items = Ok b
       ∧ (b = true ↔
          ∀ item, item ∈ items →
            py_sum ((λ o, dict_get (entry_at (orders self) o) item 0) <$> so)
            ≤ py_sum ((λ a, dict_get (entry_at (aisles self) a) item 0) <$> va)).
Proof.
  intros Hso Hva. induction items as [|item items IH]; simpl.
  - exists true. split; [done|]. split; [|done].
    intros _ item Hin. by apply elem_of_nil in Hin.
  - unfold sum_get. rewrite !sum_get_ok by done. simpl. rewrite !Z.add_0_l.
    destruct (Z.ltb_spec
      (py_sum ((λ a, dict_get (entry_at (aisles self) a) item 0) <$> va))
      (py_sum ((λ o, dict_get (entry_at (orders self) o) item 0) <$> so)))
      as [Hlt|Hle].
    + exists false. split; [done|]. split; [done|].
      intros Hall. specialize (Hall item (list_elem_of_here _ _)). lia.
    + destruct IH as (b & -> & Hb). exists b. split; [done|].
      rewrite Hb. split.
      * intros Hall it Hit. apply elem_of_cons in Hit as [->|Hit]; [done|].
        by apply Hall.
      * intros Hall it Hit. apply Hall. by right.
Qed.

(** **** Index lists that enumerate an index set *)

Lemma enumeration_in_range {A : Type} (table : list A) (S : gset Z) (l : list Z) :
  index_set table S → l ≡ₚ elements S → in_range table l.
Proof.
  intros HS Hl. apply Forall_forall. intros i Hi.
  apply HS. apply elem_of_elements. by rewrite <- Hl.
Qed.

Lemma sum_over_enumeration (S : gset Z) (l : list Z) (f : Z → Z) :
  l ≡ₚ elements S → py_sum (f <$> l) = sum_over S f.
Proof.
  intros Hl. unfold sum_over. apply py_sum_perm. by rewrite Hl.
Qed.

(** **** The function on lists in the exact range *)

Lemma is_solution_feasible_exact (so va : list Z) :
  in_range (orders self) so → in_range (aisles self) va → modest self so →
  ∃ b,
    is_solution_feasible self so va = Ok b
    ∧ (b = true ↔
       (wave_size_lb self
        ≤ py_sum ((λ o, units_of (entry_at (orders self) o)) <$> so)
        ≤ wave_size_ub self)
       ∧ ∀ item,
           (∃ o, o ∈ so ∧ is_Some (entry_at (orders self) o !! item)) →
           py_sum ((λ o, dict_get (entry_at (orders self) o) item 0) <$> so)
           ≤ py_sum ((λ a, dict_get (entry_at (aisles self) a) item 0) <$> va)).
Proof.
  intros Hso Hva (Hload & Hlb & Hub). unfold is_solution_feasible.
  rewrite (total_units_picked_exact so Hso Hload). cbn [mbind result_bind].
  rewrite between_exact_total by done. cbn [mbind result_bind].
  set (total := py_sum _).
  destruct (Z.leb_spec (wave_size_lb self) total) as [Hl|Hl];
    [destruct (Z.leb_spec total (wave_size_ub self)) as [Hu|Hu]|];
    cbn [negb andb].
  2,3: exists false; split; [done|]; split; [done | intros [? _]; lia].
  unfold required_items.
  destruct (required_items_loop_ok so ∅ Hso) as (items & -> & Hitems).
  cbn [mbind result_bind].
  destruct (check_items_ok so va (elements items) Hso Hva) as (b & -> & Hb).
  exists b. split; [done|]. rewrite Hb. split.
  - intros Hall. split; [lia|]. intros item Hin. apply Hall.
    apply elem_of_elements, Hitems. by right.
  - intros [_ Hall] item Hin. apply Hall.
    apply elem_of_elements, Hitems in Hin as [Hin|Hin]; [|done].
    by apply not_elem_of_empty in Hin.
Qed.
End ValidatorFacts.

Section ValidatorTheorems.
Import Checker.

Lemma load_perm (table : list (gmap Z Z)) (l l' : list Z) :
  l ≡ₚ l' → load table l = load table l'.
Proof. intros Hp. unfold load. apply py_sum_perm. by rewrite Hp. Qed.

(** C1, within the range of exact arithmetic.  For an instance and a pair
    of index sets, in whatever order the sets are listed, whose orders
    weigh no more than [2^53] together and whose wave bounds do not exceed
    it, [is_solution_feasible] returns (it does not raise) and it returns
    [True] exactly when the total units of the selected orders lie in
    [[wave_size_lb, wave_size_ub]] and, for every item that appears in a
    selected order, the demand summed over the selected orders is at most
    the supply summed over the visited aisles. *)
Theorem is_solution_feasible_iff (self : WaveOrderPicking)
    (SO VA : gset Z) (so va : list Z) :
  index_set (orders self) SO → index_set (aisles self) VA →
  so ≡ₚ elements SO → va ≡ₚ elements VA →
  modest self (elements SO) →
  (∃ b, is_solution_feasible self so va = Ok b)
  ∧ (is_solution_feasible self so va = Ok true
     ↔ wave_condition self SO ∧ availability_condition self SO VA).
Proof.
  intros HSO HVA Hso Hva Hmod.
  pose proof (enumeration_in_range _ _ _ HSO Hso) as Rso.
  pose proof (enumeration_in_range _ _ _ HVA Hva) as Rva.
  assert (Hmod' : modest self so).
  { destruct Hmod as (Hl & Hb). split; [|done].
    by rewrite (load_perm _ _ _ Hso). }
  destruct (is_solution_feasible_exact self so va Rso Rva Hmod')
    as (b & Hrun & Hb).
  split; [by exists b|]. rewrite Hrun.
  assert (Hiff : b = true
                 ↔ wave_condition self SO ∧ availability_condition self SO VA).
  { rewrite Hb. unfold wave_condition, availability_condition, appears,
      total_picked, demand, supply.
    rewrite (sum_over_enumeration SO so _ Hso).
    split; intros [Hw Hall]; (split; [done|]).
    - intros item (o & Ho & Hkey).
      rewrite <- (sum_over_enumeration SO so _ Hso).
      rewrite <- (sum_over_enumeration VA va _ Hva).
      apply Hall. exists o. split; [|done].
      rewrite Hso. by apply elem_of_elements.
    - intros item (o & Ho & Hkey).
      rewrite (sum_over_enumeration SO so _ Hso).
      rewrite (sum_over_enumeration VA va _ Hva).
      apply Hall. exists o. split; [|done].
      apply elem_of_elements. by rewrite <- Hso. }
  split; [intros [= ->]; by apply Hiff | intros H; f_equal; by apply Hiff].
Qed.

Lemma is_solution_feasible_iff_witness :
  index_set (orders scenario_A) {[0]} ∧ index_set (aisles scenario_A) {[0]}
  ∧ modest scenario_A (elements ({[0]} : gset Z))
  ∧ (is_solution_feasible scenario_A [0] [0] = Ok true
     ↔ wave_condition scenario_A {[0]} ∧ availability_condition scenario_A {[0]} {[0]}).
Proof.
  assert (H : ∀ i : Z, i ∈ ({[0]} : gset Z) → 0 ≤ i < 2).
  { intros i Hi. apply elem_of_singleton in Hi. lia. }
  assert (Hm : modest scenario_A (elements ({[0]} : gset Z))).
  { rewrite elements_singleton. by vm_compute. }
  split; [exact H|]. split; [exact H|]. split; [exact Hm|].
  apply (is_solution_feasible_iff scenario_A {[0]} {[0]} [0] [0]).
  - exact H.
  - exact H.
  - by rewrite elements_singleton.
  - by rewrite elements_singleton.
  - exact Hm.
Defined.

(** C1 does not hold beyond that range.  One order of [2^62] units of each
    of two items, which aisle 0 supplies, and bounds [[1, 2^63]]: the total
    of [2^63] units lies within the bounds and every item is supplied, but
    numpy's 64-bit sum of the order wraps around to [-2^63], and
    [is_solution_feasible] returns [False]. *)
Lemma is_solution_feasible_wraps :
  index_set (orders scenario_wrap) {[0]}
  ∧ index_set (aisles scenario_wrap) {[0]}
  ∧ wave_condition scenario_wrap {[0]}
  ∧ availability_condition scenario_wrap {[0]} {[0]}
  ∧ total_units_picked scenario_wrap [0] = Ok (NpInt64 (- 2 ^ 63))
  ∧ is_solution_feasible scenario_wrap [0] [0] = Ok false.
Proof.
  assert (H : ∀ i : Z, i ∈ ({[0]} : gset Z) → 0 ≤ i < 1).
  { intros i Hi. apply elem_of_singleton in Hi. lia. }
  split; [exact H|]. split; [exact H|]. split; [|split; [|split]].
  - unfold wave_condition, total_picked, sum_over.
    rewrite elements_singleton. by vm_compute.
  - intros item _. unfold demand, supply, sum_over.
    rewrite !elements_singleton. cbn [fmap list_fmap].
    change (entry_at (aisles scenario_wrap) 0)
      with (entry_at (orders scenario_wrap) 0). lia.
  - vm_compute. reflexivity.
  - vm_compute. reflexivity.
Qed.

(** C10.  With no selected order, [is_solution_feasible] returns [True]
    exactly when [wave_size_lb <= 0 <= wave_size_ub], whatever aisles are
    listed (they are not even looked up). *)
Theorem is_solution_feasible_no_orders (self : WaveOrderPicking) (va : list Z) :
  is_solution_feasible self [] va
  = Ok (bool_decide (wave_size_lb self ≤ 0 ≤ wave_size_ub self)).
Proof.
  unfold is_solution_feasible. cbn.
  destruct (Z.leb_spec (wave_size_lb self) 0) as [Hlb|Hlb];
    [destruct (Z.leb_spec 0 (wave_size_ub self)) as [Hub|Hub]|]; cbn.
  - rewrite elements_empty. cbn. by rewrite bool_decide_eq_true_2.
  - rewrite bool_decide_eq_false_2; [done | lia].
  - rewrite bool_decide_eq_false_2; [done | lia].
Qed.

(** C8.  Scenario A: selecting order 0 and aisle 0 is feasible and its
    objective is 3.0. *)
Theorem scenario_A_order0_aisle0 :
  is_solution_feasible scenario_A [0] [0] = Ok true
  ∧ compute_objective_function scenario_A [0] [0] = Ok (Finite 3).
Proof. split; vm_compute; reflexivity. Qed.

(** C5, at the input where the code leaves the claim: one selected order
    and no visited aisle.  The total is a numpy scalar, so the division by
    the zero count returns [inf] instead of raising. *)
Theorem compute_objective_function_no_aisle_returns_inf :
  compute_objective_function scenario_A [0] [] = Ok (Infinite false).
Proof. vm_compute. reflexivity. Qed.
End ValidatorTheorems.

Section ValidatorOrder.
Import Checker.
Variable self : WaveOrderPicking.

(** A loop body that looks an entry up and folds it into the state commutes
    with itself as soon as the folding does: a bad index raises the same
    [IndexError] wherever it stands in the list. *)
Lemma getitem_body_swap {S : Type} (table : list (gmap Z Z))
    (g : S → gmap Z Z → S) :
  (∀ s d1 d2, g (g s d1) d2 = g (g s d2) d1) →
  ∀ (s : S) (a b : Z),
    (s' ← (d ← py_getitem table a; Ok (g s d));
     d ← py_getitem table b; Ok (g s' d))
    = (s' ← (d ← py_getitem table b; Ok (g s d));
       d ← py_getitem table a; Ok (g s' d)).
Proof.
  intros Hg s a b.
  destruct (py_getitem table a) as [da|ea] eqn:Ha;
    destruct (py_getitem table b) as [db|eb] eqn:Hb; cbn.
  - by rewrite Hg.
  - done.
  - done.
  - apply py_getitem_raises in Ha, Hb. by subst.
Qed.

Lemma existsb_perm {A : Type} (f : A → bool) (l l' : list A) :
  l ≡ₚ l' → existsb f l = existsb f l'.
Proof.
  induction 1 as [|x l l' _ IH|x y l|l l' l'' _ IH1 _ IH2]; cbn.
  - done.
  - by rewrite IH.
  - by destruct (f x), (f y).
  - by rewrite IH1.
Qed.

Lemma exact_total_perm (table : list (gmap Z Z)) (l l' : list Z) :
  l ≡ₚ l' → exact_total table l = exact_total table l'.
Proof.
  intros Hp. destruct l as [|o l], l' as [|o' l'].
  - done.
  - by apply Permutation_nil_cons in Hp.
  - symmetry in Hp. by apply Permutation_nil_cons in Hp.
  - unfold exact_total.
    rewrite (existsb_perm _ _ _ Hp). f_equal. apply py_sum_perm.
    by rewrite Hp.
Qed.

(** In the exact range the total does not feel the order of the list. *)
Lemma total_units_picked_perm (so so' : list Z) :
  in_range (orders self) so → load (orders self) so ≤ 2 ^ 53 →
  so ≡ₚ so' → total_units_picked self so = total_units_picked self so'.
Proof.
  intros Hso Hl Hp.
  assert (Hso' : in_range (orders self) so').
  { unfold in_range. by rewrite <- Hp. }
  rewrite (total_units_picked_exact self so Hso Hl).
  rewrite (total_units_picked_exact self so' Hso')
    by (by rewrite <- (load_perm _ _ _ Hp)).
  by rewrite (exact_total_perm _ _ _ Hp).
Qed.

Lemma required_items_perm (so so' : list Z) :
  so ≡ₚ so' → required_items self so = required_items self so'.
Proof.
  intros Hp. unfold required_items. apply for_each_perm; [|done].
  apply (getitem_body_swap (orders self) (λ items d, items ∪ dict_keys d)).
  intros s d1 d2.
  by rewrite <- !(assoc_L (∪)), (comm_L (∪) (dict_keys d1)).
Qed.

Lemma sum_get_perm (table : list (gmap Z Z)) (item : Z) (l l' : list Z) :
  l ≡ₚ l' → sum_get table item l = sum_get table item l'.
Proof.
  intros Hp. unfold sum_get. apply for_each_perm; [|done].
  apply (getitem_body_swap table (λ acc d, acc + dict_get d item 0)).
  intros. lia.
Qed.

Lemma check_items_perm (so so' va va' items : list Z) :
  so ≡ₚ so' → va ≡ₚ va' →
  check_items self so va items = check_items self so' va' items.
Proof.
  intros Hso Hva. induction items as [|item items IH]; [done|].
  cbn [check_items].
  rewrite (sum_get_perm (orders self) item so so' Hso).
  rewrite (sum_get_perm (aisles self) item va va' Hva).
  destruct (sum_get (orders self) item so'); [|done].
  destruct (sum_get (aisles self) item va'); [|done]. cbn.
  by rewrite IH.
Qed.

Lemma is_solution_feasible_perm (so so' va va' : list Z) :
  in_range (orders self) so → load (orders self) so ≤ 2 ^ 53 →
  so ≡ₚ so' → va ≡ₚ va' →
  is_solution_feasible self so va = is_solution_feasible self so' va'.
Proof.
  intros Rso Hl Hso Hva. unfold is_solution_feasible.
  rewrite (total_units_picked_perm so so' Rso Hl Hso).
  destruct (total_units_picked self so') as [total|]; [|done].
  cbn [mbind result_bind].
  destruct (between _ total _) as [within|]; [|done]. cbn [mbind result_bind].
  destruct (negb within); [done|].
  rewrite (required_items_perm so so' Hso).
  destruct (required_items self so'); [|done]. cbn.
  by apply check_items_perm.
Qed.

Lemma compute_objective_function_perm (so so' va va' : list Z) :
  in_range (orders self) so → load (orders self) so ≤ 2 ^ 53 →
  so ≡ₚ so' → va ≡ₚ va' →
  compute_objective_function self so va
  = compute_objective_function self so' va'.
Proof.
  intros Rso Hl Hso Hva. unfold compute_objective_function.
  rewrite (total_units_picked_perm so so' Rso Hl Hso).
  by rewrite (Permutation_length Hva).
Qed.

Lemma list_set_enumerates (parsed l : list Z) :
  NoDup l → (∀ i, i ∈ l ↔ i ∈ parsed) → list_set parsed ≡ₚ l.
Proof.
  intros Hnd Hin. unfold list_set. apply NoDup_Permutation.
  - apply (NoDup_elements (C:=gset Z)).
  - done.
  - intros i. rewrite elem_of_elements, elem_of_list_to_set. by rewrite Hin.
Qed.

(** Dropping repetitions from a list does not add to its load. *)
Lemma load_submseteq (table : list (gmap Z Z)) (l l' : list Z) :
  l ⊆+ l' → load table l ≤ load table l'.
Proof.
  unfold load.
  induction 1 as [|x l l' _ IH|x y l|x l l' _ IH|l l' l'' _ IH1 _ IH2];
    rewrite ?fmap_cons, ?py_sum_cons.
  - done.
  - lia.
  - lia.
  - pose proof (weight_nonneg (entry_at table x)). lia.
  - lia.
Qed.

Lemma load_list_set (table : list (gmap Z Z)) (l : list Z) :
  load table (list_set l) ≤ load table l.
Proof.
  apply load_submseteq, NoDup_submseteq; unfold list_set.
  - apply (NoDup_elements (list_to_set l : gset Z)).
  - intros i. by rewrite elem_of_elements, elem_of_list_to_set.
Qed.

Lemma in_range_list_set {A : Type} (table : list A) (l : list Z) :
  in_range table l → in_range table (list_set l).
Proof.
  unfold in_range. rewrite !Forall_forall. intros Hl i Hi. apply Hl.
  unfold list_set in Hi.
  by rewrite elem_of_elements, elem_of_list_to_set in Hi.
Qed.
End ValidatorOrder.

Section ValidatorSets.
Import Checker.

(** C6, as the code has it.  On index lists that are positions of the
    tables and whose orders weigh no more than [2^53] together, both
    validator functions give the same result for lists that are
    permutations of each other, duplicates included; and what
    [read_output] hands them is deduplicated, so a solution read from lists
    with duplicates is judged like any duplicate-free listing of the same
    index sets. *)
Theorem validator_set_semantics (self : WaveOrderPicking)
    (parsed_orders parsed_aisles permuted_orders permuted_aisles : list Z) :
  in_range (orders self) parsed_orders →
  load (orders self) parsed_orders ≤ 2 ^ 53 →
  parsed_orders ≡ₚ permuted_orders → parsed_aisles ≡ₚ permuted_aisles →
  (is_solution_feasible self parsed_orders parsed_aisles
   = is_solution_feasible self permuted_orders permuted_aisles
   ∧ compute_objective_function self parsed_orders parsed_aisles
     = compute_objective_function self permuted_orders permuted_aisles)
  ∧ ∀ so va : list Z,
      NoDup so → NoDup va →
      (∀ i, i ∈ so ↔ i ∈ parsed_orders) → (∀ i, i ∈ va ↔ i ∈ parsed_aisles) →
      let '(selected_orders, visited_aisles) :=
        read_output permuted_orders permuted_aisles in
      NoDup selected_orders ∧ NoDup visited_aisles
      ∧ is_solution_feasible self selected_orders visited_aisles
        = is_solution_feasible self so va
      ∧ compute_objective_function self selected_orders visited_aisles
        = compute_objective_function self so va.
Proof.
  intros Rpo Hload Hpo Hpa. split.
  - split.
    + by apply is_solution_feasible_perm.
    + by apply compute_objective_function_perm.
  - intros so va Hso Hva Hino Hina. unfold read_output.
    assert (Ho : list_set permuted_orders ≡ₚ so).
    { apply list_set_enumerates; [done|]. intros i. by rewrite Hino, Hpo. }
    assert (Ha : list_set permuted_aisles ≡ₚ va).
    { apply list_set_enumerates; [done|]. intros i. by rewrite Hina, Hpa. }
    assert (Rls : in_range (orders self) (list_set permuted_orders)).
    { apply in_range_list_set. unfold in_range. by rewrite <- Hpo. }
    assert (Lls : load (orders self) (list_set permuted_orders) ≤ 2 ^ 53).
    { pose proof (load_list_set (orders self) permuted_orders).
      rewrite <- (load_perm _ _ _ Hpo) in H. lia. }
    unfold list_set at 1 2.
    split; [apply (NoDup_elements (C:=gset Z))|].
    split; [apply (NoDup_elements (C:=gset Z))|]. split.
    + by apply is_solution_feasible_perm.
    + by apply compute_objective_function_perm.
Qed.

Lemma validator_set_semantics_witness :
  in_range (orders scenario_A) [1] ∧ load (orders scenario_A) [1] ≤ 2 ^ 53
  ∧ [1] ≡ₚ [1] ∧ [1; 0; 1] ≡ₚ [0; 1; 1]
  ∧ (is_solution_feasible scenario_A [1] [1; 0; 1]
     = is_solution_feasible scenario_A [1] [0; 1; 1]
     ∧ is_solution_feasible scenario_A [1] [0; 1; 1] = Ok true)
  ∧ (compute_objective_function scenario_A [1] [1; 0; 1]
     = compute_objective_function scenario_A [1] [0; 1; 1]
     ∧ compute_objective_function scenario_A [1] [0; 1; 1]
       = Ok (Finite (6004799503160661 # 4503599627370496)))
  ∧ (is_solution_feasible scenario_A (read_output [1] [0; 1; 1]).1
                                     (read_output [1] [0; 1; 1]).2
     = is_solution_feasible scenario_A [1] [0; 1]
     ∧ is_solution_feasible scenario_A [1] [0; 1] = Ok true)
  ∧ (compute_objective_function scenario_A (read_output [1] [0; 1; 1]).1
                                           (read_output [1] [0; 1; 1]).2
     = compute_objective_function scenario_A [1] [0; 1]
     ∧ compute_objective_function scenario_A [1] [0; 1] = Ok (Finite 2)).
Proof.
  assert (Hr : in_range (orders scenario_A) [1]).
  { apply Forall_singleton. cbn. lia. }
  assert (Hl : load (orders scenario_A) [1] ≤ 2 ^ 53) by (by vm_compute).
  assert (Hp : [1] ≡ₚ [1]) by reflexivity.
  assert (Hq : [1; 0; 1] ≡ₚ [0; 1; 1]) by apply perm_swap.
  split; [exact Hr|]. split; [exact Hl|].
  split; [exact Hp|]. split; [exact Hq|].
  destruct (validator_set_semantics scenario_A [1] [1; 0; 1]
              [1] [0; 1; 1] Hr Hl Hp Hq) as [[Hf Hv] Hdedup].
  split; [split; [exact Hf | vm_compute; reflexivity]|].
  split; [split; [exact Hv | vm_compute; reflexivity]|].
  specialize (Hdedup [1] [0; 1]).
  destruct (read_output [1] [0; 1; 1]) as [ro ra].
  destruct Hdedup as (_ & _ & Hf' & Hv').
  - apply NoDup_singleton.
  - apply NoDup_cons. split; [|apply NoDup_singleton].
    intros Hin. apply list_elem_of_singleton in Hin. lia.
  - done.
  - intros i. rewrite !elem_of_cons, elem_of_nil. tauto.
  - split; [split; [exact Hf' | vm_compute; reflexivity]|].
    split; [exact Hv' | vm_compute; reflexivity].
Defined.

(** C6 fails for the two functions called directly: listing order 0 twice
    doubles the picked units (6 > 5, infeasible), and listing aisle 0 twice
    halves the objective. *)
Lemma duplicates_are_counted :
  list_set [0; 0] = [0]
  ∧ is_solution_feasible scenario_A [0; 0] [0] = Ok false
  ∧ is_solution_feasible scenario_A [0] [0] = Ok true
  ∧ compute_objective_function scenario_A [0] [0; 0] = Ok (Finite (3 # 2))
  ∧ compute_objective_function scenario_A [0] [0] = Ok (Finite 3).
Proof. repeat split; vm_compute; reflexivity. Qed.

(** Beyond [2^53] units the order of the list is felt as well.  With an
    empty order, one of [2^53 + 1] units and one of a single unit, under
    the upper bound [2^53]: listed as [[0; 1; 2]] the total is a double
    from the start and rounds to [2^53] twice, which the bound admits;
    listed as [[1; 2; 0]] it is the integer [2^53 + 2] before it becomes a
    double, which the bound rejects. *)
Lemma listing_order_is_felt :
  [0; 1; 2] ≡ₚ [1; 2; 0]
  ∧ total_units_picked scenario_round [0; 1; 2] = Ok (NpFloat64 (2 ^ 53))
  ∧ total_units_picked scenario_round [1; 2; 0] = Ok (NpFloat64 (2 ^ 53 + 2))
  ∧ is_solution_feasible scenario_round [0; 1; 2] [0] = Ok true
  ∧ is_solution_feasible scenario_round [1; 2; 0] [0] = Ok false.
Proof.
  split.
  - change [1; 2; 0] with ([1; 2] ++ [0]). apply (Permutation_cons_append [1; 2] 0).
  - repeat split; vm_compute; reflexivity.
Qed.
End ValidatorSets.

(** * Properties of the engine *)

Section IndexFacts.
Import MathSolve.
Variable n_items : Z.

Lemma empty_index_lookup (i : Z) :
  empty_index n_items !! i
  = if decide (0 ≤ i < n_items) then Some [] else None.
Proof.
  unfold empty_index. case_decide as Hi.
  - apply elem_of_list_to_map_1.
    + rewrite <- list_fmap_compose.
      rewrite (list_fmap_ext _ id) by done.
      rewrite list_fmap_id. apply NoDup_seqZ.
    + apply list_elem_of_fmap. exists i. split; [done|].
      apply elem_of_seqZ. lia.
  - apply not_elem_of_list_to_map_1. rewrite <- list_fmap_compose.
    intros Hin. apply list_elem_of_fmap in Hin as (j & Hj & Hin).
    apply elem_of_seqZ in Hin. simpl in Hj. lia.
Qed.

Lemma index_append_present (index : gmap Z (list (nat * Z))) (i : Z)
    (entry : nat * Z) (l : list (nat * Z)) :
  index !! i = Some l →
  index_append index i entry = Ok (<[i := l ++ [entry]]> index).
Proof. intros Hl. unfold index_append. by rewrite Hl. Qed.

(** One order (or aisle) adds its pair to the list of each of its items. *)
Lemma index_append_loop (o : nat) (kvs : list (Z * Z))
    (index : gmap Z (list (nat * Z))) :
  NoDup kvs.*1 →
  (∀ i, i ∈ kvs.*1 → is_Some (index !! i)) →
  ∃ index',
    for_each (λ index' '(i, qty), index_append index' i (o, qty)) index kvs
    = Ok index'
    ∧ ∀ i, index' !! i
           = (λ l, l ++ match (list_to_map kvs : gmap Z Z) !! i with
                        | Some q => [(o, q)]
                        | None => []
                        end) <$> index !! i.
Proof.
  revert index. induction kvs as [|[k q] kvs IH]; intros index Hnd Hpres.
  - exists index. split; [done|]. intros i.
    rewrite list_to_map_nil, lookup_empty.
    destruct (index !! i); cbn; [by rewrite app_nil_r | done].
  - cbn [fmap list_fmap fst] in Hnd. apply NoDup_cons in Hnd as [Hk Hnd].
    destruct (Hpres k) as [l Hl]; [by left|].
    cbn [for_each]. rewrite (index_append_present _ _ _ _ Hl).
    cbn [mbind result_bind].
    destruct (IH (<[k := l ++ [(o, q)]]> index) Hnd) as (index' & -> & Hlk).
    { intros i Hi. rewrite lookup_insert_is_Some'. right.
      apply Hpres. by right. }
    exists index'. split; [done|]. intros i. rewrite Hlk.
    rewrite list_to_map_cons.
    destruct (decide (k = i)) as [<-|Hne].
    + rewrite !lookup_insert_eq, Hl.
      rewrite (not_elem_of_list_to_map_1 kvs k Hk). cbn.
      by rewrite app_nil_r.
    + by rewrite !lookup_insert_ne.
Qed.

Lemma build_index_loop (table : list (gmap Z Z)) (start : nat)
    (index : gmap Z (list (nat * Z))) :
  (∀ d i, d ∈ table → is_Some (d !! i) → is_Some (index !! i)) →
  ∃ index',
    for_each
      (λ index '(o, order),
         for_each (λ index' '(i, qty), index_append index' i (o, qty))
                  index (map_to_list order))
      index (imap (λ j d, ((start + j)%nat, d)) table)
    = Ok index'
    ∧ ∀ i, index' !! i = (λ l, l ++ incidence_from start table i) <$> index !! i.
Proof.
  revert start index.
  induction table as [|d table IH]; intros start index Hpres.
  - exists index. split; [done|]. intros i.
    destruct (index !! i); cbn; [by rewrite app_nil_r | done].
  - rewrite imap_cons. cbn [for_each]. rewrite Nat.add_0_r.
    destruct (index_append_loop start (map_to_list d) index)
      as (index1 & -> & H1).
    { apply NoDup_fst_map_to_list. }
    { intros i Hi. apply list_elem_of_fmap in Hi as ([i' q] & -> & Hi).
      apply elem_of_map_to_list in Hi. apply (Hpres d); [by left | by eexists]. }
    cbn [mbind result_bind].
    rewrite (imap_ext _ (λ j d, ((S start + j)%nat, d))).
    2: { intros j d' _. cbn. f_equal. lia. }
    destruct (IH (S start) index1) as (index' & -> & H').
    { intros d' i Hd' Hi. rewrite H1.
      apply fmap_is_Some. apply (Hpres d'); [by right | done]. }
    exists index'. split; [done|]. intros i. rewrite H', H1.
    rewrite list_to_map_to_list. cbn [incidence_from].
    destruct (index !! i); cbn; [|done].
    destruct (d !! i); cbn; by rewrite <- ?app_assoc, ?app_nil_r.
Qed.

Lemma build_index_ok (table : list (gmap Z Z)) :
  items_in_range n_items table →
  ∃ index,
    build_index n_items table = Ok index
    ∧ ∀ i, index !! i
           = if decide (0 ≤ i < n_items)
             then Some (incidence_from 0 table i) else None.
Proof.
  intros Hwf. unfold build_index.
  destruct (build_index_loop table 0 (empty_index n_items))
    as (index & Hrun & Hlk).
  { intros d i Hd Hi. rewrite empty_index_lookup.
    rewrite decide_True; [done|]. by apply (Hwf d). }
  exists index. split; [exact Hrun|].
  intros i. rewrite Hlk, empty_index_lookup. by case_decide.
Qed.
End IndexFacts.

Section ModelFacts.
Import MathSolve.
Variable orders aisles : list (gmap Z Z).
Variable n_items wave_size_lb wave_size_ub : Z.

(** **** The shape of the model *)

Lemma add_availability_present (ito ita : gmap Z (list (nat * Z)))
    (m : Model) (i : Z) (ios ias : list (nat * Z)) :
  ito !! i = Some ios → ita !! i = Some ias →
  add_availability ito ita m i
  = Ok (match ios with
        | [] => m
        | _ => addConstr (availability_constr i ios ias) m
        end).
Proof.
  intros Ho Ha. unfold add_availability, dict_index. rewrite Ho, Ha.
  by destruct ios.
Qed.

Lemma availability_loop (ito ita : gmap Z (list (nat * Z)))
    (f g : Z → list (nat * Z)) (l : list Z) (m : Model) :
  (∀ i, i ∈ l → ito !! i = Some (f i) ∧ ita !! i = Some (g i)) →
  for_each (add_availability ito ita) m l
  = Ok {| constrs := constrs m
                     ++ ((λ i, availability_constr i (f i) (g i))
                           <$> filter (λ i, f i ≠ []) l);
          objective := objective m;
          model_sense := model_sense m |}.
Proof.
  revert m. induction l as [|i l IH]; intros m Hl.
  - cbn. rewrite app_nil_r. by destruct m.
  - destruct (Hl i) as [Ho Ha]; [by left|].
    cbn [for_each]. rewrite (add_availability_present _ _ _ _ _ _ Ho Ha).
    cbn [mbind result_bind].
    rewrite filter_cons.
    destruct (f i) as [|p ps] eqn:Hf.
    + rewrite decide_False by (intros Hne; by apply Hne). rewrite IH; [done|].
      intros j Hj. apply Hl. by right.
    + rewrite decide_True by done. rewrite IH.
      2: { intros j Hj. apply Hl. by right. }
      cbn. rewrite Hf. by rewrite <- app_assoc.
Qed.

Lemma incidence_from_nonempty (table : list (gmap Z Z)) (start : nat) (i : Z) :
  incidence_from start table i ≠ [] ↔ Exists (λ d, is_Some (d !! i)) table.
Proof.
  revert start. induction table as [|d table IH]; intros start; cbn.
  - split; [done|]. by intros H%Exists_nil.
  - rewrite Exists_cons. destruct (d !! i) as [q|] eqn:Hd.
    + split; [|done]. intros _. left. by eexists.
    + rewrite IH. split; [by right|]. intros [[? [=]]|?]; done.
Qed.

Lemma build_model_ok (k : Z) :
  well_formed orders aisles n_items →
  build_model orders aisles n_items wave_size_lb wave_size_ub k
  = Ok (model_for orders aisles n_items wave_size_lb wave_size_ub k).
Proof.
  intros [Hwo Hwa]. unfold build_model.
  destruct (build_index_ok n_items orders Hwo) as (ito & -> & Hito).
  destruct (build_index_ok n_items aisles Hwa) as (ita & -> & Hita).
  cbn [mbind result_bind].
  rewrite (availability_loop ito ita (incidence_from 0 orders)
             (incidence_from 0 aisles)).
  2: { intros i Hi. apply elem_of_seqZ in Hi.
       rewrite Hito, Hita. rewrite !decide_True by lia. done. }
  cbn [mbind result_bind]. unfold model_for, setObjective, addConstr. cbn.
  do 4 f_equal.
  rewrite (list_filter_iff _ (demanded orders)); [done|].
  intros i. apply incidence_from_nonempty.
Qed.

(** Moving the bound of [AisleLimit] on the retained model gives the model
    that a rebuild for the new budget gives. *)
Lemma setAttr_RHS_model_for (k k' : Z) :
  setAttr_RHS AisleLimit k'
    (model_for orders aisles n_items wave_size_lb wave_size_ub k)
  = model_for orders aisles n_items wave_size_lb wave_size_ub k'.
Proof.
  unfold setAttr_RHS, model_for. cbn. do 3 f_equal.
  rewrite fmap_app. cbn. f_equal.
  rewrite <- list_fmap_compose. by apply list_fmap_ext.
Qed.
End ModelFacts.

Section MeaningFacts.
Import MathSolve.
Variable orders aisles : list (gmap Z Z).
Variable n_items wave_size_lb wave_size_ub : Z.

(** **** Evaluating the expressions under an assignment *)

Lemma eval_cons (a : assignment) (t : Z * var) (e : lin_expr) :
  eval a (t :: e) = t.1 * Z.b2z (a t.2) + eval a e.
Proof. by destruct t. Qed.

Lemma eval_imap {A : Type} (a : assignment) (h : nat → A → Z * var) (l : list A) :
  eval a (imap h l)
  = py_sum (imap (λ j z, (h j z).1 * Z.b2z (a (h j z).2)) l).
Proof.
  revert h. induction l as [|z l IH]; intros h; [done|].
  rewrite !imap_cons, py_sum_cons, eval_cons, (IH (h ∘ S)). done.
Qed.

Lemma eval_incidence (a : assignment) (v : nat → var)
    (table : list (gmap Z Z)) (start : nat) (i : Z) :
  eval a (incidence_expr v (incidence_from start table i))
  = py_sum (imap (λ j d, dict_get d i 0 * Z.b2z (a (v (start + j)%nat))) table).
Proof.
  revert start. induction table as [|d table IH]; intros start; [done|].
  rewrite imap_cons, py_sum_cons, Nat.add_0_r.
  rewrite (imap_ext _ (λ j d, dict_get d i 0 * Z.b2z (a (v (S start + j)%nat)))).
  2: { intros j d' _. cbn. by rewrite Nat.add_succ_r. }
  rewrite <- IH. cbn [incidence_from]. unfold dict_get, incidence_expr.
  destruct (d !! i) as [q|]; [rewrite fmap_cons, eval_cons|]; cbn; lia.
Qed.

Lemma eval_units_expr (a : assignment) :
  eval a (units_expr orders) = stated_units orders a.
Proof.
  unfold units_expr, total_units, stated_units, sum_indexed.
  by rewrite imap_fmap, eval_imap.
Qed.

Lemma eval_aisles_expr (a : assignment) :
  eval a (aisles_expr aisles) = sum_indexed aisles (λ e _, Z.b2z (a (y e))).
Proof.
  unfold aisles_expr, sum_indexed.
  rewrite <- (imap_seq_0 aisles (λ e, (1, y e))), eval_imap.
  f_equal. apply imap_ext. intros j d _. cbn. lia.
Qed.

Lemma satisfies_wave_lb (a : assignment) :
  satisfies a (wave_lb_constr orders wave_size_lb)
  ↔ wave_size_lb ≤ stated_units orders a.
Proof.
  unfold satisfies, wave_lb_constr.
  cbn [c_sense c_lhs c_rhs_terms c_rhs_const].
  rewrite eval_units_expr. change (eval a []) with 0. by rewrite Z.add_0_l.
Qed.

Lemma satisfies_wave_ub (a : assignment) :
  satisfies a (wave_ub_constr orders wave_size_ub)
  ↔ stated_units orders a ≤ wave_size_ub.
Proof.
  unfold satisfies, wave_ub_constr.
  cbn [c_sense c_lhs c_rhs_terms c_rhs_const].
  rewrite eval_units_expr. change (eval a []) with 0. by rewrite Z.add_0_l.
Qed.

Lemma satisfies_availability (a : assignment) (i : Z) :
  satisfies a (availability_constr i (incidence_from 0 orders i)
                                     (incidence_from 0 aisles i))
  ↔ stated_demand orders a i ≤ stated_supply aisles a i.
Proof.
  unfold satisfies. cbn [c_sense availability_constr c_lhs c_rhs_terms c_rhs_const].
  rewrite !eval_incidence, Z.add_0_r. done.
Qed.

Lemma satisfies_aisle_limit (a : assignment) (k : Z) :
  satisfies a (aisle_limit_constr aisles k)
  ↔ sum_indexed aisles (λ e _, Z.b2z (a (y e))) ≤ k.
Proof.
  unfold satisfies, aisle_limit_constr.
  cbn [c_sense c_lhs c_rhs_terms c_rhs_const].
  rewrite eval_aisles_expr. change (eval a []) with 0. by rewrite Z.add_0_l.
Qed.

(** An assignment is feasible for the model of budget [k] exactly when it
    meets the wave bounds, the availability of every demanded item and the
    aisle budget. *)
Lemma feasible_model_for (k : Z) (a : assignment) :
  feasible (model_for orders aisles n_items wave_size_lb wave_size_ub k) a
  ↔ wave_size_lb ≤ stated_units orders a
    ∧ stated_units orders a ≤ wave_size_ub
    ∧ (∀ i, 0 ≤ i < n_items → demanded orders i →
         stated_demand orders a i ≤ stated_supply aisles a i)
    ∧ sum_indexed aisles (λ e _, Z.b2z (a (y e))) ≤ k.
Proof.
  unfold feasible, model_for. cbn [constrs].
  rewrite !Forall_app, !Forall_cons, !Forall_nil, Forall_fmap, Forall_forall.
  rewrite satisfies_wave_lb, satisfies_wave_ub, satisfies_aisle_limit.
  split.
  - intros [(Hlb & Hub & _) [Hav [Hk _]]]. repeat split; [done..| |done].
    intros i Hi Hd. apply satisfies_availability, Hav.
    apply list_elem_of_filter. split; [done|]. apply elem_of_seqZ. lia.
  - intros (Hlb & Hub & Hav & Hk). repeat split; [done..| |done].
    intros i Hi. apply list_elem_of_filter in Hi as [Hd Hi].
    apply elem_of_seqZ in Hi. apply satisfies_availability, Hav; [lia | done].
Qed.
End MeaningFacts.

Section EnumerationFacts.
Import MathSolve.
Variable orders aisles : list (gmap Z Z).
Variable n_items wave_size_lb wave_size_ub : Z.

Local Abbreviation model_for :=
  (model_for orders aisles n_items wave_size_lb wave_size_ub).
Local Abbreviation restrict := (restrict (length orders) (length aisles)).

Lemma satisfiesb_spec (a : assignment) (c : constr) :
  satisfiesb a c = true ↔ satisfies a c.
Proof.
  unfold satisfiesb, satisfies. destruct (c_sense c); apply Z.leb_le.
Qed.

Lemma feasibleb_spec (m : Model) (a : assignment) :
  feasibleb m a = true ↔ feasible m a.
Proof.
  unfold feasibleb, feasible. induction (constrs m) as [|c cs IH]; cbn.
  - split; [by constructor | done].
  - rewrite andb_true_iff, Forall_cons, IH, satisfiesb_spec. done.
Qed.

Lemma bitvectors_complete (l : list bool) : l ∈ bitvectors (length l).
Proof.
  induction l as [|b l IH]; cbn [length bitvectors].
  - by apply list_elem_of_singleton.
  - apply list_elem_of_bind. exists l. split; [|done].
    destruct b; [right; left | left].
Qed.

Lemma candidates_complete (xs ys : list bool) :
  assignment_of xs ys ∈ candidates (length xs) (length ys).
Proof.
  unfold candidates. apply list_elem_of_bind. exists xs.
  split; [|apply bitvectors_complete].
  apply list_elem_of_bind. exists ys. split; [|apply bitvectors_complete].
  by apply list_elem_of_singleton.
Qed.

Lemma restrict_candidate (a : assignment) :
  restrict a ∈ candidates (length orders) (length aisles).
Proof.
  unfold MathSolve.restrict.
  pose proof (candidates_complete ((λ o, a (x o)) <$> seq 0 (length orders))
                ((λ e, a (y e)) <$> seq 0 (length aisles))) as H.
  by rewrite !length_fmap, !length_seq in H.
Qed.

Lemma restrict_x (a : assignment) (o : nat) :
  (o < length orders)%nat → restrict a (x o) = a (x o).
Proof.
  intros Ho. unfold MathSolve.restrict, assignment_of.
  by rewrite list_lookup_fmap, lookup_seq_lt.
Qed.

Lemma restrict_y (a : assignment) (e : nat) :
  (e < length aisles)%nat → restrict a (y e) = a (y e).
Proof.
  intros He. unfold MathSolve.restrict, assignment_of.
  by rewrite list_lookup_fmap, lookup_seq_lt.
Qed.

Lemma sum_indexed_ext {A : Type} (table : list A) (f g : nat → A → Z) :
  (∀ j d, table !! j = Some d → f j d = g j d) →
  sum_indexed table f = sum_indexed table g.
Proof. intros H. unfold sum_indexed. f_equal. by apply imap_ext. Qed.

Lemma stated_units_restrict (a : assignment) :
  stated_units orders (restrict a) = stated_units orders a.
Proof.
  apply sum_indexed_ext. intros o d Ho.
  rewrite restrict_x; [done|]. by apply lookup_lt_Some in Ho.
Qed.

(** The model only looks at the variables of the instance. *)
Lemma feasible_restrict (k : Z) (a : assignment) :
  feasible (model_for k) (restrict a) ↔ feasible (model_for k) a.
Proof.
  rewrite !feasible_model_for, stated_units_restrict.
  assert (Hd : ∀ i, stated_demand orders (restrict a) i = stated_demand orders a i).
  { intros i. apply sum_indexed_ext. intros o d Ho.
    rewrite restrict_x; [done|]. by apply lookup_lt_Some in Ho. }
  assert (Hs : ∀ i, stated_supply aisles (restrict a) i = stated_supply aisles a i).
  { intros i. apply sum_indexed_ext. intros e d He.
    rewrite restrict_y; [done|]. by apply lookup_lt_Some in He. }
  assert (Hy : sum_indexed aisles (λ e _, Z.b2z (restrict a (y e)))
               = sum_indexed aisles (λ e _, Z.b2z (a (y e)))).
  { apply sum_indexed_ext. intros e d He.
    rewrite restrict_y; [done|]. by apply lookup_lt_Some in He. }
  rewrite Hy. by setoid_rewrite Hd; setoid_rewrite Hs.
Qed.

Lemma best_candidate_spec (m : Model) (cands : list assignment) :
  match best_candidate m cands with
  | Some b =>
      feasibleb m b = true
      ∧ ∀ c, c ∈ cands → feasibleb m c = true →
          eval c (objective m) ≤ eval b (objective m)
  | None => ∀ c, c ∈ cands → feasibleb m c = false
  end.
Proof.
  induction cands as [|a cands IH]; cbn [best_candidate foldr].
  - intros c Hc. by apply elem_of_nil in Hc.
  - fold (best_candidate m cands).
    destruct (feasibleb m a) eqn:Ha.
    + destruct (best_candidate m cands) as [b|].
      * destruct IH as [Hb Hmax].
        destruct (Z.leb_spec (eval b (objective m)) (eval a (objective m)))
          as [Hle|Hlt].
        -- split; [done|]. intros c Hc Hfc.
           apply elem_of_cons in Hc as [->|Hc]; [lia|].
           specialize (Hmax c Hc Hfc). lia.
        -- split; [done|]. intros c Hc Hfc.
           apply elem_of_cons in Hc as [->|Hc]; [lia|]. by apply Hmax.
      * split; [done|]. intros c Hc Hfc.
        apply elem_of_cons in Hc as [->|Hc]; [lia|].
        rewrite (IH c Hc) in Hfc. done.
    + destruct (best_candidate m cands) as [b|].
      * destruct IH as [Hb Hmax]. split; [done|]. intros c Hc Hfc.
        apply elem_of_cons in Hc as [->|Hc]; [congruence|]. by apply Hmax.
      * intros c Hc. apply elem_of_cons in Hc as [->|Hc]; [done|]. by apply IH.
Qed.

(** A feasible model has an optimal value: the enumeration finds it. *)
Lemma optimum_exists (k : Z) (a : assignment) :
  feasible (model_for k) a → ∃ v, is_optimum (model_for k) v.
Proof.
  intros Ha.
  pose proof (best_candidate_spec (model_for k)
                (candidates (length orders) (length aisles))) as Hbest.
  destruct (best_candidate _ _) as [b|].
  - destruct Hbest as [Hb Hmax]. exists (eval b (objective (model_for k))).
    split.
    + exists b. split; [by apply feasibleb_spec | done].
    + intros c Hc.
      assert (Heq : eval c (objective (model_for k))
                    = eval (restrict c) (objective (model_for k))).
      { cbn [objective MathSolve.model_for].
        by rewrite !eval_units_expr, stated_units_restrict. }
      rewrite Heq. apply Hmax; [apply restrict_candidate|].
      by apply feasibleb_spec, feasible_restrict.
  - specialize (Hbest (restrict a) (restrict_candidate a)).
    apply feasible_restrict, feasibleb_spec in Ha. congruence.
Qed.
End EnumerationFacts.

Section FormulationTheorems.
Import MathSolve.

(** C2.  For an instance whose items are all among its [n_items] items and
    a budget [k], both scripts hand the solver the same model; its
    constraints are exactly [WaveLB], [WaveUB], one [Availability_i] for
    each item [i] that appears in at least one order (none for the other
    items) and [AisleLimit]; each of them means what the design document
    states for it; and the objective, to be maximised, is
    [Σ total_units(o)·x_o]. *)
Theorem formulation_contents (orders aisles : list (gmap Z Z))
    (n_items wave_size_lb wave_size_ub : Z) (k : nat) :
  well_formed orders aisles n_items →
  ∃ m,
    formulation_pulp orders aisles n_items wave_size_lb wave_size_ub k = Ok m
    ∧ (∃ m1, build_model orders aisles n_items wave_size_lb wave_size_ub 1 = Ok m1
             ∧ formulation_gurobi m1 k = m)
    ∧ c_name <$> constrs m = stated_names orders n_items
    ∧ (∀ a c, c ∈ constrs m →
         satisfies a c
         ↔ stated_constraint orders aisles wave_size_lb wave_size_ub
             (Z.of_nat k) a (c_name c))
    ∧ (∀ a, eval a (objective m) = stated_units orders a)
    ∧ model_sense m = MAXIMIZE.
Proof.
  intros Hwf.
  exists (model_for orders aisles n_items wave_size_lb wave_size_ub (Z.of_nat k)).
  split; [by apply build_model_ok|]. split.
  { exists (model_for orders aisles n_items wave_size_lb wave_size_ub 1).
    split; [by apply build_model_ok|]. apply setAttr_RHS_model_for. }
  split.
  { unfold model_for, stated_names. cbn [constrs].
    rewrite !fmap_app, <- list_fmap_compose. done. }
  split; [|split; [apply eval_units_expr | done]].
  intros a c Hc. unfold model_for in Hc. cbn [constrs] in Hc.
  rewrite !elem_of_app, !elem_of_cons, !elem_of_nil in Hc.
  destruct Hc as [[->|[->|[]]]|[Hc|[->|[]]]].
  - apply satisfies_wave_lb.
  - apply satisfies_wave_ub.
  - apply list_elem_of_fmap in Hc as (i & -> & _).
    apply satisfies_availability.
  - apply satisfies_aisle_limit.
Qed.

(** C4.  Between two budgets [k1 <= k2] only the bound of [AisleLimit]
    differs, every assignment feasible under [k1] is feasible under [k2],
    and when the model of [k1] has an optimal objective value, the model of
    [k2] has one too and it is at least as large. *)
Theorem optimum_monotone_in_budget (orders aisles : list (gmap Z Z))
    (n_items wave_size_lb wave_size_ub : Z) (k1 k2 : nat) :
  well_formed orders aisles n_items → (k1 ≤ k2)%nat →
  ∃ m1 m2,
    formulation_pulp orders aisles n_items wave_size_lb wave_size_ub k1 = Ok m1
    ∧ formulation_pulp orders aisles n_items wave_size_lb wave_size_ub k2 = Ok m2
    ∧ m2 = formulation_gurobi m1 k2
    ∧ (∀ a, feasible m1 a → feasible m2 a)
    ∧ (∀ v1, is_optimum m1 v1 → ∃ v2, is_optimum m2 v2 ∧ v1 ≤ v2)
    ∧ ∀ v1 v2, is_optimum m1 v1 → is_optimum m2 v2 → v1 ≤ v2.
Proof.
  intros Hwf Hk.
  exists (model_for orders aisles n_items wave_size_lb wave_size_ub (Z.of_nat k1)).
  exists (model_for orders aisles n_items wave_size_lb wave_size_ub (Z.of_nat k2)).
  split; [by apply build_model_ok|]. split; [by apply build_model_ok|].
  split; [symmetry; apply setAttr_RHS_model_for|].
  assert (Hincl : ∀ a,
    feasible (model_for orders aisles n_items wave_size_lb wave_size_ub
                (Z.of_nat k1)) a →
    feasible (model_for orders aisles n_items wave_size_lb wave_size_ub
                (Z.of_nat k2)) a).
  { intros a. rewrite !feasible_model_for.
    intros (Hlb & Hub & Hav & Hlim). repeat split; [done..|lia]. }
  assert (Hle : ∀ v1 v2,
    is_optimum (model_for orders aisles n_items wave_size_lb wave_size_ub
                  (Z.of_nat k1)) v1 →
    is_optimum (model_for orders aisles n_items wave_size_lb wave_size_ub
                  (Z.of_nat k2)) v2 → v1 ≤ v2).
  { intros v1 v2 [(a1 & Hf1 & <-) _] [_ Hmax]. by apply Hmax, Hincl. }
  split; [exact Hincl|]. split; [|exact Hle].
  intros v1 Hv1. pose proof Hv1 as [(a1 & Hf1 & _) _].
  destruct (optimum_exists orders aisles n_items wave_size_lb wave_size_ub
              (Z.of_nat k2) a1 (Hincl a1 Hf1)) as [v2 Hv2].
  exists v2. split; [exact Hv2 | by apply Hle].
Qed.
End FormulationTheorems.

Section SweepFacts.
Import MathSolve.
Variable orders aisles : list (gmap Z Z).
Variable optimize : Model → result Solution.
Variable m : Model.

Local Abbreviation sweep := (sweep orders aisles optimize m).
Local Abbreviation optimal_at := (optimal_at optimize m).
Local Abbreviation retained := (retained orders aisles optimize m).

Lemma Qgtb_true (a b : Q) : Qgtb a b = true ↔ (b < a)%Q.
Proof.
  unfold Qgtb. rewrite Qlt_alt. destruct (b ?= a)%Q; split; congruence.
Qed.

Lemma Qgtb_false (a b : Q) : Qgtb a b = false ↔ (a <= b)%Q.
Proof.
  rewrite <- not_true_iff_false, Qgtb_true. split.
  - apply Qnot_lt_le.
  - apply Qle_not_lt.
Qed.

Lemma calls_app (out1 out2 : list event) :
  calls (out1 ++ out2) = calls out1 ++ calls out2.
Proof. apply omap_app. Qed.

(** The state after one more budget, case by case. *)
Lemma sweep_step_raise (k : nat) (st : sweep_state) (e : exn) :
  optimize (formulation_gurobi m k) = Raise e →
  sweep_step orders aisles optimize (formulation_gurobi m k) k st = Raise e.
Proof. intros H. unfold sweep_step. by rewrite H. Qed.

Lemma sweep_step_ok (k : nat) (st : sweep_state) (s : Solution) :
  optimize (formulation_gurobi m k) = Ok s →
  ∃ st',
    sweep_step orders aisles optimize (formulation_gurobi m k) k st = Ok st'
    ∧ (∃ events, output st' = output st ++ Optimize k :: events
                 ∧ calls events = [] ∧ Forall step_event events)
    ∧ ((sol_status s = OPTIMAL ∧ (best_ratio st < ratio_at k s)%Q
        ∧ best_ratio st' = ratio_at k s
        ∧ best_solution st' = Some (selection orders aisles s))
       ∨ (¬ (sol_status s = OPTIMAL ∧ (best_ratio st < ratio_at k s)%Q)
          ∧ best_ratio st' = best_ratio st
          ∧ best_solution st' = best_solution st)).
Proof.
  intros Hrun. unfold sweep_step. rewrite Hrun. cbn [mbind result_bind].
  fold (ratio_at k s).
  destruct (sol_status s) eqn:Hst.
  - destruct (Qgtb (ratio_at k s) (best_ratio st)) eqn:Hgt.
    + eexists. split; [done|]. cbn [output best_ratio best_solution]. split.
      * eexists. rewrite <- !app_assoc. split; [done|].
        split; [done | by repeat constructor].
      * left. apply Qgtb_true in Hgt. done.
    + eexists. split; [done|]. cbn [output best_ratio best_solution]. split.
      * eexists. rewrite <- !app_assoc. split; [done|].
        split; [done | by repeat constructor].
      * right. apply Qgtb_false in Hgt. split; [|done].
        intros [_ Hlt]. by apply Qlt_not_le in Hlt.
  - eexists. split; [done|]. cbn [output best_ratio best_solution]. split.
    + eexists. rewrite <- !app_assoc. split; [done|].
      split; [done | by repeat constructor].
    + right. split; [|done]. intros [[=] _].
  - eexists. split; [done|]. cbn [output best_ratio best_solution]. split.
    + eexists. rewrite <- !app_assoc. split; [done|].
      split; [done | by repeat constructor].
    + right. split; [|done]. intros [[=] _].
Qed.

Lemma sweep_snoc (j : nat) (st0 : sweep_state) :
  sweep (seq 1 (S j)) st0
  = (st ← sweep (seq 1 j) st0;
     sweep_step orders aisles optimize (formulation_gurobi m (S j)) (S j) st).
Proof.
  unfold MathSolve.sweep. rewrite seq_S, for_each_app. cbn [Nat.add].
  destruct (for_each _ st0 (seq 1 j)) as [st|e]; cbn; [|done].
  by destruct (sweep_step _ _ _ _ _ st).
Qed.

Lemma retained_ratio_nonneg (j : nat) (st : sweep_state) :
  retained j st → (0 <= best_ratio st)%Q.
Proof.
  unfold MathSolve.retained. destruct (best_solution st).
  - intros (k1 & s1 & _ & _ & _ & -> & Hpos & _). by apply Qlt_le_weak.
  - intros [-> _]. apply Qle_refl.
Qed.

(** The loop invariant, when no call to the solver fails. *)
Lemma sweep_prefix (j : nat) :
  (∀ k, (1 ≤ k ≤ j)%nat → ∃ s, optimize (formulation_gurobi m k) = Ok s) →
  ∃ st,
    sweep (seq 1 j) (initial_state) = Ok st
    ∧ retained j st
    ∧ calls (output st) = seq 1 j
    ∧ Forall step_event (output st).
Proof.
  induction j as [|j IH]; intros Hok.
  - exists initial_state. split; [done|]. split; [|done].
    split; [done|]. intros k s Hk. lia.
  - destruct IH as (st & Hsw & Hret & Hcalls & Hev).
    { intros k Hk. apply Hok. lia. }
    destruct (Hok (S j)) as [s Hs]; [lia|].
    destruct (sweep_step_ok (S j) st s Hs)
      as (st' & Hstep & (events & Hout & Hcev & Hsev) & Hcase).
    exists st'. rewrite sweep_snoc, Hsw. cbn [mbind result_bind].
    split; [exact Hstep|]. split; [|split].
    + pose proof (retained_ratio_nonneg j st Hret) as Hnn.
      unfold MathSolve.retained in *.
      destruct Hcase as [(Hopt & Hlt & Hr' & Hs')|(Hno & Hr' & Hs')];
        rewrite Hs'.
      * exists (S j), s. split; [lia|]. split; [done|]. split; [done|].
        split; [done|]. split; [by eapply Qle_lt_trans|].
        assert (Hbelow : ∀ k s', (1 ≤ k ≤ j)%nat → optimal_at k s' →
                   (ratio_at k s' < ratio_at (S j) s)%Q).
        { intros k s' Hk Hk'. destruct (best_solution st).
          - destruct Hret as (k1 & s1 & _ & _ & _ & Hbr & _ & Hmax & _).
            eapply Qle_lt_trans; [by apply Hmax|]. by rewrite <- Hbr.
          - destruct Hret as [Hbr Hnone].
            eapply Qle_lt_trans; [|exact Hlt]. rewrite Hbr.
            apply Qnot_lt_le. by apply Hnone. }
        split.
        -- intros k s' Hk Hk'. destruct (decide (k = S j)) as [->|Hne].
           ++ destruct Hk' as [Hk' _]. rewrite Hs in Hk'.
              injection Hk' as <-. apply Qle_refl.
           ++ apply Qlt_le_weak, Hbelow; [lia | done].
        -- intros k s' Hk Hk'. apply Hbelow; [lia | done].
      * destruct (best_solution st).
        -- destruct Hret as (k1 & s1 & Hk1 & Hopt1 & Hsol & Hbr & Hpos & Hmax & Hlow).
           exists k1, s1. split; [lia|]. split; [done|]. split; [done|].
           split; [by rewrite Hr'|]. split; [done|]. split; [|done].
           intros k s' Hk Hk'. destruct (decide (k = S j)) as [->|Hne].
           ++ destruct Hk' as [Hk' Hst']. rewrite Hs in Hk'.
              injection Hk' as <-. rewrite <- Hbr.
              apply Qnot_lt_le. intros Hlt. by apply Hno.
           ++ apply Hmax; [lia | done].
        -- destruct Hret as [Hbr Hnone]. split; [by rewrite Hr'|].
           intros k s' Hk Hk'. destruct (decide (k = S j)) as [->|Hne].
           ++ destruct Hk' as [Hk' Hst']. rewrite Hs in Hk'.
              injection Hk' as <-. intros Hlt. apply Hno.
              split; [done|]. by rewrite Hbr.
           ++ apply Hnone; [lia | done].
    + rewrite Hout, calls_app, Hcalls.
      change (calls (Optimize (S j) :: events)) with (S j :: calls events).
      by rewrite Hcev, seq_S.
    + rewrite Hout. apply Forall_app. split; [done|].
      by apply Forall_cons.
Qed.

Lemma set_rhs_twice (n : cname) (k k' : Z) (c : constr) :
  set_rhs n k' (set_rhs n k c) = set_rhs n k' c.
Proof.
  unfold set_rhs. destruct n; try done.
  destruct (c_name c) eqn:Hc; cbn; by rewrite ?Hc.
Qed.

Lemma setAttr_RHS_twice (n : cname) (k k' : Z) (m0 : Model) :
  setAttr_RHS n k' (setAttr_RHS n k m0) = setAttr_RHS n k' m0.
Proof.
  unfold setAttr_RHS. cbn. f_equal.
  rewrite <- list_fmap_compose. apply list_fmap_ext.
  intros i c _. apply set_rhs_twice.
Qed.

(** Moving the bound on the retained model, whatever bound it had before,
    gives the model of the budget: the Gurobi sweep is [sweep]. *)
Lemma sweep_gurobi_eq (m0 : Model) (ks : list nat) (st : sweep_state) :
  (∀ k, setAttr_RHS AisleLimit k m0 = setAttr_RHS AisleLimit k m) →
  snd <$> sweep_gurobi orders aisles optimize m0 ks st = sweep ks st.
Proof.
  unfold sweep_gurobi, MathSolve.sweep. revert m0 st.
  induction ks as [|k ks IH]; intros m0 st Hm0; [done|].
  cbn [for_each]. rewrite Hm0. fold (formulation_gurobi m k).
  destruct (sweep_step orders aisles optimize (formulation_gurobi m k) k st)
    as [st'|e]; cbn [mbind result_bind]; [|done].
  apply IH. intros k'. apply setAttr_RHS_twice.
Qed.

(** A failing call ends the sweep with its exception. *)
Lemma sweep_cases (j : nat) :
  (∀ k, (1 ≤ k ≤ j)%nat → ∃ s, optimize (formulation_gurobi m k) = Ok s)
  ∨ (∃ e, sweep (seq 1 j) initial_state = Raise e)
    ∧ ∃ k e, (1 ≤ k ≤ j)%nat ∧ optimize (formulation_gurobi m k) = Raise e.
Proof.
  induction j as [|j [IH|[[e IH] (k & e' & Hk & Hke)]]].
  - left. intros k Hk. lia.
  - destruct (optimize (formulation_gurobi m (S j))) as [s|e] eqn:Hs.
    + left. intros k Hk. destruct (decide (k = S j)) as [->|Hne].
      * by exists s.
      * apply IH. lia.
    + right. split; [|exists (S j), e; split; [lia | done]].
      destruct (sweep_prefix j IH) as (st & Hsw & _).
      exists e. rewrite sweep_snoc, Hsw. cbn [mbind result_bind].
      by apply sweep_step_raise.
  - right. split; [|exists k, e'; split; [lia | done]].
    exists e. by rewrite sweep_snoc, IH.
Qed.
End SweepFacts.

Section BuildFacts.
Import MathSolve.
Variable orders aisles : list (gmap Z Z).
Variable n_items wave_size_lb wave_size_ub : Z.

Local Abbreviation build_model :=
  (build_model orders aisles n_items wave_size_lb wave_size_ub).

Lemma availability_loop_keeps (P : constr → Prop)
    (ito ita : gmap Z (list (nat * Z))) (l : list Z) (m m' : Model) :
  (∀ i ios ias, P (availability_constr i ios ias)) →
  for_each (add_availability ito ita) m l = Ok m' →
  Forall P (constrs m) → Forall P (constrs m').
Proof.
  intros HP. revert m. induction l as [|i l IH]; intros m Hrun Hm.
  - by injection Hrun as <-.
  - cbn [for_each] in Hrun.
    destruct (add_availability ito ita m i) as [mi|e] eqn:Hi; [|done].
    cbn [mbind result_bind] in Hrun. apply (IH mi Hrun).
    unfold add_availability, dict_index in Hi.
    destruct (ito !! i) as [[|p ps]|]; cbn in Hi.
    { by injection Hi as <-. }
    2: done.
    destruct (ita !! i) as [ias|]; cbn in Hi; [|done].
    injection Hi as <-. cbn [constrs addConstr].
    apply Forall_app. split; [done|]. apply Forall_singleton, HP.
Qed.

Lemma build_model_inv (k : Z) (m : Model) :
  build_model k = Ok m →
  ∃ cs, Forall (λ c, c_name c ≠ AisleLimit) cs
        ∧ ∀ k', build_model k'
                = Ok {| constrs := cs ++ [aisle_limit_constr aisles k'];
                        objective := units_expr orders;
                        model_sense := MAXIMIZE |}.
Proof.
  unfold MathSolve.build_model.
  destruct (build_index n_items orders) as [ito|]; [|done].
  destruct (build_index n_items aisles) as [ita|]; [|done].
  cbn [mbind result_bind].
  destruct (for_each _ _ (seqZ 0 n_items)) as [m3|] eqn:Hloop; [|done].
  cbn [mbind result_bind]. intros _. exists (constrs m3). split.
  - eapply (availability_loop_keeps (λ c, c_name c ≠ AisleLimit));
      [done | exact Hloop |].
    cbn. by repeat constructor.
  - intros k'. reflexivity.
Qed.

Lemma build_model_objective (k : Z) (m : Model) :
  build_model k = Ok m → objective m = units_expr orders.
Proof.
  intros Hm. destruct (build_model_inv k m Hm) as (cs & _ & Hall).
  rewrite Hall in Hm. by injection Hm as <-.
Qed.

(** The model rebuilt for [k'] is the retained model with the bound of
    [AisleLimit] moved to [k']. *)
Lemma build_model_rhs (k k' : Z) (m : Model) :
  build_model k = Ok m → build_model k' = Ok (setAttr_RHS AisleLimit k' m).
Proof.
  intros Hm. destruct (build_model_inv k m Hm) as (cs & Hcs & Hall).
  rewrite Hall in Hm. injection Hm as <-. rewrite Hall. f_equal.
  unfold setAttr_RHS. cbn. f_equal. rewrite fmap_app. cbn. f_equal.
  rewrite <- (list_fmap_id cs) at 1. apply Forall_fmap_ext_1.
  eapply Forall_impl; [exact Hcs|]. intros c Hc. unfold set_rhs. cbn.
  cbn in Hc. destruct (c_name c); congruence.
Qed.

(** A turn of the PuLP loop that returns is a turn of the Gurobi loop; the
    two are the same when every order stands in the problem. *)
Lemma sweep_step_pulp_returns (optimize : Model → result Solution)
    (m : Model) (k : nat) (st st' : sweep_state) :
  sweep_step_pulp orders aisles optimize m k st = Ok st' →
  sweep_step orders aisles optimize m k st = Ok st'.
Proof.
  unfold sweep_step_pulp, sweep_step, selected_orders_pulp.
  destruct (optimize m) as [s|]; [|done]. cbn [mbind result_bind].
  destruct (sol_status s); [|done..].
  destruct (Qgtb _ _); [|done].
  by destruct (forallb _ _).
Qed.

Lemma sweep_step_pulp_eq (optimize : Model → result Solution)
    (m : Model) (k : nat) (st : sweep_state) :
  forallb (in_problem orders) (seq 0 (length orders)) = true →
  sweep_step_pulp orders aisles optimize m k st
  = sweep_step orders aisles optimize m k st.
Proof.
  intros Hall. unfold sweep_step_pulp, sweep_step, selected_orders_pulp.
  by rewrite Hall.
Qed.

Lemma for_each_returns {A S : Type} (body body' : S → A → result S)
    (l : list A) (s s' : S) :
  (∀ s a s', body s a = Ok s' → body' s a = Ok s') →
  for_each body s l = Ok s' → for_each body' s l = Ok s'.
Proof.
  intros Hbody. revert s. induction l as [|a l IH]; intros s; [done|].
  cbn [for_each]. destruct (body s a) as [s1|] eqn:E; [|done].
  rewrite (Hbody _ _ _ E). cbn [mbind result_bind]. apply IH.
Qed.

Lemma sweep_pulp_returns (optimize : Model → result Solution) (m : Model)
    (ks : list nat) (st st' : sweep_state) :
  build_model 1 = Ok m →
  sweep_pulp orders aisles n_items wave_size_lb wave_size_ub optimize ks st
  = Ok st' →
  sweep orders aisles optimize m ks st = Ok st'.
Proof.
  intros Hm. unfold sweep_pulp, sweep. apply for_each_returns.
  intros s k s'. unfold formulation_pulp.
  rewrite (build_model_rhs 1 (Z.of_nat k) m Hm). cbn [mbind result_bind].
  apply sweep_step_pulp_returns.
Qed.

Lemma sweep_pulp_eq (optimize : Model → result Solution) (m : Model)
    (ks : list nat) (st : sweep_state) :
  forallb (in_problem orders) (seq 0 (length orders)) = true →
  build_model 1 = Ok m →
  sweep_pulp orders aisles n_items wave_size_lb wave_size_ub optimize ks st
  = sweep orders aisles optimize m ks st.
Proof.
  intros Hall Hm. unfold sweep_pulp, sweep. apply for_each_ext.
  intros st' k. unfold formulation_pulp.
  rewrite (build_model_rhs 1 (Z.of_nat k) m Hm). cbn [mbind result_bind].
  by apply sweep_step_pulp_eq.
Qed.

Lemma eval_nonzero (a : assignment) (e : lin_expr) :
  eval a e ≠ 0 → ∃ c v, (c, v) ∈ e ∧ a v = true.
Proof.
  induction e as [|[c v] e IH]; [done|]. rewrite eval_cons. cbn [fst snd].
  destruct (a v) eqn:Hv.
  - intros _. exists c, v. split; [by left | done].
  - cbn [Z.b2z]. intros He. destruct IH as (c' & v' & Hin & Hv'); [lia|].
    exists c', v'. split; [by right | done].
Qed.

Lemma eval_units_nonzero (a : assignment) :
  eval a (units_expr orders) ≠ 0 →
  ∃ o, (o < length orders)%nat ∧ a (x o) = true.
Proof.
  intros He. apply eval_nonzero in He as (c & v & Hin & Hv).
  unfold units_expr in Hin. apply elem_of_lookup_imap in Hin as (o & u & [= _ ->] & Ho).
  exists o. split; [|done]. apply lookup_lt_Some in Ho.
  unfold total_units in Ho. by rewrite length_fmap in Ho.
Qed.
End BuildFacts.

Section SweepTheorems.
Import MathSolve.
Variable orders aisles : list (gmap Z Z).
Variable n_items wave_size_lb wave_size_ub : Z.
Variable optimize : Model → result Solution.

Local Abbreviation solve_instance :=
  (solve_instance orders aisles n_items wave_size_lb wave_size_ub optimize).
Local Abbreviation build_model :=
  (build_model orders aisles n_items wave_size_lb wave_size_ub).
Local Abbreviation optimal_at := (optimal_at optimize).

Lemma solve_instance_unfold (m : Model) (st : sweep_state) :
  build_model 1 = Ok m →
  sweep orders aisles optimize m (seq 1 (k_max aisles)) initial_state = Ok st →
  solve_instance
  = Ok (output st
        ++ match best_solution st with
           | Some (so, sa) => [WriteOutput so sa; PrintDone (best_ratio st)]
           | None => [PrintNoSolution]
           end).
Proof.
  intros Hm Hsw. unfold MathSolve.solve_instance. rewrite Hm.
  cbn [mbind result_bind].
  rewrite <- (sweep_gurobi_eq orders aisles optimize m m) in Hsw by done.
  destruct (sweep_gurobi _ _ _ _ _ _) as [[m' st']|e]; [|done].
  injection Hsw as ->. cbn [mbind result_bind snd].
  by destruct (best_solution st) as [[so sa]|].
Qed.

Lemma solve_instance_raise (m : Model) (e : exn) :
  build_model 1 = Ok m →
  sweep orders aisles optimize m (seq 1 (k_max aisles)) initial_state = Raise e →
  solve_instance = Raise e.
Proof.
  intros Hm Hsw. unfold MathSolve.solve_instance. rewrite Hm.
  cbn [mbind result_bind].
  rewrite <- (sweep_gurobi_eq orders aisles optimize m m) in Hsw by done.
  destruct (sweep_gurobi _ _ _ _ _ _) as [[m' st']|e']; [done|].
  by injection Hsw as ->.
Qed.

Lemma step_event_not_write (out : list event) (so sa : list nat) :
  Forall step_event out → WriteOutput so sa ∉ out.
Proof.
  intros Hall Hin. rewrite Forall_forall in Hall. exact (Hall _ Hin).
Qed.

(** C3.  When no call to the solver fails, the sweep calls it for every
    budget [1 .. k_max] in turn.  If some budget ends optimal with a
    positive ratio, the sweep ends by writing one solution, and nothing
    before that is a write: the solution of an optimal budget [k1] whose
    ratio no optimal budget exceeds and no optimal budget below [k1]
    equals, followed by the report of that ratio.  Whatever solution the
    log holds is of that kind.  Ratios are the doubles that the script
    computes and compares. *)
Theorem sweep_writes_lowest_best_budget (m : Model) :
  build_model 1 = Ok m →
  (∀ k, (1 ≤ k ≤ k_max aisles)%nat →
     ∃ s, optimize (formulation_gurobi m k) = Ok s) →
  ∃ log,
    solve_instance = Ok log
    ∧ calls log = seq 1 (k_max aisles)
    ∧ ((∃ k s, (1 ≤ k ≤ k_max aisles)%nat ∧ optimal_at m k s
               ∧ (0 < ratio_at k s)%Q) →
       ∃ k1 s1 out,
         (1 ≤ k1 ≤ k_max aisles)%nat ∧ optimal_at m k1 s1
         ∧ log = out ++ [WriteOutput (selection orders aisles s1).1
                                     (selection orders aisles s1).2;
                         PrintDone (ratio_at k1 s1)]
         ∧ Forall step_event out
         ∧ (∀ k s, (1 ≤ k ≤ k_max aisles)%nat → optimal_at m k s →
              (ratio_at k s <= ratio_at k1 s1)%Q)
         ∧ (∀ k s, (1 ≤ k < k1)%nat → optimal_at m k s →
              (ratio_at k s < ratio_at k1 s1)%Q))
    ∧ ∀ so sa, WriteOutput so sa ∈ log →
        ∃ k1 s1,
          (1 ≤ k1 ≤ k_max aisles)%nat ∧ optimal_at m k1 s1
          ∧ (so, sa) = selection orders aisles s1
          ∧ (∀ k s, (1 ≤ k ≤ k_max aisles)%nat → optimal_at m k s →
               (ratio_at k s <= ratio_at k1 s1)%Q)
          ∧ (∀ k s, (1 ≤ k ≤ k_max aisles)%nat → optimal_at m k s →
               (ratio_at k s == ratio_at k1 s1)%Q → (k1 ≤ k)%nat).
Proof.
  intros Hm Hok.
  destruct (sweep_prefix orders aisles optimize m (k_max aisles) Hok)
    as (st & Hsw & Hret & Hcalls & Hev).
  rewrite (solve_instance_unfold m st Hm Hsw).
  eexists. split; [done|]. split.
  { rewrite calls_app, Hcalls.
    destruct (best_solution st) as [[so sa]|]; cbn; by rewrite app_nil_r. }
  unfold retained in Hret. split.
  { intros (k & s & Hk & Hks & Hpos).
    destruct (best_solution st) as [[so' sa']|].
    2: { destruct Hret as [_ Hnone]. by destruct (Hnone k s Hk Hks). }
    destruct Hret as (k1 & s1 & Hk1 & Hopt & Hsel & Hbr & _ & Hmax & Hlow).
    exists k1, s1, (output st). split; [lia|]. split; [done|].
    rewrite <- Hsel, Hbr. cbn [fst snd]. done. }
  intros so sa Hin. apply elem_of_app in Hin as [Hin|Hin].
  { by apply step_event_not_write in Hin. }
  destruct (best_solution st) as [[so' sa']|].
  2: { apply list_elem_of_singleton in Hin. done. }
  apply elem_of_cons in Hin as [[= -> ->]|Hin].
  2: { apply list_elem_of_singleton in Hin. done. }
  destruct Hret as (k1 & s1 & Hk1 & Hopt & Hsel & _ & _ & Hmax & Hlow).
  exists k1, s1. split; [lia|]. split; [done|]. split; [by rewrite Hsel|].
  split; [done|].
  intros k s Hk Hks Heq. destruct (decide (k1 ≤ k)%nat) as [|Hlt]; [done|].
  exfalso. assert (Hr : (ratio_at k s < ratio_at k1 s1)%Q).
  { apply Hlow; [lia | done]. }
  rewrite Heq in Hr. by apply Qlt_irrefl in Hr.
Qed.

(** C7.  [solve_instance] ends by reporting that no solution was found,
    having written no output, exactly when every call to the solver
    returned and none returned an optimal result of positive ratio; a
    solver fault instead leaves [solve_instance] by its exception. *)
Theorem no_solution_reported (m : Model) :
  build_model 1 = Ok m →
  ((∃ out, solve_instance = Ok (out ++ [PrintNoSolution])
           ∧ ∀ so sa, WriteOutput so sa ∉ out)
   ↔ ∀ k, (1 ≤ k ≤ k_max aisles)%nat →
       ∃ s, optimize (formulation_gurobi m k) = Ok s
            ∧ ¬ (sol_status s = OPTIMAL ∧ (0 < ratio_at k s)%Q))
  ∧ ∀ k e, (1 ≤ k ≤ k_max aisles)%nat →
      optimize (formulation_gurobi m k) = Raise e →
      ∃ e', solve_instance = Raise e'.
Proof.
  intros Hm.
  assert (Hfault : ∀ k e, (1 ≤ k ≤ k_max aisles)%nat →
            optimize (formulation_gurobi m k) = Raise e →
            ∃ e', solve_instance = Raise e').
  { intros k e Hk Hke.
    destruct (sweep_cases orders aisles optimize m (k_max aisles))
      as [Hok|[[e' He'] _]].
    - destruct (Hok k Hk) as [s Hs]. congruence.
    - exists e'. by apply (solve_instance_raise m). }
  split; [|exact Hfault]. split.
  - intros (out & Hlog & Hnw) k Hk.
    destruct (sweep_cases orders aisles optimize m (k_max aisles))
      as [Hok|[_ (k' & e & Hk' & Hke)]].
    2: { destruct (Hfault k' e Hk' Hke) as [e' He']. congruence. }
    destruct (sweep_prefix orders aisles optimize m (k_max aisles) Hok)
      as (st & Hsw & Hret & _).
    rewrite (solve_instance_unfold m st Hm Hsw) in Hlog.
    injection Hlog as Hlog. unfold retained in Hret.
    destruct (best_solution st) as [[so sa]|].
    { change [WriteOutput so sa; PrintDone (best_ratio st)]
        with ([WriteOutput so sa] ++ [PrintDone (best_ratio st)]) in Hlog.
      rewrite app_assoc in Hlog. by apply app_inj_tail in Hlog as [_ [=]]. }
    destruct Hret as [_ Hnone]. destruct (Hok k Hk) as [s Hs].
    exists s. split; [done|]. intros [Hst Hpos].
    by apply (Hnone k s Hk).
  - intros Hall.
    destruct (sweep_prefix orders aisles optimize m (k_max aisles))
      as (st & Hsw & Hret & _ & Hev).
    { intros k Hk. destruct (Hall k Hk) as (s & Hs & _). by exists s. }
    exists (output st). rewrite (solve_instance_unfold m st Hm Hsw).
    unfold retained in Hret.
    destruct (best_solution st) as [[so sa]|].
    + destruct Hret as (k1 & s1 & Hk1 & [Hr1 Hst1] & _ & _ & Hpos & _).
      destruct (Hall k1 Hk1) as (s & Hs & Hno). rewrite Hr1 in Hs.
      injection Hs as <-. by destruct Hno.
    + split; [done|]. intros so sa. by apply step_event_not_write.
Qed.

(** C9.  After any number of budgets, in the Gurobi script and in the PuLP
    one alike, a retained solution has a positive ratio, comes from a
    budget whose optimal total of units is positive, and selects at least
    one order. *)
Theorem retained_solution_is_positive (m : Model) (j : nat)
    (st : sweep_state) (so sa : list nat) :
  build_model 1 = Ok m →
  solver_sound optimize m →
  (∃ m', sweep_gurobi orders aisles optimize m (seq 1 j) initial_state
         = Ok (m', st))
  ∨ sweep_pulp orders aisles n_items wave_size_lb wave_size_ub optimize
      (seq 1 j) initial_state = Ok st →
  best_solution st = Some (so, sa) →
  (0 < best_ratio st)%Q
  ∧ so ≠ []
  ∧ ∃ k s, (1 ≤ k ≤ j)%nat ∧ optimal_at m k s
           ∧ (so, sa) = selection orders aisles s
           ∧ best_ratio st = ratio_at k s
           ∧ (0 < ObjVal s)%Q.
Proof.
  intros Hm Hsound Hsw Hbest.
  assert (Hsw' : sweep orders aisles optimize m (seq 1 j) initial_state = Ok st).
  { destruct Hsw as [[m' Hsw]|Hsw].
    - rewrite <- (sweep_gurobi_eq orders aisles optimize m m) by done.
      by rewrite Hsw.
    - by apply (sweep_pulp_returns _ _ _ _ _ optimize m _ _ _ Hm). }
  clear Hsw.
  destruct (sweep_cases orders aisles optimize m j) as [Hok|[[e He] _]];
    [|congruence].
  destruct (sweep_prefix orders aisles optimize m j Hok)
    as (st' & Hst' & Hret & _).
  rewrite Hsw' in Hst'. injection Hst' as <-.
  unfold retained in Hret. rewrite Hbest in Hret.
  destruct Hret as (k & s & Hk & Hopt & Hsel & Hbr & Hpos & _).
  assert (Hobj : (0 < ObjVal s)%Q).
  { unfold ratio_at, float_div in Hpos. apply round_Q_pos in Hpos.
    assert (Hkpos : (0 < inject_Z (Z.of_nat k))%Q).
    { unfold Qlt. cbn. lia. }
    assert (Hk0 : ¬ (inject_Z (Z.of_nat k) == 0)%Q).
    { intros H0. rewrite H0 in Hkpos. by apply Qlt_irrefl in Hkpos. }
    rewrite <- (Qmult_div_r (ObjVal s) _ Hk0).
    by apply Qmult_lt_0_compat. }
  split; [by rewrite Hbr|]. split.
  - destruct (Hsound k s Hopt) as (a & HX & Hval).
    rewrite Hval in Hobj. unfold formulation_gurobi, setAttr_RHS in Hobj.
    cbn [objective] in Hobj.
    rewrite (build_model_objective _ _ _ _ _ _ _ Hm) in Hobj.
    destruct (eval_units_nonzero orders a) as (o & Ho & Hao).
    { unfold Qlt in Hobj. cbn in Hobj. lia. }
    injection Hsel as -> _. intros Hnil.
    assert (Hin : o ∈ selected x (length orders) s).
    { unfold selected. apply list_elem_of_filter. split.
      - apply Qgtb_true. rewrite (HX (x o)), Hao. reflexivity.
      - apply elem_of_seq. lia. }
    rewrite Hnil in Hin. by apply elem_of_nil in Hin.
  - exists k, s. split; [lia|]. split; [done|]. split; [by rewrite Hsel|].
    split; [done | exact Hobj].
Qed.
End SweepTheorems.

(** * The engine on scenarios A and D *)

Section Scenarios.
Import MathSolve.

Local Abbreviation A_model :=
  (model_for scenario_A_orders scenario_A_aisles 2 2 5).

Example scenario_A_run_log :
  scenario_A_run
  = Ok [Optimize 1; PrintProgress 1 3 3; PrintNewBest 3 1 1;
        Optimize 2; PrintProgress 2 4 2;
        WriteOutput [0%nat] [0%nat]; PrintDone 3].
Proof. vm_compute. reflexivity. Qed.

Example scenario_D_run_log :
  scenario_D_run
  = Ok [Optimize 1; PrintInfeasible 1; Optimize 2; PrintInfeasible 2;
        PrintNoSolution].
Proof. vm_compute. reflexivity. Qed.

Lemma scenario_A_well_formed :
  well_formed scenario_A_orders scenario_A_aisles 2.
Proof.
  split; intros d i Hd [q Hq];
    repeat (apply elem_of_cons in Hd as [->|Hd]);
    try (by apply elem_of_nil in Hd).
  - apply lookup_singleton_Some in Hq as [<- _]. lia.
  - apply lookup_insert_Some in Hq as [[<- _]|[_ Hq]]; [lia|].
    apply lookup_singleton_Some in Hq as [<- _]. lia.
  - apply lookup_singleton_Some in Hq as [<- _]. lia.
  - apply lookup_singleton_Some in Hq as [<- _]. lia.
Qed.

Lemma scenario_A_build (lb ub k : Z) :
  build_model scenario_A_orders scenario_A_aisles 2 lb ub k
  = Ok (model_for scenario_A_orders scenario_A_aisles 2 lb ub k).
Proof. apply build_model_ok, scenario_A_well_formed. Qed.

Lemma enumerate_optimize_returns (n_orders n_aisles : nat) (m : Model) :
  ∃ s, enumerate_optimize n_orders n_aisles m = Ok s.
Proof.
  unfold enumerate_optimize.
  destruct (best_candidate m (candidates n_orders n_aisles)); by eexists.
Qed.

Lemma enumerate_optimize_sound (n_orders n_aisles : nat) (m : Model) :
  solver_sound (enumerate_optimize n_orders n_aisles) m.
Proof.
  intros k s [Hrun Hst]. unfold enumerate_optimize in Hrun.
  destruct (best_candidate _ _) as [a|]; injection Hrun as <-; [|done].
  exists a. split; [|reflexivity]. intros v. cbn. by destruct (a v).
Qed.

(** Feasibility in scenario A, written out on the four variables. *)
Lemma scenario_A_feasible (k : Z) (a : assignment) :
  feasible (A_model k) a
  ↔ 2 ≤ 3 * Z.b2z (a (x 0)) + 4 * Z.b2z (a (x 1)) ≤ 5
    ∧ 3 * Z.b2z (a (x 0)) + 2 * Z.b2z (a (x 1)) ≤ 5 * Z.b2z (a (y 0))
    ∧ 2 * Z.b2z (a (x 1)) ≤ 2 * Z.b2z (a (y 1))
    ∧ Z.b2z (a (y 0)) + Z.b2z (a (y 1)) ≤ k.
Proof.
  rewrite feasible_model_for.
  assert (Hu : stated_units scenario_A_orders a
               = 3 * Z.b2z (a (x 0)) + 4 * Z.b2z (a (x 1))).
  { change (3 * Z.b2z (a (x 0)) + (4 * Z.b2z (a (x 1)) + 0)
            = 3 * Z.b2z (a (x 0)) + 4 * Z.b2z (a (x 1))). lia. }
  assert (Hd0 : stated_demand scenario_A_orders a 0
                = 3 * Z.b2z (a (x 0)) + 2 * Z.b2z (a (x 1))).
  { change (3 * Z.b2z (a (x 0)) + (2 * Z.b2z (a (x 1)) + 0)
            = 3 * Z.b2z (a (x 0)) + 2 * Z.b2z (a (x 1))). lia. }
  assert (Hd1 : stated_demand scenario_A_orders a 1 = 2 * Z.b2z (a (x 1))).
  { change (0 * Z.b2z (a (x 0)) + (2 * Z.b2z (a (x 1)) + 0)
            = 2 * Z.b2z (a (x 1))). lia. }
  assert (Hs0 : stated_supply scenario_A_aisles a 0 = 5 * Z.b2z (a (y 0))).
  { change (5 * Z.b2z (a (y 0)) + (0 * Z.b2z (a (y 1)) + 0)
            = 5 * Z.b2z (a (y 0))). lia. }
  assert (Hs1 : stated_supply scenario_A_aisles a 1 = 2 * Z.b2z (a (y 1))).
  { change (0 * Z.b2z (a (y 0)) + (2 * Z.b2z (a (y 1)) + 0)
            = 2 * Z.b2z (a (y 1))). lia. }
  assert (Hy : sum_indexed scenario_A_aisles (λ e _, Z.b2z (a (y e)))
               = Z.b2z (a (y 0)) + Z.b2z (a (y 1))).
  { change (Z.b2z (a (y 0)) + (Z.b2z (a (y 1)) + 0)
            = Z.b2z (a (y 0)) + Z.b2z (a (y 1))). lia. }
  rewrite Hu, Hy. split.
  - intros (Hlb & Hub & Hav & Hk).
    assert (H0 : demanded scenario_A_orders 0) by (by vm_compute; left; eexists).
    assert (H1 : demanded scenario_A_orders 1)
      by (by vm_compute; right; left; eexists).
    pose proof (Hav 0 ltac:(lia) H0) as Ha0.
    pose proof (Hav 1 ltac:(lia) H1) as Ha1.
    rewrite Hd0, Hs0 in Ha0. rewrite Hd1, Hs1 in Ha1. lia.
  - intros (Hw & Ha0 & Ha1 & Hk). repeat split; [lia..| |lia].
    intros i Hi _. assert (i = 0 ∨ i = 1) as [->| ->] by lia.
    + by rewrite Hd0, Hs0.
    + by rewrite Hd1, Hs1.
Qed.

Lemma scenario_A_objective (k : Z) (a : assignment) :
  eval a (objective (A_model k))
  = 3 * Z.b2z (a (x 0)) + 4 * Z.b2z (a (x 1)).
Proof.
  change (3 * Z.b2z (a (x 0)) + (4 * Z.b2z (a (x 1)) + 0)
          = 3 * Z.b2z (a (x 0)) + 4 * Z.b2z (a (x 1))). lia.
Qed.

(** One aisle allows 3 units (order 0 from aisle 0), two aisles allow 4
    (order 1 from both). *)
Lemma scenario_A_optima :
  is_optimum (A_model 1) 3 ∧ is_optimum (A_model 2) 4.
Proof.
  split; split.
  - exists (assignment_of [true; false] [true; false]).
    split; [by apply scenario_A_feasible | done].
  - intros a Ha. apply scenario_A_feasible in Ha.
    rewrite scenario_A_objective.
    destruct (a (x 0)), (a (x 1)), (a (y 0)), (a (y 1)); cbn in *; lia.
  - exists (assignment_of [false; true] [true; true]).
    split; [by apply scenario_A_feasible | done].
  - intros a Ha. apply scenario_A_feasible in Ha.
    rewrite scenario_A_objective.
    destruct (a (x 0)), (a (x 1)), (a (y 0)), (a (y 1)); cbn in *; lia.
Qed.
End Scenarios.

Section Witnesses.
Import MathSolve.

Local Abbreviation A_orders := scenario_A_orders.
Local Abbreviation A_aisles := scenario_A_aisles.
Local Abbreviation A_model := (model_for A_orders A_aisles 2 2 5).
Local Abbreviation D_model := (model_for A_orders A_aisles 2 100 200).
Local Abbreviation solver := (enumerate_optimize 2 2).

Lemma formulation_contents_witness :
  well_formed A_orders A_aisles 2
  ∧ ∃ m, formulation_pulp A_orders A_aisles 2 2 5 1 = Ok m
         ∧ c_name <$> constrs m
           = [WaveLB; WaveUB; Availability 0; Availability 1; AisleLimit]
         ∧ ∀ a, eval a (objective m) = stated_units A_orders a.
Proof.
  split; [exact scenario_A_well_formed|].
  destruct (formulation_contents A_orders A_aisles 2 2 5 1
              scenario_A_well_formed)
    as (m & Hm & _ & Hnames & _ & Hobj & _).
  exists m. split; [exact Hm|]. split; [|exact Hobj].
  rewrite Hnames. vm_compute. reflexivity.
Defined.

Lemma optimum_monotone_in_budget_witness :
  well_formed A_orders A_aisles 2 ∧ (1 ≤ 2)%nat
  ∧ is_optimum (A_model 1) 3 ∧ is_optimum (A_model 2) 4 ∧ 3 ≤ 4.
Proof.
  split; [exact scenario_A_well_formed|]. split; [lia|].
  destruct scenario_A_optima as [H1 H2]. split; [exact H1|]. split; [exact H2|].
  destruct (optimum_monotone_in_budget A_orders A_aisles 2 2 5 1 2
              scenario_A_well_formed ltac:(lia))
    as (m1 & m2 & Hm1 & Hm2 & _ & _ & _ & Hle).
  unfold formulation_pulp in Hm1, Hm2.
  rewrite scenario_A_build in Hm1, Hm2.
  injection Hm1 as <-. injection Hm2 as <-.
  exact (Hle 3 4 H1 H2).
Defined.

Lemma sweep_writes_lowest_best_budget_witness :
  build_model A_orders A_aisles 2 2 5 1 = Ok (A_model 1)
  ∧ (∀ k, (1 ≤ k ≤ k_max A_aisles)%nat →
       ∃ s, solver (formulation_gurobi (A_model 1) k) = Ok s)
  ∧ ∃ log,
      solve_instance A_orders A_aisles 2 2 5 solver = Ok log
      ∧ calls log = [1%nat; 2%nat]
      ∧ ((∃ k s, (1 ≤ k ≤ 2)%nat ∧ optimal_at solver (A_model 1) k s
                 ∧ (0 < ratio_at k s)%Q) →
         ∃ k1 s1 out,
           (1 ≤ k1 ≤ 2)%nat ∧ optimal_at solver (A_model 1) k1 s1
           ∧ log = out ++ [WriteOutput (selection A_orders A_aisles s1).1
                                       (selection A_orders A_aisles s1).2;
                           PrintDone (ratio_at k1 s1)]
           ∧ Forall step_event out
           ∧ (∀ k s, (1 ≤ k ≤ 2)%nat → optimal_at solver (A_model 1) k s →
                (ratio_at k s <= ratio_at k1 s1)%Q)
           ∧ (∀ k s, (1 ≤ k < k1)%nat → optimal_at solver (A_model 1) k s →
                (ratio_at k s < ratio_at k1 s1)%Q))
      ∧ ∀ so sa, WriteOutput so sa ∈ log →
          ∃ k1 s1,
            (1 ≤ k1 ≤ 2)%nat ∧ optimal_at solver (A_model 1) k1 s1
            ∧ (so, sa) = selection A_orders A_aisles s1
            ∧ (∀ k s, (1 ≤ k ≤ 2)%nat → optimal_at solver (A_model 1) k s →
                 (ratio_at k s <= ratio_at k1 s1)%Q)
            ∧ (∀ k s, (1 ≤ k ≤ 2)%nat → optimal_at solver (A_model 1) k s →
                 (ratio_at k s == ratio_at k1 s1)%Q → (k1 ≤ k)%nat).
Proof.
  pose proof (scenario_A_build 2 5 1) as Hm.
  assert (Hok : ∀ k, (1 ≤ k ≤ k_max A_aisles)%nat →
            ∃ s, solver (formulation_gurobi (A_model 1) k) = Ok s).
  { intros k _. apply enumerate_optimize_returns. }
  split; [exact Hm|]. split; [exact Hok|].
  exact (sweep_writes_lowest_best_budget A_orders A_aisles 2 2 5 solver
           (A_model 1) Hm Hok).
Defined.

Lemma no_solution_reported_witness :
  build_model A_orders A_aisles 2 100 200 1 = Ok (D_model 1)
  ∧ ∃ out, solve_instance A_orders A_aisles 2 100 200 solver
           = Ok (out ++ [PrintNoSolution])
           ∧ ∀ so sa, WriteOutput so sa ∉ out.
Proof.
  pose proof (scenario_A_build 100 200 1) as Hm.
  split; [exact Hm|].
  destruct (no_solution_reported A_orders A_aisles 2 100 200 solver
              (D_model 1) Hm) as [[_ Hrep] _].
  apply Hrep. intros k Hk.
  assert (k = 1 ∨ k = 2)%nat as [->| ->] by (cbn in Hk; lia).
  - eexists. split; [vm_compute; reflexivity|]. intros [[=] _].
  - eexists. split; [vm_compute; reflexivity|]. intros [[=] _].
Defined.

Lemma retained_solution_is_positive_witness :
  build_model A_orders A_aisles 2 2 5 1 = Ok (A_model 1)
  ∧ solver_sound solver (A_model 1)
  ∧ ∃ m' st,
      sweep_gurobi A_orders A_aisles solver (A_model 1) (seq 1 2) initial_state
      = Ok (m', st)
      ∧ best_solution st = Some ([0%nat], [0%nat])
      ∧ (0 < best_ratio st)%Q
      ∧ [0%nat] ≠ ([] : list nat).
Proof.
  pose proof (scenario_A_build 2 5 1) as Hm.
  pose proof (enumerate_optimize_sound 2 2 (A_model 1)) as Hsound.
  split; [exact Hm|]. split; [exact Hsound|].
  destruct (sweep_gurobi A_orders A_aisles solver (A_model 1) (seq 1 2)
              initial_state) as [[m' st]|e] eqn:Hsw; [|by vm_compute in Hsw].
  assert (Hbest : best_solution st = Some ([0%nat], [0%nat])).
  { assert (Hb : (λ r, best_solution r.2)
                   <$> sweep_gurobi A_orders A_aisles solver (A_model 1)
                         (seq 1 2) initial_state
                 = Ok (Some ([0%nat], [0%nat])))
      by (vm_compute; reflexivity).
    rewrite Hsw in Hb. by injection Hb. }
  exists m', st. split; [reflexivity|]. split; [exact Hbest|].
  destruct (retained_solution_is_positive A_orders A_aisles 2 2 5 solver
              (A_model 1) 2 st [0%nat] [0%nat] Hm Hsound
              (or_introl (ex_intro _ m' Hsw)) Hbest)
    as (Hpos & Hne & _).
  split; [exact Hpos | exact Hne].
Defined.
End Witnesses.

(** * Properties of the file layer *)

Section FileFacts.
Import Files.

Lemma collect_ext {A B : Type} (f g : A → outcome B) (l : list A) :
  (∀ j, j ∈ l → f j = g j) → collect f l = collect g l.
Proof.
  induction l as [|j l IH]; intros Hfg; [done|]. cbn [collect].
  rewrite (Hfg j) by (by left). rewrite IH; [done|].
  intros j' Hj'. apply Hfg. by right.
Qed.

Lemma collect_fmap {A B C : Type} (f : B → outcome C) (g : A → B) (l : list A) :
  collect f (g <$> l) = collect (f ∘ g) l.
Proof.
  induction l as [|j l IH]; [done|]. rewrite fmap_cons. cbn [collect].
  by rewrite IH.
Qed.

Lemma collect_app {A B : Type} (f : A → outcome B) (l1 l2 : list A) :
  collect f (l1 ++ l2)
  = (bs1 ← collect f l1; bs2 ← collect f l2; Returns (bs1 ++ bs2)).
Proof.
  induction l1 as [|j l1 IH]; cbn [collect app].
  - by destruct (collect f l2).
  - destruct (f j) as [b|e]; cbn [mbind outcome_bind]; [|done].
    rewrite IH. destruct (collect f l1) as [bs1|e]; cbn [mbind outcome_bind]; [|done].
    by destruct (collect f l2).
Qed.

(** Reading [n] positions that hold the members of [l], one after the
    other from position [off] on, gives [l]. *)
Lemma collect_positions {B : Type} (f : nat → outcome B) (l : list B) (off : nat) :
  (∀ i b, l !! i = Some b → f (off + i)%nat = Returns b) →
  collect f (seq off (length l)) = Returns l.
Proof.
  revert off. induction l as [|b l IH]; intros off Hf; [done|].
  cbn [length seq collect].
  rewrite <- (Nat.add_0_r off) at 1. rewrite (Hf 0%nat b) by done.
  cbn [mbind outcome_bind]. rewrite IH; [done|].
  intros i b' Hi. rewrite <- (Hf (S i) b') by done. f_equal. lia.
Qed.

Lemma collect_seqZ {B : Type} (f : Z → outcome B) (l : list B) (start : Z) :
  (∀ i b, l !! i = Some b → f (start + Z.of_nat i) = Returns b) →
  collect f (seqZ start (Z.of_nat (length l))) = Returns l.
Proof.
  intros Hf. unfold seqZ. rewrite Nat2Z.id, collect_fmap.
  apply (collect_positions _ l 0). intros i b Hi. cbn.
  rewrite <- (Hf i b Hi). f_equal. lia.
Qed.

Lemma py_getitem_lookup {A : Type} (l : list A) (i : nat) (v : A) :
  l !! i = Some v → py_getitem l (Z.of_nat i) = Ok v.
Proof.
  intros Hv. pose proof (lookup_lt_Some _ _ _ Hv) as Hi.
  destruct (py_getitem_in_range l (Z.of_nat i)) as (v' & Hv' & ->); [lia|].
  rewrite Nat2Z.id in Hv'. congruence.
Qed.

Lemma int_line_lookup (lines : list line) (i : nat) (z : Z) :
  lines !! i = Some [Num z] → int_line lines (Z.of_nat i) = Returns z.
Proof.
  intros Hl. unfold int_line.
  by rewrite (py_getitem_lookup (A:=line) lines i [Num z] Hl).
Qed.

Lemma write_output_lookup (so sa : list Z) :
  write_output so sa !! 0%nat = Some [Num (Z.of_nat (length so))]
  ∧ (∀ i o, so !! i = Some o → write_output so sa !! (S i) = Some [Num o])
  ∧ write_output so sa !! (S (length so)) = Some [Num (Z.of_nat (length sa))]
  ∧ (∀ i a, sa !! i = Some a →
       write_output so sa !! (S (S (length so + i))) = Some [Num a]).
Proof.
  assert (Hshape : write_output so sa
                   = [Num (Z.of_nat (length so))]
                     :: (((λ o, [Num o]) <$> so)
                         ++ [Num (Z.of_nat (length sa))]
                            :: ((λ a, [Num a]) <$> sa))) by done.
  rewrite Hshape. split; [done|].
  assert (HS : ∀ (x : line) l i, (x :: l) !! S i = l !! i) by done.
  split; [|split].
  - intros i o Hi. rewrite HS. rewrite lookup_app_l.
    + by rewrite list_lookup_fmap, Hi.
    + rewrite length_fmap. by apply lookup_lt_Some in Hi.
  - rewrite HS.
    rewrite lookup_app_r by (by rewrite length_fmap).
    by rewrite length_fmap, Nat.sub_diag.
  - intros i a Hi. rewrite HS.
    rewrite lookup_app_r by (rewrite length_fmap; lia).
    rewrite length_fmap.
    replace (S (length so + i) - length so)%nat with (S i) by lia.
    rewrite HS. by rewrite list_lookup_fmap, Hi.
Qed.

Lemma read_output_of_written (so sa : list Z) :
  read_output (write_output so sa) = Returns (Checker.read_output so sa).
Proof.
  destruct (write_output_lookup so sa) as (H0 & Hso & Hn & Hsa).
  unfold read_output.
  pose proof (int_line_lookup _ 0%nat _ H0) as E0.
  change (Z.of_nat 0) with 0 in E0.
  rewrite E0. cbn [mbind outcome_bind].
  rewrite (collect_seqZ _ so 0).
  2: { intros i o Hi. rewrite <- (int_line_lookup _ (S i) o (Hso i o Hi)).
       f_equal. lia. }
  cbn [mbind outcome_bind].
  replace (Z.of_nat (length so) + 1) with (Z.of_nat (S (length so))) by lia.
  rewrite (int_line_lookup _ _ _ Hn). cbn [mbind outcome_bind].
  rewrite (collect_seqZ _ sa 0); [done|].
  intros i a Hi.
  rewrite <- (int_line_lookup _ (S (S (length so + i))) a (Hsa i a Hi)).
  f_equal. lia.
Qed.

(** X1.  Reading back what [write_output] wrote never fails and gives the
    two index lists that were written, deduplicated: the same members, each
    once. *)
Theorem read_output_write_output (so sa : list Z) :
  ∃ ro ra,
    read_output (write_output so sa) = Returns (ro, ra)
    ∧ NoDup ro ∧ NoDup ra
    ∧ (∀ i, i ∈ ro ↔ i ∈ so) ∧ (∀ i, i ∈ ra ↔ i ∈ sa).
Proof.
  exists (Checker.list_set so), (Checker.list_set sa).
  split; [apply read_output_of_written|]. unfold Checker.list_set.
  split; [apply (NoDup_elements (C:=gset Z))|].
  split; [apply (NoDup_elements (C:=gset Z))|].
  split; intros i; by rewrite elem_of_elements, elem_of_list_to_set.
Qed.
End FileFacts.

Section ParserFacts.
Import Files.

Lemma collect_shift {B : Type} (f : Z → outcome B) (c a n : Z) :
  collect (λ j, f (j + c)) (seqZ a n) = collect f (seqZ (a + c) n).
Proof.
  rewrite (Z.add_comm a c), <- fmap_add_seqZ, collect_fmap.
  apply collect_ext. intros j _. cbn. f_equal. lia.
Qed.

(** X2.  The validator and the solver scripts read an instance file alike:
    on every file [read_instance] and [read_input] raise the same exception
    or return the same orders, aisles and bounds. *)
Theorem read_instance_read_input (lines : list line) :
  to_checker <$> read_instance lines = read_input lines.
Proof.
  unfold read_instance, read_input.
  destruct (lift (py_getitem lines 0)) as [first_line|e]; [|done].
  cbn [mbind outcome_bind].
  destruct (int_at first_line 0) as [o|e]; [|done]. cbn [mbind outcome_bind].
  destruct (int_at first_line 1) as [i|e]; [|done]. cbn [mbind outcome_bind].
  destruct (int_at first_line 2) as [a|e]; [|done]. cbn [mbind outcome_bind].
  rewrite (collect_shift (λ i, l ← lift (py_getitem lines i); read_map l) 1 0 o).
  rewrite (collect_ext
             (λ j, aisle_line ← lift (py_getitem lines (j + o + 1));
                   read_map aisle_line)
             (λ j, (λ i, l ← lift (py_getitem lines i); read_map l)
                     (j + (o + 1)))).
  2: { intros j _. cbn. by rewrite Z.add_assoc. }
  rewrite (collect_shift (λ i, l ← lift (py_getitem lines i); read_map l)
             (o + 1) 0 a).
  rewrite !Z.add_0_l.
  destruct (collect _ (seqZ 1 o)) as [os|e]; [|done]. cbn [mbind outcome_bind].
  destruct (collect _ (seqZ (o + 1) a)) as [als|e]; [|done].
  cbn [mbind outcome_bind].
  destruct (lift (py_getitem lines (o + a + 1))) as [bounds|e]; [|done].
  cbn [mbind outcome_bind].
  destruct (int_at bounds 0) as [lb|e]; [|done]. cbn [mbind outcome_bind].
  by destruct (int_at bounds 1) as [ub|e].
Qed.
End ParserFacts.

Section MapLineFacts.
Import Files.

Lemma pair_tokens_lookup (pairs : list (Z * Z)) (extra : line) (k : nat) (i q : Z) :
  pairs !! k = Some (i, q) →
  (pair_tokens pairs ++ extra) !! (2 * k)%nat = Some (Num i)
  ∧ (pair_tokens pairs ++ extra) !! (2 * k + 1)%nat = Some (Num q).
Proof.
  revert k. induction pairs as [|[i' q'] pairs IH]; intros k Hk; [done|].
  destruct k as [|k].
  - injection Hk as -> ->. done.
  - cbn in Hk. destruct (IH k Hk) as [H1 H2].
    replace (2 * S k)%nat with (S (S (2 * k))) by lia.
    replace (S (S (2 * k)) + 1)%nat with (S (S (2 * k + 1))) by lia.
    done.
Qed.

Lemma pair_tokens_length (pairs : list (Z * Z)) :
  length (pair_tokens pairs) = (2 * length pairs)%nat.
Proof.
  induction pairs as [|[i q] pairs IH]; [done|].
  change (pair_tokens ((i, q) :: pairs))
    with (Num i :: Num q :: pair_tokens pairs).
  cbn [length]. rewrite IH. lia.
Qed.

Lemma int_at_lookup (tokens : line) (i : nat) (z : Z) :
  tokens !! i = Some (Num z) → int_at tokens (Z.of_nat i) = Returns z.
Proof.
  intros Ht. unfold int_at.
  by rewrite (py_getitem_lookup (A:=token) tokens i (Num z) Ht).
Qed.

Lemma int_at_beyond (tokens : line) (i : Z) :
  Z.of_nat (length tokens) ≤ i → int_at tokens i = Raises (Builtin IndexError).
Proof.
  intros Hi. unfold int_at, py_getitem.
  destruct (Z.ltb_spec i 0) as [?|_]; [lia|].
  destruct (Z.ltb_spec i (Z.of_nat (length tokens))) as [?|_]; [lia|].
  by rewrite andb_false_r.
Qed.

Lemma insert_pairs_dict (pairs : list (Z * Z)) :
  foldl (λ m p, <[p.1 := p.2]> m) (∅ : gmap Z Z) pairs = dict_of_pairs pairs.
Proof.
  unfold dict_of_pairs.
  induction pairs as [|p pairs IH] using rev_ind; [done|].
  rewrite foldl_app, reverse_snoc, IH. by destruct p.
Qed.

(** The comprehension over the pair positions [s, s + n). *)
Lemma dict_comprehension_pairs (d : Z) (pairs : list (Z * Z)) (extra : line)
    (n s : nat) (acc : gmap Z Z) :
  (s + n ≤ length pairs)%nat →
  dict_comprehension (Num d :: pair_tokens pairs ++ extra)
    (Z.of_nat <$> seq s n) acc
  = Returns (foldl (λ m p, <[p.1 := p.2]> m) acc (take n (drop s pairs))).
Proof.
  revert s acc. induction n as [|n IH]; intros s acc Hs; [done|].
  cbn [seq fmap list_fmap dict_comprehension].
  destruct (pairs !! s) as [[i q]|] eqn:Hp.
  2: { apply lookup_ge_None in Hp. lia. }
  destruct (pair_tokens_lookup pairs extra s i q Hp) as [Hi Hq].
  replace (2 * Z.of_nat s + 1) with (Z.of_nat (S (2 * s))) by lia.
  replace (2 * Z.of_nat s + 2) with (Z.of_nat (S (2 * s + 1))) by lia.
  rewrite (int_at_lookup _ (S (2 * s)) i) by done.
  rewrite (int_at_lookup _ (S (2 * s + 1)) q) by done.
  cbn [mbind outcome_bind]. rewrite IH by lia.
  by rewrite (drop_S _ _ _ Hp).
Qed.

Lemma seqZ_of_nat (n : nat) : seqZ 0 (Z.of_nat n) = Z.of_nat <$> seq 0 n.
Proof.
  unfold seqZ. rewrite Nat2Z.id. apply list_fmap_ext. intros i j _. lia.
Qed.

(** X3.  A line whose count [d] does not exceed the pairs that follow it is
    read as the dict of its first [d] pairs, the later of two pairs with the
    same item winning; tokens after them are ignored, and a count of zero or
    less gives the empty dict. *)
Theorem read_map_pairs (d : Z) (pairs : list (Z * Z)) (extra : line) :
  d ≤ Z.of_nat (length pairs) →
  read_map (Num d :: pair_tokens pairs ++ extra)
  = Returns (dict_of_pairs (take (Z.to_nat d) pairs)).
Proof.
  intros Hd. unfold read_map.
  change (int_at (Num d :: pair_tokens pairs ++ extra) 0) with (Returns d).
  cbn [mbind outcome_bind].
  destruct (Z.le_gt_cases d 0) as [Hneg|Hpos].
  - rewrite seqZ_nil by done. replace (Z.to_nat d) with 0%nat by lia. done.
  - rewrite <- (Z2Nat.id d) at 2 by lia. rewrite seqZ_of_nat.
    rewrite (dict_comprehension_pairs d pairs extra (Z.to_nat d) 0) by lia.
    by rewrite drop_0, insert_pairs_dict.
Qed.

Lemma read_map_pairs_witness :
  2 ≤ Z.of_nat (length [(7, 1); (7, 5); (3, 4)])
  ∧ read_map (Num 2 :: pair_tokens [(7, 1); (7, 5); (3, 4)] ++ [Word])
    = Returns {[ 7 := 5 ]}.
Proof.
  assert (H : 2 ≤ Z.of_nat (length [(7, 1); (7, 5); (3, 4)])) by (cbn; lia).
  split; [exact H|].
  rewrite (read_map_pairs 2 [(7, 1); (7, 5); (3, 4)] [Word] H).
  vm_compute. reflexivity.
Defined.

(** X4.  A line that announces more pairs than it holds raises
    [IndexError]. *)
Theorem read_map_short_line (d : Z) (pairs : list (Z * Z)) :
  Z.of_nat (length pairs) < d →
  read_map (Num d :: pair_tokens pairs) = Raises (Builtin IndexError).
Proof.
  intros Hd. unfold read_map.
  change (int_at (Num d :: pair_tokens pairs) 0) with (Returns d).
  cbn [mbind outcome_bind].
  set (n := length pairs).
  assert (∃ rest, seqZ 0 d = (Z.of_nat <$> seq 0 n) ++ Z.of_nat n :: rest)
    as [rest ->].
  { exists (seqZ (Z.succ (Z.of_nat n)) (Z.pred (d - Z.of_nat n))).
    transitivity (seqZ 0 (Z.of_nat n + (d - Z.of_nat n))); [f_equal; lia|].
    rewrite seqZ_app by lia. rewrite seqZ_of_nat. f_equal.
    rewrite Z.add_0_l. apply seqZ_cons. lia. }
  assert (Hsplit : ∀ tokens ks1 ks2 acc,
    dict_comprehension tokens (ks1 ++ ks2) acc
    = (m ← dict_comprehension tokens ks1 acc; dict_comprehension tokens ks2 m)).
  { intros tokens ks1. induction ks1 as [|k ks1 IH]; intros ks2 acc; [done|].
    cbn [app dict_comprehension].
    destruct (int_at tokens (2 * k + 1)); cbn [mbind outcome_bind]; [|done].
    destruct (int_at tokens (2 * k + 2)); cbn [mbind outcome_bind]; [|done].
    apply IH. }
  rewrite Hsplit.
  pose proof (dict_comprehension_pairs d pairs [] n 0 ∅ ltac:(unfold n; lia))
    as Hc.
  rewrite app_nil_r in Hc. rewrite Hc.
  cbn [mbind outcome_bind dict_comprehension].
  rewrite (int_at_beyond _ (2 * Z.of_nat n + 1)); [reflexivity|].
  cbn [length]. rewrite pair_tokens_length. fold n. lia.
Qed.

Lemma read_map_short_line_witness :
  Z.of_nat (length [(7, 1)]) < 2
  ∧ read_map (Num 2 :: pair_tokens [(7, 1)]) = Raises (Builtin IndexError).
Proof.
  assert (H : Z.of_nat (length [(7, 1)]) < 2) by (cbn; lia).
  split; [exact H|]. exact (read_map_short_line 2 [(7, 1)] H).
Defined.
End MapLineFacts.

Section InstanceFileFacts.
Import Files.

Lemma read_map_map_line (pairs : list (Z * Z)) :
  read_map (map_line pairs) = Returns (dict_of_pairs pairs).
Proof.
  unfold read_map, map_line.
  change (int_at (Num (Z.of_nat (length pairs)) :: pair_tokens pairs) 0)
    with (Returns (Z.of_nat (length pairs))).
  cbn [mbind outcome_bind]. rewrite seqZ_of_nat.
  pose proof (dict_comprehension_pairs (Z.of_nat (length pairs)) pairs []
                (length pairs) 0 ∅ ltac:(lia)) as Hc.
  rewrite app_nil_r in Hc. rewrite Hc.
  by rewrite drop_0, firstn_all, insert_pairs_dict.
Qed.

Lemma read_map_at (lines : list line) (i : nat) (pairs : list (Z * Z)) :
  lines !! i = Some (map_line pairs) →
  (l ← lift (py_getitem lines (Z.of_nat i)); read_map l)
  = Returns (dict_of_pairs pairs).
Proof.
  intros Hl. rewrite (py_getitem_lookup (A:=line) lines i _ Hl).
  cbn [lift mbind outcome_bind]. apply read_map_map_line.
Qed.

(** X5.  A file laid out as header, one line per order, one line per
    aisle and the bounds is read by [read_input] as exactly these orders,
    aisles and bounds; the item count of the header is not used and lines
    after the bounds are ignored. *)
Theorem read_input_instance_lines (n_items : Z)
    (order_pairs aisle_pairs : list (list (Z * Z))) (lb ub : Z)
    (rest : list line) :
  read_input (instance_lines n_items order_pairs aisle_pairs lb ub ++ rest)
  = Returns {| Checker.orders := dict_of_pairs <$> order_pairs;
               Checker.aisles := dict_of_pairs <$> aisle_pairs;
               Checker.wave_size_lb := lb;
               Checker.wave_size_ub := ub |}.
Proof.
  set (o := length order_pairs). set (a := length aisle_pairs).
  set (lines := instance_lines n_items order_pairs aisle_pairs lb ub ++ rest).
  assert (Hshape : lines
    = [Num (Z.of_nat o); Num n_items; Num (Z.of_nat a)]
      :: ((map_line <$> order_pairs)
          ++ ((map_line <$> aisle_pairs) ++ [Num lb; Num ub] :: rest))).
  { unfold lines, instance_lines. cbn [app]. f_equal.
    by rewrite <- !app_assoc. }
  assert (HS : ∀ (x : line) l i, (x :: l) !! S i = l !! i) by done.
  assert (Ho : ∀ i pairs, order_pairs !! i = Some pairs →
            lines !! S i = Some (map_line pairs)).
  { intros i pairs Hi. rewrite Hshape, HS, lookup_app_l.
    - by rewrite list_lookup_fmap, Hi.
    - rewrite length_fmap. by apply lookup_lt_Some in Hi. }
  assert (Ha : ∀ i pairs, aisle_pairs !! i = Some pairs →
            lines !! S (o + i) = Some (map_line pairs)).
  { intros i pairs Hi. rewrite Hshape, HS.
    rewrite lookup_app_r by (rewrite length_fmap; fold o; lia).
    rewrite length_fmap. fold o. replace (o + i - o)%nat with i by lia.
    rewrite lookup_app_l.
    - by rewrite list_lookup_fmap, Hi.
    - rewrite length_fmap. by apply lookup_lt_Some in Hi. }
  assert (Hb : lines !! S (o + a) = Some [Num lb; Num ub]).
  { rewrite Hshape, HS.
    rewrite lookup_app_r by (rewrite length_fmap; fold o; lia).
    rewrite length_fmap. fold o. replace (o + a - o)%nat with a by lia.
    rewrite lookup_app_r by (by rewrite length_fmap).
    by rewrite length_fmap, Nat.sub_diag. }
  assert (H0 : lines !! 0%nat
               = Some [Num (Z.of_nat o); Num n_items; Num (Z.of_nat a)])
    by (by rewrite Hshape).
  unfold read_input.
  pose proof (py_getitem_lookup (A:=line) lines 0 _ H0) as E0.
  change (Z.of_nat 0) with 0 in E0. rewrite E0.
  cbn [lift mbind outcome_bind].
  change (int_at [Num (Z.of_nat o); Num n_items; Num (Z.of_nat a)] 0)
    with (Returns (Z.of_nat o)).
  change (int_at [Num (Z.of_nat o); Num n_items; Num (Z.of_nat a)] 1)
    with (Returns n_items).
  change (int_at [Num (Z.of_nat o); Num n_items; Num (Z.of_nat a)] 2)
    with (Returns (Z.of_nat a)).
  cbn [mbind outcome_bind].
  pose proof (collect_seqZ
    (λ j, order_line ← lift (py_getitem lines (j + 1)); read_map order_line)
    (dict_of_pairs <$> order_pairs) 0) as Eo.
  rewrite length_fmap in Eo. fold o in Eo. rewrite Eo; clear Eo.
  2: { intros i b Hi. rewrite list_lookup_fmap in Hi.
       destruct (order_pairs !! i) as [pairs|] eqn:Hp; [|done].
       injection Hi as <-.
       replace (0 + Z.of_nat i + 1) with (Z.of_nat (S i)) by lia.
       apply read_map_at. by apply Ho. }
  cbn [mbind outcome_bind].
  pose proof (collect_seqZ
    (λ j, aisle_line ← lift (py_getitem lines (j + Z.of_nat o + 1));
          read_map aisle_line)
    (dict_of_pairs <$> aisle_pairs) 0) as Ea.
  rewrite length_fmap in Ea. fold a in Ea. rewrite Ea; clear Ea.
  2: { intros i b Hi. rewrite list_lookup_fmap in Hi.
       destruct (aisle_pairs !! i) as [pairs|] eqn:Hp; [|done].
       injection Hi as <-.
       replace (0 + Z.of_nat i + Z.of_nat o + 1) with (Z.of_nat (S (o + i)))
         by lia.
       apply read_map_at. by apply Ha. }
  cbn [mbind outcome_bind].
  replace (Z.of_nat o + Z.of_nat a + 1) with (Z.of_nat (S (o + a))) by lia.
  rewrite (py_getitem_lookup (A:=line) lines _ _ Hb).
  reflexivity.
Qed.
End InstanceFileFacts.

(** * From the engine to the validator *)

Section SelectionFacts.
Import Checker MathSolve Pipeline.

Lemma py_sum_app (l1 l2 : list Z) : py_sum (l1 ++ l2) = py_sum l1 + py_sum l2.
Proof.
  induction l1 as [|z l1 IH]; [done|].
  cbn [app]. rewrite !py_sum_cons, IH. lia.
Qed.

Lemma entry_at_of_nat (table : list (gmap Z Z)) (e : nat) :
  entry_at table (Z.of_nat e) = default ∅ (table !! e).
Proof. unfold entry_at. by rewrite Nat2Z.id. Qed.

(** A sum over the selected positions is the sum over all positions of the
    terms of the selected ones. *)
Lemma sum_selected (table : list (gmap Z Z)) (f : gmap Z Z → Z) (p : nat → bool) :
  py_sum ((λ o, f (entry_at table o))
            <$> as_indices (filter (λ e, p e = true) (seq 0 (length table))))
  = sum_indexed table (λ e d, f d * Z.b2z (p e)).
Proof.
  unfold sum_indexed, as_indices.
  induction table as [|d table IH] using rev_ind; [done|].
  rewrite length_app, seq_app, filter_app, !fmap_app, py_sum_app.
  rewrite imap_app, py_sum_app. f_equal.
  - rewrite <- IH. f_equal. rewrite <- !list_fmap_compose.
    apply list_fmap_ext. intros i e He. cbn.
    apply list_elem_of_lookup_2, list_elem_of_filter in He as [_ He].
    apply elem_of_seq in He.
    rewrite !entry_at_of_nat, lookup_app_l by lia. done.
  - cbn [length seq Nat.add imap]. rewrite Nat.add_0_r.
    rewrite filter_cons, filter_nil.
    destruct (p (length table)) eqn:Hp.
    + rewrite decide_True by done. cbn [fmap list_fmap].
      rewrite entry_at_of_nat, lookup_app_r by lia.
      rewrite Nat.sub_diag. cbn. lia.
    + rewrite decide_False by done. cbn. lia.
Qed.

Lemma length_selected (table : list (gmap Z Z)) (p : nat → bool) :
  Z.of_nat (length (filter (λ e, p e = true) (seq 0 (length table))))
  = sum_indexed table (λ e _, Z.b2z (p e)).
Proof.
  rewrite <- (sum_indexed_ext table (λ e d, (λ _, 1) d * Z.b2z (p e)))
    by (intros; lia).
  rewrite <- sum_selected. unfold as_indices.
  induction (filter _ _) as [|e l IH]; [done|].
  rewrite !fmap_cons, py_sum_cons. cbn [length]. lia.
Qed.

(** The comprehension [v[e].X > 0.5] picks the variables set to 1. *)
Lemma selected_assignment (v : nat → var) (n : nat) (s : Solution)
    (a : assignment) :
  (∀ w, (X s w == if a w then 1 else 0)%Q) →
  selected v n s = filter (λ e, a (v e) = true) (seq 0 n).
Proof.
  intros HX. unfold selected. apply list_filter_iff. intros e.
  rewrite Qgtb_true, (HX (v e)). by destruct (a (v e)).
Qed.

Lemma as_indices_in_range {A : Type} (table : list A) (P : nat → Prop)
    `{!∀ e, Decision (P e)} :
  in_range table (as_indices (filter P (seq 0 (length table)))).
Proof.
  unfold in_range, as_indices. apply Forall_fmap, Forall_forall.
  intros e He. apply list_elem_of_filter in He as [_ He].
  apply elem_of_seq in He. cbn. lia.
Qed.

Lemma as_indices_NoDup (P : nat → Prop) `{!∀ e, Decision (P e)} (n : nat) :
  NoDup (as_indices (filter P (seq 0 n))).
Proof.
  unfold as_indices. apply NoDup_fmap_2; [apply _|].
  apply NoDup_filter, NoDup_seq.
Qed.
End SelectionFacts.

Section PipelineFacts.
Import Checker MathSolve Pipeline.
Variable orders aisles : list (gmap Z Z).
Variable n_items wave_size_lb wave_size_ub : Z.

Local Abbreviation validator :=
  (validator orders aisles wave_size_lb wave_size_ub).
Local Abbreviation model_for :=
  (model_for orders aisles n_items wave_size_lb wave_size_ub).
Local Abbreviation chosen_orders a :=
  (as_indices (filter (λ e, a (x e) = true) (seq 0 (length orders)))).
Local Abbreviation chosen_aisles a :=
  (as_indices (filter (λ e, a (y e) = true) (seq 0 (length aisles)))).

Lemma chosen_units (a : assignment) :
  py_sum ((λ o, units_of (entry_at orders o)) <$> chosen_orders a)
  = stated_units orders a.
Proof. apply (sum_selected orders units_of (λ e, a (x e))). Qed.

(** A selection of distinct orders of a modest instance is modest. *)
Lemma chosen_modest (a : assignment) :
  modest_instance orders aisles wave_size_lb wave_size_ub →
  modest validator (chosen_orders a).
Proof.
  intros (Hl & Hb). split; [|exact Hb].
  cbn [Checker.orders Pipeline.validator] in *.
  etransitivity; [|exact Hl]. apply load_submseteq.
  unfold as_indices. apply fmap_submseteq, sublist_submseteq, sublist_filter.
Qed.

(** The orders and aisles set to 1 by an assignment that satisfies the
    model are a selection that the validator accepts. *)
Lemma feasible_assignment_accepted (k : Z) (a : assignment) :
  well_formed orders aisles n_items →
  modest_instance orders aisles wave_size_lb wave_size_ub →
  feasible (model_for k) a →
  is_solution_feasible validator (chosen_orders a) (chosen_aisles a) = Ok true.
Proof.
  intros [Hwo _] Hmod Hfeas.
  apply feasible_model_for in Hfeas as (Hlb & Hub & Hav & _).
  destruct (is_solution_feasible_exact validator (chosen_orders a)
              (chosen_aisles a)) as (b & -> & Hb).
  { apply (as_indices_in_range orders). }
  { apply (as_indices_in_range aisles). }
  { by apply chosen_modest. }
  f_equal. apply Hb. cbn [Checker.orders Checker.aisles Checker.wave_size_lb
                          Checker.wave_size_ub Pipeline.validator].
  rewrite chosen_units. split; [lia|].
  intros item (o & Ho & Hkey).
  rewrite (sum_selected orders (λ d, dict_get d item 0) (λ e, a (x e))).
  rewrite (sum_selected aisles (λ d, dict_get d item 0) (λ e, a (y e))).
  unfold as_indices in Ho. apply list_elem_of_fmap in Ho as (e & -> & He).
  apply list_elem_of_filter in He as [_ He]. apply elem_of_seq in He.
  rewrite entry_at_of_nat in Hkey.
  destruct (orders !! e) as [d|] eqn:Hd.
  2: { apply lookup_ge_None in Hd. lia. }
  cbn [default] in Hkey. apply list_elem_of_lookup_2 in Hd.
  apply Hav.
  - by apply (Hwo d).
  - apply Exists_exists. by exists d.
Qed.

Lemma list_set_perm (l : list Z) : NoDup l → list_set l ≡ₚ l.
Proof. intros Hl. by apply list_set_enumerates. Qed.

Lemma ratio_le_objective (T k L : Z) :
  0 < T → 0 < L ≤ k →
  (inject_Z T / inject_Z k <= inject_Z T / inject_Z L)%Q.
Proof.
  intros HT [HL Hk].
  destruct k as [|pk|pk]; try lia. destruct L as [|pl|pl]; try lia.
  unfold Qle, Qdiv, Qmult, Qinv, inject_Z. cbn. nia.
Qed.
End PipelineFacts.

Section PipelineTheorems.
Import Checker MathSolve Pipeline.
Variable orders aisles : list (gmap Z Z).
Variable n_items wave_size_lb wave_size_ub : Z.
Variable optimize : Model → result Solution.

Local Abbreviation solve_instance :=
  (solve_instance orders aisles n_items wave_size_lb wave_size_ub optimize).
Local Abbreviation build_model :=
  (build_model orders aisles n_items wave_size_lb wave_size_ub).
Local Abbreviation model_for :=
  (model_for orders aisles n_items wave_size_lb wave_size_ub).
Local Abbreviation validator :=
  (validator orders aisles wave_size_lb wave_size_ub).

(** What was written is what the sweep retained, and the ratio printed
    with it is the ratio of its budget. *)
Lemma written_solution_retained (m : Model) (log : list event)
    (so sa : list nat) :
  build_model 1 = Ok m →
  solve_instance = Ok log →
  WriteOutput so sa ∈ log →
  ∃ k s out,
    (1 ≤ k ≤ k_max aisles)%nat ∧ optimal_at optimize m k s
    ∧ (so, sa) = selection orders aisles s
    ∧ (0 < ratio_at k s)%Q
    ∧ log = out ++ [WriteOutput so sa; PrintDone (ratio_at k s)]
    ∧ Forall step_event out.
Proof.
  intros Hm Hrun Hin.
  destruct (sweep_cases orders aisles optimize m (k_max aisles))
    as [Hok|[[e He] _]].
  2: { rewrite (solve_instance_raise _ _ _ _ _ _ m e Hm He) in Hrun. done. }
  destruct (sweep_prefix orders aisles optimize m (k_max aisles) Hok)
    as (st & Hsw & Hret & _ & Hev).
  rewrite (solve_instance_unfold _ _ _ _ _ _ m st Hm Hsw) in Hrun.
  injection Hrun as <-. apply elem_of_app in Hin as [Hin|Hin].
  { by apply step_event_not_write in Hin. }
  unfold retained in Hret. destruct (best_solution st) as [[so' sa']|].
  2: { apply list_elem_of_singleton in Hin. done. }
  apply elem_of_cons in Hin as [[= -> ->]|Hin].
  2: { apply list_elem_of_singleton in Hin. done. }
  destruct Hret as (k & s & Hk & Hopt & Hsel & Hbr & Hpos & _).
  exists k, s, (output st). rewrite Hbr. by rewrite Hsel.
Qed.

Lemma selection_chosen (s : Solution) (a : assignment) :
  (∀ v, (X s v == if a v then 1 else 0)%Q) →
  selection orders aisles s
  = (filter (λ e, a (x e) = true) (seq 0 (length orders)),
     filter (λ e, a (y e) = true) (seq 0 (length aisles))).
Proof.
  intros HX. unfold selection.
  by rewrite (selected_assignment x _ s a HX), (selected_assignment y _ s a HX).
Qed.

(** The validator on the written lists is the validator on the chosen
    ones. *)
Lemma written_lists (a : assignment) :
  modest_instance orders aisles wave_size_lb wave_size_ub →
  let so := as_indices (filter (λ e, a (x e) = true) (seq 0 (length orders))) in
  let sa := as_indices (filter (λ e, a (y e) = true) (seq 0 (length aisles))) in
  is_solution_feasible validator (list_set so) (list_set sa)
  = is_solution_feasible validator so sa
  ∧ compute_objective_function validator (list_set so) (list_set sa)
    = compute_objective_function validator so sa.
Proof.
  intros Hmod so sa.
  destruct (chosen_modest orders aisles wave_size_lb wave_size_ub a Hmod)
    as [Hl _].
  assert (Rso : in_range (Checker.orders validator) so)
    by apply (as_indices_in_range orders).
  assert (Hpo : so ≡ₚ list_set so).
  { symmetry. apply list_set_perm, as_indices_NoDup. }
  assert (Hpa : sa ≡ₚ list_set sa).
  { symmetry. apply list_set_perm, as_indices_NoDup. }
  split; symmetry.
  - by apply is_solution_feasible_perm.
  - by apply compute_objective_function_perm.
Qed.

(** X6.  For an instance whose items are in range and whose orders weigh
    no more than [2^53] together (nor do its bounds exceed that), and with
    a solver that returns, as optimal, values that satisfy the model, the
    solution that [solve_instance] writes is read back and found feasible
    by the validator. *)
Theorem written_solution_is_feasible (m : Model) (log : list event)
    (so sa : list nat) :
  well_formed orders aisles n_items →
  modest_instance orders aisles wave_size_lb wave_size_ub →
  build_model 1 = Ok m →
  solver_correct optimize m →
  solve_instance = Ok log →
  WriteOutput so sa ∈ log →
  validate_written orders aisles wave_size_lb wave_size_ub so sa
  = Files.Returns true.
Proof.
  intros Hwf Hmod Hm Hsolver Hrun Hin.
  destruct (written_solution_retained m log so sa Hm Hrun Hin)
    as (k & s & out & Hk & Hopt & Hsel & _).
  destruct (Hsolver k s Hopt) as (a & HX & Hfeas & _).
  rewrite (build_model_ok orders aisles n_items wave_size_lb wave_size_ub 1 Hwf)
    in Hm. injection Hm as <-.
  unfold formulation_gurobi in Hfeas. rewrite setAttr_RHS_model_for in Hfeas.
  rewrite (selection_chosen s a HX) in Hsel. injection Hsel as -> ->.
  unfold validate_written. rewrite read_output_of_written.
  cbn [mbind Files.outcome_bind Checker.read_output fst snd].
  destruct (written_lists a Hmod) as [-> _].
  by rewrite (feasible_assignment_accepted orders aisles n_items wave_size_lb
                wave_size_ub (Z.of_nat k) a Hwf Hmod Hfeas).
Qed.

(** X7.  Under the same conditions the objective that the validator
    computes for the written solution is at least the ratio that
    [solve_instance] printed for it: both are doubles nearest to a
    quotient of the same total, which the engine divides by the budget and
    the validator by the aisles actually selected, which are no more.
    When no aisle is selected the validator's value is [inf]. *)
Theorem written_objective_at_least_ratio (m : Model) (log : list event)
    (so sa : list nat) (ratio : Q) :
  well_formed orders aisles n_items →
  modest_instance orders aisles wave_size_lb wave_size_ub →
  build_model 1 = Ok m →
  solver_correct optimize m →
  solve_instance = Ok log →
  WriteOutput so sa ∈ log →
  PrintDone ratio ∈ log →
  ∃ v,
    objective_of_written orders aisles wave_size_lb wave_size_ub so sa
    = Files.Returns v
    ∧ ((sa = [] ∧ v = Infinite false)
       ∨ (sa ≠ [] ∧ ∃ q, v = Finite q ∧ (ratio <= q)%Q)).
Proof.
  intros Hwf Hmod Hm Hsolver Hrun Hin Hdone.
  destruct (written_solution_retained m log so sa Hm Hrun Hin)
    as (k & s & out & Hk & Hopt & Hsel & Hpos & Hlog & Hout).
  assert (ratio = ratio_at k s) as ->.
  { rewrite Hlog in Hdone. apply elem_of_app in Hdone as [Hdone|Hdone].
    - rewrite Forall_forall in Hout. by apply Hout in Hdone.
    - apply elem_of_cons in Hdone as [[=]|Hdone].
      apply list_elem_of_singleton in Hdone. by injection Hdone. }
  destruct (Hsolver k s Hopt) as (a & HX & Hfeas & Hval).
  rewrite (build_model_ok orders aisles n_items wave_size_lb wave_size_ub 1 Hwf)
    in Hm. injection Hm as <-.
  unfold formulation_gurobi in Hfeas, Hval.
  rewrite setAttr_RHS_model_for in Hfeas, Hval.
  cbn [objective MathSolve.model_for] in Hval. rewrite eval_units_expr in Hval.
  rewrite (selection_chosen s a HX) in Hsel. injection Hsel as -> ->.
  set (T := stated_units orders a) in *.
  set (L := Z.of_nat (length (filter (λ e, a (y e) = true)
                                (seq 0 (length aisles))))).
  assert (Hkpos : (0 < inject_Z (Z.of_nat k))%Q) by (unfold Qlt; cbn; lia).
  assert (Hk0 : ¬ (inject_Z (Z.of_nat k) == 0)%Q).
  { intros H0. rewrite H0 in Hkpos. by apply Qlt_irrefl in Hkpos. }
  assert (Hquot : (0 < ObjVal s / inject_Z (Z.of_nat k))%Q).
  { unfold ratio_at, float_div in Hpos. by apply round_Q_pos in Hpos. }
  assert (HT : 0 < T).
  { rewrite Hval in Hquot.
    assert (HTq : (0 < inject_Z T)%Q).
    { rewrite <- (Qmult_div_r (inject_Z T) _ Hk0).
      by apply Qmult_lt_0_compat. }
    unfold Qlt in HTq. cbn in HTq. lia. }
  assert (HL : 0 ≤ L ≤ Z.of_nat k).
  { split; [unfold L; lia|]. unfold L.
    rewrite (length_selected aisles (λ e, a (y e))).
    by apply feasible_model_for in Hfeas as (_ & _ & _ & Hlim). }
  destruct (chosen_modest orders aisles wave_size_lb wave_size_ub a Hmod)
    as [Hload _].
  cbn [Checker.orders Pipeline.validator] in Hload.
  pose proof (units_le_load orders
                (as_indices (filter (λ e, a (x e) = true)
                               (seq 0 (length orders))))) as HTb.
  rewrite chosen_units in HTb. fold T in HTb.
  unfold objective_of_written. rewrite read_output_of_written.
  cbn [mbind Files.outcome_bind Checker.read_output fst snd].
  destruct (written_lists a Hmod) as [_ ->].
  unfold compute_objective_function.
  rewrite (total_units_picked_exact validator) by
    (done || apply (as_indices_in_range orders)).
  cbn [mbind result_bind Checker.orders Pipeline.validator].
  unfold as_indices at 2. rewrite length_fmap. fold L.
  destruct (Z.eq_dec L 0) as [HL0|HL0].
  - assert (Hsa : filter (λ e, a (y e) = true) (seq 0 (length aisles)) = []).
    { apply length_zero_iff_nil. unfold L in HL0. lia. }
    rewrite HL0.
    destruct (as_indices (filter (λ e, a (x e) = true) (seq 0 (length orders))))
      as [|o l] eqn:Hso.
    { pose proof (chosen_units orders a) as Hcu. rewrite Hso in Hcu.
      change (py_sum _) with 0 in Hcu. unfold T in HT. lia. }
    unfold exact_total. rewrite <- Hso, chosen_units. fold T.
    assert (Hdiv : ∀ float, true_divide (exact_number float T) 0
                            = Ok (Infinite false)).
    { intros [|]; cbn [exact_number true_divide Z.eqb];
        rewrite ?round_int_exact by lia;
        (destruct (Z.eqb_spec T 0); [lia|]);
        by (destruct (Z.ltb_spec T 0); [lia|]). }
    rewrite Hdiv. eexists. split; [reflexivity|]. left. by split.
  - rewrite true_divide_exact_total by done.
    rewrite chosen_units. fold T.
    assert (HTL : (inject_Z T / inject_Z (Z.of_nat k)
                   <= inject_Z T / inject_Z L)%Q)
      by (apply ratio_le_objective; lia).
    assert (Hq0 : (0 < inject_Z T / inject_Z (Z.of_nat k))%Q)
      by (by rewrite <- Hval).
    rewrite round_double_finite.
    + eexists. split; [reflexivity|]. right. split.
      { intros Hnil. unfold L in HL0. rewrite Hnil in HL0. done. }
      eexists. split; [reflexivity|].
      unfold ratio_at, float_div.
      rewrite (round_Q_comp_pos _ (inject_Z T / inject_Z (Z.of_nat k)))
        by (done || by rewrite Hval).
      by apply round_Q_mono_pos.
    + apply Qlt_le_weak. eapply Qlt_le_trans; [exact Hq0 | exact HTL].
    + destruct L as [|pl|pl]; try lia.
      unfold Qle, Qdiv, Qmult, Qinv, inject_Z. cbn. nia.
Qed.
End PipelineTheorems.

Section PipelineWitnesses.
Import Checker MathSolve Pipeline.

Local Abbreviation A_orders := scenario_A_orders.
Local Abbreviation A_aisles := scenario_A_aisles.
Local Abbreviation A_model := (model_for A_orders A_aisles 2 2 5).
Local Abbreviation solver := (enumerate_optimize 2 2).
Local Abbreviation A_log :=
  [Optimize 1; PrintProgress 1 3 3; PrintNewBest 3 1 1;
   Optimize 2; PrintProgress 2 4 2;
   WriteOutput [0%nat] [0%nat]; PrintDone 3].

(** The solver by enumeration returns the best of the assignments that
    satisfy the model. *)
Lemma enumerate_optimize_correct (n_orders n_aisles : nat) (m : Model) :
  solver_correct (enumerate_optimize n_orders n_aisles) m.
Proof.
  intros k s [Hrun Hst]. unfold enumerate_optimize in Hrun.
  pose proof (best_candidate_spec (formulation_gurobi m k)
                (candidates n_orders n_aisles)) as Hbest.
  destruct (best_candidate _ _) as [a|]; injection Hrun as <-; [|done].
  exists a. split; [|split; [|reflexivity]].
  - intros v. cbn. by destruct (a v).
  - apply feasibleb_spec. by destruct Hbest.
Qed.

Lemma scenario_A_written : WriteOutput [0%nat] [0%nat] ∈ A_log.
Proof. do 5 right. left. Qed.

Lemma scenario_A_done : PrintDone 3 ∈ A_log.
Proof. do 6 right. left. Qed.

Lemma scenario_A_modest : modest_instance A_orders A_aisles 2 5.
Proof. by vm_compute. Qed.

Lemma written_solution_is_feasible_witness :
  well_formed A_orders A_aisles 2
  ∧ modest_instance A_orders A_aisles 2 5
  ∧ build_model A_orders A_aisles 2 2 5 1 = Ok (A_model 1)
  ∧ solver_correct solver (A_model 1)
  ∧ solve_instance A_orders A_aisles 2 2 5 solver = Ok A_log
  ∧ WriteOutput [0%nat] [0%nat] ∈ A_log
  ∧ validate_written A_orders A_aisles 2 5 [0%nat] [0%nat] = Files.Returns true.
Proof.
  pose proof scenario_A_well_formed as Hwf.
  pose proof scenario_A_modest as Hmod.
  pose proof (scenario_A_build 2 5 1) as Hm.
  pose proof (enumerate_optimize_correct 2 2 (A_model 1)) as Hsolver.
  pose proof scenario_A_run_log as Hrun. unfold scenario_A_run in Hrun.
  pose proof scenario_A_written as Hin.
  repeat (split; [assumption|]).
  exact (written_solution_is_feasible A_orders A_aisles 2 2 5 solver
           (A_model 1) A_log [0%nat] [0%nat] Hwf Hmod Hm Hsolver Hrun Hin).
Defined.

Lemma written_objective_at_least_ratio_witness :
  well_formed A_orders A_aisles 2
  ∧ modest_instance A_orders A_aisles 2 5
  ∧ build_model A_orders A_aisles 2 2 5 1 = Ok (A_model 1)
  ∧ solver_correct solver (A_model 1)
  ∧ solve_instance A_orders A_aisles 2 2 5 solver = Ok A_log
  ∧ WriteOutput [0%nat] [0%nat] ∈ A_log
  ∧ PrintDone 3 ∈ A_log
  ∧ ∃ v, objective_of_written A_orders A_aisles 2 5 [0%nat] [0%nat]
         = Files.Returns v
         ∧ (([0%nat] = [] ∧ v = Infinite false)
            ∨ ([0%nat] ≠ [] ∧ ∃ q, v = Finite q ∧ (3 <= q)%Q)).
Proof.
  pose proof scenario_A_well_formed as Hwf.
  pose proof scenario_A_modest as Hmod.
  pose proof (scenario_A_build 2 5 1) as Hm.
  pose proof (enumerate_optimize_correct 2 2 (A_model 1)) as Hsolver.
  pose proof scenario_A_run_log as Hrun. unfold scenario_A_run in Hrun.
  pose proof scenario_A_written as Hin.
  pose proof scenario_A_done as Hdone.
  repeat (split; [assumption|]).
  exact (written_objective_at_least_ratio A_orders A_aisles 2 2 5 solver
           (A_model 1) A_log [0%nat] [0%nat] 3 Hwf Hmod Hm Hsolver Hrun Hin
           Hdone).
Defined.
End PipelineWitnesses.

(** * Errors and contents of the incidence index *)

Section IndexErrors.
Import MathSolve.
Variable n_items : Z.

Lemma for_each_raises {A S : Type} (P : exn → Prop) (body : S → A → result S) :
  (∀ s a e, body s a = Raise e → P e) →
  ∀ s l e, for_each body s l = Raise e → P e.
Proof.
  intros Hbody s l. revert s. induction l as [|a l IH]; intros s e; [done|].
  cbn [for_each]. destruct (body s a) as [s'|e'] eqn:Ha; cbn [mbind result_bind].
  - apply IH.
  - intros [= <-]. by apply (Hbody s a).
Qed.

Lemma index_append_ok (index index' : gmap Z (list (nat * Z))) (i : Z)
    (entry : nat * Z) :
  index_append index i entry = Ok index' →
  i ∈ dom index ∧ dom index' = dom index.
Proof.
  unfold index_append. destruct (index !! i) as [l|] eqn:Hl; [|done].
  intros [= <-]. assert (Hi : i ∈ dom index) by (apply elem_of_dom; eauto).
  split; [done|]. rewrite dom_insert_L.
  apply leibniz_equiv. intros j. rewrite elem_of_union, elem_of_singleton.
  split; [intros [->|?]; done | by right].
Qed.

Lemma index_append_raises (index : gmap Z (list (nat * Z))) (i : Z)
    (entry : nat * Z) (e : exn) :
  index_append index i entry = Raise e → e = KeyError.
Proof. unfold index_append. destruct (index !! i); congruence. Qed.

(** A pass over one order or aisle leaves the keys of the index as they
    are, and only goes through when every item is one of them. *)
Lemma index_row_ok (o : nat) (kvs : list (Z * Z))
    (index index' : gmap Z (list (nat * Z))) :
  for_each (λ index' '(i, qty), index_append index' i (o, qty)) index kvs
  = Ok index' →
  dom index' = dom index ∧ ∀ i, i ∈ kvs.*1 → i ∈ dom index.
Proof.
  revert index. induction kvs as [|[k q] kvs IH]; intros index Hrun.
  - injection Hrun as <-. split; [done|]. intros i Hi. by apply elem_of_nil in Hi.
  - cbn [for_each] in Hrun.
    destruct (index_append index k (o, q)) as [index1|] eqn:H1; [|done].
    cbn [mbind result_bind] in Hrun.
    apply index_append_ok in H1 as [Hk Hdom].
    destruct (IH index1 Hrun) as [Hdom' Hkeys]. split; [congruence|].
    intros i Hi. cbn in Hi. apply elem_of_cons in Hi as [->|Hi]; [done|].
    rewrite <- Hdom. by apply Hkeys.
Qed.

Lemma index_rows_ok (rows : list (nat * gmap Z Z))
    (index index' : gmap Z (list (nat * Z))) :
  for_each
    (λ index '(o, order),
       for_each (λ index' '(i, qty), index_append index' i (o, qty))
                index (map_to_list order))
    index rows = Ok index' →
  dom index' = dom index
  ∧ ∀ o d i, (o, d) ∈ rows → is_Some (d !! i) → i ∈ dom index.
Proof.
  revert index. induction rows as [|[o d] rows IH]; intros index Hrun.
  - injection Hrun as <-. split; [done|]. intros o d i Hin.
    by apply elem_of_nil in Hin.
  - cbn [for_each] in Hrun.
    destruct (for_each _ index (map_to_list d)) as [index1|] eqn:H1; [|done].
    cbn [mbind result_bind] in Hrun.
    apply index_row_ok in H1 as [Hdom Hkeys].
    destruct (IH index1 Hrun) as [Hdom' Hrest]. split; [congruence|].
    intros o' d' i Hin [q Hq]. apply elem_of_cons in Hin as [[= -> ->]|Hin].
    + apply Hkeys. apply list_elem_of_fmap. exists (i, q).
      split; [done|]. by apply elem_of_map_to_list.
    + rewrite <- Hdom. apply (Hrest o' d' i Hin). by exists q.
Qed.

Lemma empty_index_dom (i : Z) : i ∈ dom (empty_index n_items) ↔ 0 ≤ i < n_items.
Proof.
  rewrite elem_of_dom, empty_index_lookup. case_decide.
  - split; [done|]. intros _. by eexists.
  - split; [|done]. by intros [? [=]].
Qed.

(** The index can only be built when every item is in [range(n_items)]. *)
Lemma build_index_ok_inv (table : list (gmap Z Z))
    (index : gmap Z (list (nat * Z))) :
  build_index n_items table = Ok index → items_in_range n_items table.
Proof.
  unfold build_index. intros Hrun.
  apply index_rows_ok in Hrun as [_ Hkeys].
  intros d i Hd Hi. apply empty_index_dom.
  apply list_elem_of_lookup in Hd as [o Ho].
  apply (Hkeys o d i); [|done].
  apply elem_of_lookup_imap. by exists o, d.
Qed.

Lemma build_index_raises (table : list (gmap Z Z)) (e : exn) :
  build_index n_items table = Raise e → e = KeyError.
Proof.
  unfold build_index. apply (for_each_raises (λ e, e = KeyError)).
  intros index [o d] e'. apply (for_each_raises (λ e, e = KeyError)).
  intros index' [i q] e''. apply index_append_raises.
Qed.

Lemma incidence_from_elem (table : list (gmap Z Z)) (start : nat) (i : Z)
    (o : nat) (q : Z) :
  (o, q) ∈ incidence_from start table i
  ↔ (start ≤ o)%nat ∧ ∃ d, table !! (o - start)%nat = Some d ∧ d !! i = Some q.
Proof.
  revert start. induction table as [|d table IH]; intros start.
  - cbn. split; [by intros H%elem_of_nil | by intros [_ (d & [=] & _)]].
  - cbn [incidence_from].
    assert (Hrest : (o, q) ∈ incidence_from (S start) table i
              ↔ (start < o)%nat ∧ ∃ d', (d :: table) !! (o - start)%nat = Some d'
                                       ∧ d' !! i = Some q).
    { rewrite IH. split.
      - intros [Ho (d' & Hd' & Hq)]. split; [lia|]. exists d'. split; [|done].
        replace (o - start)%nat with (S (o - S start)) by lia. done.
      - intros [Ho (d' & Hd' & Hq)]. split; [lia|]. exists d'. split; [|done].
        replace (o - start)%nat with (S (o - S start)) in Hd' by lia. done. }
    destruct (d !! i) as [q0|] eqn:Hd.
    + rewrite elem_of_cons, Hrest. split.
      * intros [[= -> ->]|[Ho H]].
        -- split; [lia|]. exists d. by rewrite Nat.sub_diag.
        -- split; [lia | done].
      * intros [Ho (d' & Hd' & Hq)].
        destruct (decide (o = start)) as [->|Hne].
        -- left. rewrite Nat.sub_diag in Hd'. injection Hd' as <-. congruence.
        -- right. split; [lia|]. by exists d'.
    + rewrite Hrest. split.
      * intros [Ho H]. split; [lia | done].
      * intros [Ho (d' & Hd' & Hq)]. split; [|by exists d'].
        destruct (decide (o = start)) as [->|Hne]; [|lia].
        rewrite Nat.sub_diag in Hd'. injection Hd' as <-. congruence.
Qed.

Lemma incidence_from_sorted (table : list (gmap Z Z)) (start : nat) (i : Z) :
  StronglySorted lt (incidence_from start table i).*1.
Proof.
  revert start. induction table as [|d table IH]; intros start; [constructor|].
  cbn [incidence_from]. destruct (d !! i) as [q|]; [|apply IH].
  cbn [fmap list_fmap fst]. constructor; [apply IH|].
  apply Forall_fmap, Forall_forall. intros [o q'] Hin.
  apply incidence_from_elem in Hin as [Ho _]. cbn. lia.
Qed.
End IndexErrors.

Section IndexTheorems.
Import MathSolve.

(** X8.  [build_model] goes through exactly for the instances all of whose
    items, in orders and aisles, lie in [range(n_items)]; for any other
    instance it raises [KeyError], whatever the budget. *)
Theorem build_model_succeeds_iff (orders aisles : list (gmap Z Z))
    (n_items wave_size_lb wave_size_ub k : Z) :
  (well_formed orders aisles n_items
   ↔ ∃ m, build_model orders aisles n_items wave_size_lb wave_size_ub k = Ok m)
  ∧ ∀ e, build_model orders aisles n_items wave_size_lb wave_size_ub k = Raise e →
         e = KeyError.
Proof.
  assert (Hinv : ∀ r,
    build_model orders aisles n_items wave_size_lb wave_size_ub k = r →
    match r with
    | Ok _ => well_formed orders aisles n_items
    | Raise e => e = KeyError
    end).
  { intros r Hr. unfold build_model in Hr.
    destruct (build_index n_items orders) as [ito|e] eqn:Ho.
    2: { subst r. by apply build_index_raises in Ho. }
    destruct (build_index n_items aisles) as [ita|e] eqn:Ha.
    2: { subst r. by apply build_index_raises in Ha. }
    assert (Hwf : well_formed orders aisles n_items).
    { split; by eapply build_index_ok_inv. }
    destruct r as [m|e]; [done|].
    pose proof (build_model_ok orders aisles n_items wave_size_lb wave_size_ub
                  k Hwf) as Hok.
    unfold build_model in Hok. rewrite Ho, Ha in Hok. congruence. }
  split; [split|].
  - intros Hwf. eexists. by apply build_model_ok.
  - intros [m Hm]. exact (Hinv _ Hm).
  - intros e He. exact (Hinv _ He).
Qed.

(** X9.  The index built for a table has exactly the keys
    [range(n_items)], and the list under item [i] holds, by increasing
    position and each position at most once, the pairs [(o, q)] with
    [table[o][i] == q]. *)
Theorem build_index_contents (n_items : Z) (table : list (gmap Z Z))
    (index : gmap Z (list (nat * Z))) :
  build_index n_items table = Ok index →
  (∀ i, is_Some (index !! i) ↔ 0 ≤ i < n_items)
  ∧ ∀ i l, index !! i = Some l →
      StronglySorted lt l.*1
      ∧ ∀ o q, (o, q) ∈ l ↔ ∃ d, table !! o = Some d ∧ d !! i = Some q.
Proof.
  intros Hrun. pose proof (build_index_ok_inv n_items table index Hrun) as Hwf.
  destruct (build_index_ok n_items table Hwf) as (index' & Hrun' & Hlk).
  rewrite Hrun in Hrun'. injection Hrun' as <-. split.
  - intros i. rewrite Hlk. case_decide.
    + split; [done|]. intros _. by eexists.
    + split; [|done]. by intros [? [=]].
  - intros i l Hl. rewrite Hlk in Hl. case_decide; [|done].
    injection Hl as <-. split; [apply incidence_from_sorted|].
    intros o q. rewrite incidence_from_elem, Nat.sub_0_r. split.
    + by intros [_ H'].
    + intros H'. split; [lia | done].
Qed.

Lemma build_index_contents_witness :
  build_index 2 scenario_A_orders
  = Ok (<[0 := [(0%nat, 3); (1%nat, 2)]]> {[1 := [(1%nat, 2)]]})
  ∧ ∀ o q, (o, q) ∈ [(0%nat, 3); (1%nat, 2)]
      ↔ ∃ d, scenario_A_orders !! o = Some d ∧ d !! 0 = Some q.
Proof.
  assert (Hrun : build_index 2 scenario_A_orders
                 = Ok (<[0 := [(0%nat, 3); (1%nat, 2)]]> {[1 := [(1%nat, 2)]]}))
    by (vm_compute; reflexivity).
  split; [exact Hrun|].
  destruct (build_index_contents 2 scenario_A_orders _ Hrun) as [_ Hl].
  exact (proj2 (Hl 0 [(0%nat, 3); (1%nat, 2)] eq_refl)).
Defined.
End IndexTheorems.


(** * Edge behaviour of the validator *)

Section ValidatorEdges.
Import Checker.
Variable self : WaveOrderPicking.

Lemma py_getitem_from_end {A : Type} (table : list A) (i : Z) :
  - Z.of_nat (length table) ≤ i < Z.of_nat (length table) →
  py_getitem table i = py_getitem table (from_end table i)
  ∧ 0 ≤ from_end table i < Z.of_nat (length table).
Proof.
  intros Hi. unfold from_end.
  destruct (Z.ltb_spec i 0) as [Hneg|Hpos]; [|split; [done | lia]].
  split; [|lia]. unfold py_getitem.
  rewrite (proj2 (Z.ltb_lt i 0)) by lia.
  by rewrite (proj2 (Z.ltb_ge (i + Z.of_nat (length table)) 0)) by lia.
Qed.

Lemma accepted_from_end {A : Type} (table : list A) (l : list Z) :
  accepted table l → in_range table (from_end table <$> l).
Proof.
  unfold accepted, in_range. intros Hl. apply Forall_fmap.
  eapply Forall_impl; [exact Hl|]. intros i Hi.
  by apply py_getitem_from_end.
Qed.

(** A loop that looks its indices up sees the same entries when negative
    indices are replaced by the positions they stand for. *)
Lemma getitem_loop_from_end {S : Type} (table : list (gmap Z Z))
    (g : S → gmap Z Z → result S) (l : list Z) (s : S) :
  accepted table l →
  for_each (λ s ix, d ← py_getitem table ix; g s d) s l
  = for_each (λ s ix, d ← py_getitem table ix; g s d) s
             (from_end table <$> l).
Proof.
  intros Hl. revert s. induction Hl as [|i l Hi _ IH]; intros s; [done|].
  rewrite fmap_cons. cbn [for_each].
  destruct (py_getitem_from_end table i Hi) as [<- _].
  destruct (py_getitem table i) as [d|]; cbn [mbind result_bind]; [|done].
  destruct (g s d); cbn [mbind result_bind]; [apply IH | done].
Qed.

Lemma getitem_fold_from_end {S : Type} (table : list (gmap Z Z))
    (g : S → gmap Z Z → S) (l : list Z) (s : S) :
  accepted table l →
  for_each (λ s ix, d ← py_getitem table ix; Ok (g s d)) s l
  = for_each (λ s ix, d ← py_getitem table ix; Ok (g s d)) s
             (from_end table <$> l).
Proof. exact (getitem_loop_from_end table (λ s d, Ok (g s d)) l s). Qed.

Lemma total_units_picked_from_end (so : list Z) :
  accepted (orders self) so →
  total_units_picked self so
  = total_units_picked self (from_end (orders self) <$> so).
Proof.
  exact (getitem_loop_from_end (orders self)
           (λ total d, py_add total (np_sum (dict_values d))) so (PyInt 0)).
Qed.

Lemma check_items_from_end (so va items : list Z) :
  accepted (orders self) so → accepted (aisles self) va →
  check_items self so va items
  = check_items self (from_end (orders self) <$> so)
                (from_end (aisles self) <$> va) items.
Proof.
  intros Hso Hva. induction items as [|item items IH]; [done|].
  cbn [check_items]. unfold sum_get.
  rewrite <- (getitem_fold_from_end (orders self)
                (λ acc d, acc + dict_get d item 0) so 0 Hso).
  rewrite <- (getitem_fold_from_end (aisles self)
                (λ acc d, acc + dict_get d item 0) va 0 Hva).
  destruct (for_each _ 0 so); cbn [mbind result_bind]; [|done].
  destruct (for_each _ 0 va); cbn [mbind result_bind]; [|done].
  by rewrite IH.
Qed.

Lemma is_solution_feasible_from_end (so va : list Z) :
  accepted (orders self) so → accepted (aisles self) va →
  is_solution_feasible self so va
  = is_solution_feasible self (from_end (orders self) <$> so)
                         (from_end (aisles self) <$> va).
Proof.
  intros Hso Hva. unfold is_solution_feasible.
  rewrite <- (total_units_picked_from_end so Hso).
  destruct (total_units_picked self so) as [total|];
    cbn [mbind result_bind]; [|done].
  destruct (between _ total _) as [within|]; cbn [mbind result_bind]; [|done].
  destruct (negb within); [done|]. unfold required_items.
  rewrite <- (getitem_fold_from_end (orders self)
                (λ items d, items ∪ dict_keys d) so _ Hso).
  destruct (for_each _ ∅ so); cbn [mbind result_bind]; [|done].
  by apply check_items_from_end.
Qed.

(** **** Quantities that numpy holds in 64 bits: nothing overflows *)

Lemma py_getitem_not_accepted {A : Type} (table : list A) (i : Z) :
  ¬ (- Z.of_nat (length table) ≤ i < Z.of_nat (length table)) →
  py_getitem table i = Raise IndexError.
Proof.
  intros Hi. unfold py_getitem. cbv zeta.
  destruct (Z.ltb_spec i 0) as [?|?].
  - destruct (Z.leb_spec 0 (i + Z.of_nat (length table))) as [?|?]; [lia|done].
  - destruct (Z.leb_spec 0 i) as [_|?]; [|lia].
    destruct (Z.ltb_spec i (Z.of_nat (length table))) as [?|?]; [lia|done].
Qed.

Lemma py_getitem_accepted (table : list (gmap Z Z)) (i : Z) :
  - Z.of_nat (length table) ≤ i < Z.of_nat (length table) →
  ∃ d, py_getitem table i = Ok d ∧ d ∈ table.
Proof.
  intros Hi. destruct (py_getitem_from_end table i Hi) as [-> Hr].
  destruct (py_getitem_in_range table _ Hr) as (d & Hd & ->).
  exists d. split; [done|]. by apply list_elem_of_lookup_2 in Hd.
Qed.

Lemma accepted_or_not {A : Type} (table : list A) (l : list Z) :
  accepted table l ∨ ¬ accepted table l.
Proof.
  unfold accepted. induction l as [|i l [IH|IH]].
  - left. constructor.
  - destruct (decide (- Z.of_nat (length table) ≤ i < Z.of_nat (length table)))
      as [Hi|Hi].
    + left. by constructor.
    + right. intros H. by apply Forall_cons in H as [? _].
  - right. intros H. by apply Forall_cons in H as [_ ?].
Qed.

Lemma np_sum_sized (l : list Z) :
  (∀ v, v ∈ l → - 2 ^ 63 ≤ v < 2 ^ 64) → is_numpy (np_sum l).
Proof.
  intros Hl. destruct l as [|v l]; [exact I|]. unfold np_sum.
  destruct (forallb in_int64 _); [exact I|].
  destruct (forallb in_uint64 _); [exact I|].
  assert (H : forallb (λ v, in_int64 v || in_uint64 v) (v :: l) = true).
  { apply Is_true_true, forallb_True, Forall_forall. intros w Hw.
    apply Is_true_true. specialize (Hl w Hw). unfold in_int64, in_uint64.
    destruct (Z.ltb_spec w (2 ^ 63)) as [?|?].
    - apply orb_true_iff. left. apply andb_true_iff.
      split; [apply Z.leb_le; lia | done].
    - apply orb_true_iff. right. apply andb_true_iff.
      split; [apply Z.leb_le | apply Z.ltb_lt]; lia. }
  by rewrite H.
Qed.

Lemma py_add_sized (acc b : number) :
  acc = PyInt 0 ∨ is_numpy acc → is_numpy b →
  ∃ r, py_add acc b = Ok r ∧ is_numpy r.
Proof.
  intros [->|Hacc] Hb.
  - destruct b as [z|z|z|z]; [done|..]; cbn [py_add].
    + by eexists.
    + by eexists.
    + rewrite py_float_exact by lia. by eexists.
  - destruct acc as [x|x|x|x], b as [z|z|z|z]; try done; by eexists.
Qed.

(** How the loop of [total_units_picked] ends when no quantity exceeds 64
    bits. *)
Lemma total_units_loop_sized (so : list Z) (acc : number) :
  numpy_sized self → acc = PyInt 0 ∨ is_numpy acc →
  match for_each
          (λ total order,
             d ← py_getitem (orders self) order;
             py_add total (np_sum (dict_values d))) acc so with
  | Ok r => accepted (orders self) so
            ∧ (so = [] → r = acc) ∧ (so ≠ [] → is_numpy r)
  | Raise e => e = IndexError ∧ ¬ accepted (orders self) so
  end.
Proof.
  intros Hsized. revert acc. induction so as [|o so IH]; intros acc Hacc.
  - cbn [for_each]. split; [constructor | done].
  - cbn [for_each].
    destruct (decide (- Z.of_nat (length (orders self)) ≤ o
                      < Z.of_nat (length (orders self)))) as [Ho|Ho].
    + destruct (py_getitem_accepted (orders self) o Ho) as (d & -> & Hd).
      cbn [mbind result_bind].
      destruct (py_add_sized acc (np_sum (dict_values d)) Hacc)
        as (acc' & -> & Hacc').
      { apply np_sum_sized. intros v Hv. by apply (Hsized d). }
      cbn [mbind result_bind]. specialize (IH acc' (or_intror Hacc')).
      destruct (for_each _ acc' so) as [r|e].
      * destruct IH as (Hso & Hnil & Hne). split; [by constructor|].
        split; [done|]. intros _. destruct so as [|o' so'].
        -- by rewrite Hnil.
        -- by apply Hne.
      * destruct IH as [-> Hbad]. split; [done|]. intros Hall.
        apply Hbad. by apply Forall_cons in Hall as [_ ?].
    + rewrite (py_getitem_not_accepted _ _ Ho). cbn [mbind result_bind].
      split; [done|]. intros Hall. by apply Forall_cons in Hall as [? _].
Qed.

Lemma getitem_loop_raises {S : Type} (table : list (gmap Z Z))
    (g : S → gmap Z Z → S) (l : list Z) (s : S) (e : exn) :
  for_each (λ s ix, d ← py_getitem table ix; Ok (g s d)) s l = Raise e →
  e = IndexError.
Proof.
  apply (for_each_raises (λ e, e = IndexError)). clear. intros s ix e.
  destruct (py_getitem table ix) as [d|e'] eqn:E; cbn [mbind result_bind];
    [done|].
  intros [= <-]. by apply py_getitem_raises in E.
Qed.

Lemma getitem_loop_not_accepted {S : Type} (table : list (gmap Z Z))
    (g : S → gmap Z Z → S) (l : list Z) (s : S) :
  ¬ accepted table l →
  for_each (λ s ix, d ← py_getitem table ix; Ok (g s d)) s l = Raise IndexError.
Proof.
  revert s. induction l as [|i l IH]; intros s Hl.
  - destruct Hl. constructor.
  - cbn [for_each].
    destruct (decide (- Z.of_nat (length table) ≤ i < Z.of_nat (length table)))
      as [Hi|Hi].
    + destruct (py_getitem_accepted table i Hi) as (d & -> & _).
      cbn [mbind result_bind].
      apply IH. intros Hl'. apply Hl. by constructor.
    + by rewrite (py_getitem_not_accepted _ _ Hi).
Qed.

Lemma check_items_raises (so va items : list Z) (e : exn) :
  check_items self so va items = Raise e → e = IndexError.
Proof.
  induction items as [|item items IH]; [done|]. cbn [check_items].
  unfold sum_get.
  destruct (for_each _ 0 so) as [r|e1] eqn:E1; cbn [mbind result_bind].
  - destruct (for_each _ 0 va) as [r'|e2] eqn:E2; cbn [mbind result_bind].
    + destruct (_ <? _); [done | exact IH].
    + intros [= <-].
      exact (getitem_loop_raises (aisles self)
               (λ acc d, acc + dict_get d item 0) va 0 e2 E2).
  - intros [= <-].
    exact (getitem_loop_raises (orders self)
             (λ acc d, acc + dict_get d item 0) so 0 e1 E1).
Qed.

Lemma sum_get_accepted (table : list (gmap Z Z)) (item : Z) (l : list Z) :
  accepted table l → ∃ r, sum_get table item l = Ok r.
Proof.
  intros Hl. unfold sum_get.
  rewrite (getitem_fold_from_end table (λ acc d, acc + dict_get d item 0)
             l 0 Hl).
  rewrite (sum_get_ok _ _ _ _ (accepted_from_end _ _ Hl)). by eexists.
Qed.

Lemma required_items_accepted (so : list Z) :
  accepted (orders self) so →
  ∃ items,
    required_items self so = Ok items
    ∧ ∀ item, item ∈ items ↔
        ∃ o, o ∈ so
             ∧ is_Some (entry_at (orders self) (from_end (orders self) o)
                          !! item).
Proof.
  intros Hso. unfold required_items.
  rewrite (getitem_fold_from_end (orders self)
             (λ items d, items ∪ dict_keys d) so ∅ Hso).
  destruct (required_items_loop_ok self _ ∅ (accepted_from_end _ _ Hso))
    as (items & -> & Hitems).
  exists items. split; [done|]. intros item. rewrite Hitems. split.
  - intros [H|(o' & Ho' & Hsome)]; [by apply not_elem_of_empty in H|].
    apply list_elem_of_fmap in Ho' as (o & -> & Ho). by exists o.
  - intros (o & Ho & Hsome). right.
    exists (from_end (orders self) o). split; [|done].
    apply list_elem_of_fmap. by exists o.
Qed.

Lemma check_items_accepted (so va items : list Z) :
  accepted (orders self) so → accepted (aisles self) va →
  ∃ b, check_items self so va items = Ok b.
Proof.
  intros Hso Hva. rewrite (check_items_from_end so va items Hso Hva).
  destruct (check_items_ok self _ _ items (accepted_from_end _ _ Hso)
              (accepted_from_end _ _ Hva)) as (b & -> & _).
  by exists b.
Qed.

Lemma py_float_raises (z : Z) (e : exn) :
  py_float z = Raise e → e = OverflowError.
Proof. unfold py_float. destruct (_ <=? _); [|done]. by intros [= <-]. Qed.

Lemma py_add_raises (a b : number) (e : exn) :
  py_add a b = Raise e → e = OverflowError.
Proof.
  destruct a as [x|x|x|x], b as [y|y|y|y]; cbn [py_add]; try done;
    try (destruct (in_int64 _); [done | by intros [= <-]]);
    try (destruct (in_uint64 _); [done | by intros [= <-]]);
    destruct (py_float _) as [f|e'] eqn:E; cbn [mbind result_bind];
    try done; intros [= <-]; by apply py_float_raises in E.
Qed.

Lemma between_raises (lb ub : Z) (t : number) (e : exn) :
  between lb t ub = Raise e → e = OverflowError.
Proof.
  unfold between.
  destruct t as [z|z|z|z]; cbn [int_le_number number_le_int mbind result_bind];
    try (destruct (lb <=? z); done).
  destruct (py_float lb) as [l|e1] eqn:E1; cbn [mbind result_bind].
  - destruct (l <=? z); [|done].
    destruct (py_float ub) as [u|e2] eqn:E2; cbn [mbind result_bind]; [done|].
    intros [= <-]. by apply py_float_raises in E2.
  - intros [= <-]. by apply py_float_raises in E1.
Qed.

Lemma between_converts (t : number) :
  bounds_convert self →
  ∃ b, between (wave_size_lb self) t (wave_size_ub self) = Ok b.
Proof.
  intros [[lb Hlb] [ub Hub]]. unfold between.
  destruct t as [z|z|z|z]; cbn [int_le_number number_le_int];
    rewrite ?Hlb; cbn [mbind result_bind];
    (destruct (_ <=? _); [|by eexists]); rewrite ?Hub;
    cbn [mbind result_bind]; by eexists.
Qed.

(** With accepted indices nothing but the arithmetic can fail. *)
Lemma total_units_loop_accepted (so : list Z) (acc : number) (e : exn) :
  accepted (orders self) so →
  for_each
    (λ total order,
       d ← py_getitem (orders self) order;
       py_add total (np_sum (dict_values d))) acc so = Raise e →
  e = OverflowError.
Proof.
  intros Hso. revert acc. induction Hso as [|o so Ho _ IH]; intros acc; [done|].
  cbn [for_each].
  destruct (py_getitem_accepted (orders self) o Ho) as (d & -> & _).
  cbn [mbind result_bind].
  destruct (py_add acc _) as [acc'|e'] eqn:E; cbn [mbind result_bind].
  - apply IH.
  - intros [= <-]. by apply py_add_raises in E.
Qed.

Lemma is_solution_feasible_accepted (so va : list Z) (e : exn) :
  accepted (orders self) so → accepted (aisles self) va →
  is_solution_feasible self so va = Raise e → e = OverflowError.
Proof.
  intros Hso Hva. unfold is_solution_feasible, total_units_picked.
  destruct (for_each _ (PyInt 0) so) as [total|e1] eqn:E1;
    cbn [mbind result_bind].
  2:{ intros [= <-]. by apply (total_units_loop_accepted so _ _ Hso E1). }
  destruct (between _ total _) as [within|e2] eqn:E2; cbn [mbind result_bind].
  2:{ intros [= <-]. by apply between_raises in E2. }
  destruct (negb within); [done|].
  destruct (required_items_accepted so Hso) as (items & -> & _).
  cbn [mbind result_bind].
  by destruct (check_items_accepted so va (elements items) Hso Hva) as [b ->].
Qed.

(** [is_solution_feasible] raises nothing but [IndexError] and
    [OverflowError]. *)
Lemma is_solution_feasible_raises (so va : list Z) (e : exn) :
  is_solution_feasible self so va = Raise e →
  e = IndexError ∨ e = OverflowError.
Proof.
  unfold is_solution_feasible, total_units_picked.
  destruct (for_each _ (PyInt 0) so) as [total|e1] eqn:E1;
    cbn [mbind result_bind].
  2:{ intros [= <-]. revert E1.
      apply (for_each_raises (λ e, e = IndexError ∨ e = OverflowError)).
      intros acc o e.
      destruct (py_getitem (orders self) o) as [d|e'] eqn:E;
        cbn [mbind result_bind].
      - intros H. right. by apply py_add_raises in H.
      - intros [= <-]. left. by apply py_getitem_raises in E. }
  destruct (between _ total _) as [within|e2] eqn:E2; cbn [mbind result_bind].
  2:{ intros [= <-]. right. by apply between_raises in E2. }
  destruct (negb within); [done|]. unfold required_items.
  destruct (for_each _ ∅ so) as [items|e3] eqn:E3; cbn [mbind result_bind].
  2:{ intros [= <-]. left.
      exact (getitem_loop_raises (orders self)
               (λ items d, items ∪ dict_keys d) so ∅ e3 E3). }
  intros H. left. by apply check_items_raises in H.
Qed.

(** How [is_solution_feasible] ends when no quantity exceeds 64 bits and
    both bounds convert to doubles. *)
Lemma is_solution_feasible_sized (so va : list Z) :
  numpy_sized self → bounds_convert self →
  match is_solution_feasible self so va with
  | Ok b => accepted (orders self) so
  | Raise e =>
      e = IndexError
      ∧ (¬ accepted (orders self) so ∨ ¬ accepted (aisles self) va)
  end.
Proof.
  intros Hsized Hbounds. unfold is_solution_feasible, total_units_picked.
  pose proof (total_units_loop_sized so (PyInt 0) Hsized (or_introl eq_refl))
    as Hloop.
  destruct (for_each _ (PyInt 0) so) as [total|e]; cbn [mbind result_bind].
  2: { destruct Hloop as [-> ?]. split; [done | by left]. }
  destruct Hloop as [Hso _].
  destruct (between_converts total Hbounds) as [within ->].
  cbn [mbind result_bind]. destruct (negb within); [done|].
  destruct (required_items_accepted so Hso) as (items & -> & _).
  cbn [mbind result_bind].
  destruct (check_items self so va (elements items)) as [b|e] eqn:Hc; [done|].
  split; [by apply check_items_raises in Hc|]. right. intros Hva.
  destruct (check_items_accepted so va (elements items) Hso Hva) as [b Hb].
  congruence.
Qed.

(** How [compute_objective_function] ends when no quantity exceeds 64
    bits. *)
Lemma objective_cases (so va : list Z) :
  numpy_sized self →
  match compute_objective_function self so va with
  | Raise e =>
      (e = IndexError ∧ ¬ accepted (orders self) so)
      ∨ (e = ZeroDivisionError ∧ so = [] ∧ va = [])
  | Ok v => accepted (orders self) so ∧ ¬ (so = [] ∧ va = [])
  end.
Proof.
  intros Hsized. unfold compute_objective_function, total_units_picked.
  pose proof (total_units_loop_sized so (PyInt 0) Hsized (or_introl eq_refl))
    as Hloop.
  destruct (for_each _ (PyInt 0) so) as [total|e]; cbn [mbind result_bind].
  2: { destruct Hloop as [-> ?]. by left. }
  destruct Hloop as (Hso & Hnil & Hne).
  destruct so as [|o so].
  - rewrite Hnil by done. cbn [true_divide].
    destruct va as [|a va].
    + cbn [length Z.of_nat Z.eqb]. by right.
    + destruct (Z.eqb_spec (Z.of_nat (length (a :: va))) 0) as [Hz|_];
        [cbn [length] in Hz; lia|].
      rewrite round_double_zero by (unfold Qdiv; apply Qmult_0_l).
      split; [done|]. by intros [_ ?].
  - specialize (Hne ltac:(done)).
    destruct total as [z|z|z|z]; [done|..]; cbn [true_divide];
      (destruct (_ =? 0); [destruct (_ =? 0)|]);
      (split; [done|]); by intros [? _].
Qed.

Lemma is_solution_feasible_nothing_selected :
  is_solution_feasible self [] []
  = Ok ((wave_size_lb self <=? 0) && (0 <=? wave_size_ub self)).
Proof.
  unfold is_solution_feasible, between. cbn [total_units_picked for_each
    mbind result_bind int_le_number number_le_int].
  destruct (wave_size_lb self <=? 0); cbn [mbind result_bind andb negb];
    [|done].
  destruct (0 <=? wave_size_ub self); cbn [mbind result_bind negb]; [|done].
  cbn [required_items for_each mbind result_bind]. by rewrite elements_empty.
Qed.

(** X10.  The validator does not reject negative indices: an index [i]
    with [-len <= i < 0] is taken as the position [i + len], for orders and
    aisles alike, and no index is refused: the only exception left is the
    [OverflowError] of the arithmetic, and there is none when no quantity
    of the orders exceeds the 64 bits of a numpy integer and both bounds
    convert to doubles. *)
Theorem negative_indices_count_from_end (so va : list Z) :
  accepted (orders self) so → accepted (aisles self) va →
  is_solution_feasible self so va
  = is_solution_feasible self (from_end (orders self) <$> so)
                         (from_end (aisles self) <$> va)
  ∧ (∀ e, is_solution_feasible self so va = Raise e → e = OverflowError)
  ∧ (numpy_sized self → bounds_convert self →
     ∃ b, is_solution_feasible self so va = Ok b).
Proof.
  intros Hso Hva. split; [by apply is_solution_feasible_from_end|].
  split; [intros e; by apply is_solution_feasible_accepted|].
  intros Hsized Hbounds.
  pose proof (is_solution_feasible_sized so va Hsized Hbounds) as H.
  destruct (is_solution_feasible self so va) as [b|e]; [by exists b|].
  by destruct H as [_ [?|?]].
Qed.

(** The arithmetic can fail on accepted indices: after an empty order the
    total is a double, and an order of [2^1024] units is a Python int that
    no double holds. *)
Lemma accepted_indices_overflow :
  accepted (orders scenario_huge) [0; 1]
  ∧ accepted (aisles scenario_huge) [0]
  ∧ is_solution_feasible scenario_huge [0; 1] [0] = Raise OverflowError.
Proof.
  split; [|split].
  - repeat constructor; cbn; lia.
  - repeat constructor; cbn; lia.
  - by vm_compute.
Qed.

(** X11.  For orders whose quantities numpy holds in 64 bits and a list
    whose orders weigh no more than [2^53] together, under bounds that do
    not exceed it: [is_solution_feasible] raises nothing but [IndexError],
    and it raises exactly when an order index is outside the table, or when
    an aisle index is and the aisles are reached: the total lies within the
    bounds and some selected order holds an item.  A selection that fails
    the bounds, or whose orders are all empty, is answered whatever the
    aisle indices are. *)
Theorem is_solution_feasible_index_error (so va : list Z) :
  numpy_sized self → modest self (from_end (orders self) <$> so) →
  (is_solution_feasible self so va = Raise IndexError
   ↔ ¬ accepted (orders self) so
     ∨ (¬ accepted (aisles self) va
        ∧ wave_size_lb self
          ≤ py_sum ((λ o, units_of (entry_at (orders self)
                                      (from_end (orders self) o))) <$> so)
          ≤ wave_size_ub self
        ∧ ∃ o item,
            o ∈ so
            ∧ is_Some (entry_at (orders self) (from_end (orders self) o)
                         !! item)))
  ∧ ∀ e, is_solution_feasible self so va = Raise e → e = IndexError.
Proof.
  intros Hsized (Hload & Hlb & Hub).
  assert (Hbounds : bounds_convert self).
  { split; eexists; by apply py_float_exact. }
  pose proof (is_solution_feasible_sized so va Hsized Hbounds) as Hends.
  split.
  2:{ intros e He. rewrite He in Hends. by destruct Hends. }
  destruct (accepted_or_not (orders self) so) as [Hso|Hso].
  2:{ split; [by left|]. intros _.
      destruct (is_solution_feasible self so va) as [b|e]; [done|].
      by destruct Hends as [-> _]. }
  clear Hends. unfold is_solution_feasible.
  rewrite (total_units_picked_from_end so Hso).
  rewrite (total_units_picked_exact self _ (accepted_from_end _ _ Hso) Hload).
  cbn [mbind result_bind].
  rewrite between_exact_total by done. cbn [mbind result_bind].
  rewrite <- list_fmap_compose.
  change (py_sum (((λ o, units_of (entry_at (orders self) o))
                     ∘ from_end (orders self)) <$> so))
    with (py_sum ((λ o, units_of (entry_at (orders self)
                                    (from_end (orders self) o))) <$> so)).
  set (total := py_sum _).
  destruct (Z.leb_spec (wave_size_lb self) total) as [Hl|Hl];
    [destruct (Z.leb_spec total (wave_size_ub self)) as [Hu|Hu]|];
    cbn [andb negb].
  2,3: split; [done|]; intros [?|(_ & ? & _)]; [done | lia].
  destruct (required_items_accepted so Hso) as (items & -> & Hitems).
  cbn [mbind result_bind].
  destruct (accepted_or_not (aisles self) va) as [Hva|Hva].
  - destruct (check_items_accepted so va (elements items) Hso Hva) as [b ->].
    split; [done|]. by intros [?|[? _]].
  - destruct (elements items) as [|item rest] eqn:Hel.
    + split; [done|]. intros [?|(_ & _ & o & item & Ho)]; [done|].
      assert (item ∈ elements items) as Hin
        by (apply elem_of_elements, Hitems; by exists o).
      rewrite Hel in Hin. by apply elem_of_nil in Hin.
    + cbn [check_items].
      destruct (sum_get_accepted (orders self) item so Hso) as [r ->].
      cbn [mbind result_bind]. unfold sum_get.
      rewrite (getitem_loop_not_accepted (aisles self)
                 (λ acc d, acc + dict_get d item 0) va 0 Hva).
      split; [|done]. intros _. right. split; [done|]. split; [lia|].
      assert (item ∈ elements items) as Hin by (rewrite Hel; by left).
      apply elem_of_elements, Hitems in Hin as (o & Ho & Hsome).
      by exists o, item.
Qed.

(** X12.  The exceptions of [compute_objective_function] when no quantity
    of the orders exceeds the 64 bits of a numpy integer: it raises
    [ZeroDivisionError] exactly when no order and no aisle is passed, and
    [IndexError] exactly when some order index is outside the table (the
    aisle indices are never looked up); it raises nothing else. *)
Theorem compute_objective_function_raises (so va : list Z) :
  numpy_sized self →
  (compute_objective_function self so va = Raise ZeroDivisionError
   ↔ so = [] ∧ va = [])
  ∧ (compute_objective_function self so va = Raise IndexError
     ↔ ¬ accepted (orders self) so)
  ∧ ∀ e, compute_objective_function self so va = Raise e →
         e = ZeroDivisionError ∨ e = IndexError.
Proof.
  intros Hsized. pose proof (objective_cases so va Hsized) as H.
  split; [|split].
  - split.
    + intros E. rewrite E in H. by destruct H as [[? _]|[_ ?]].
    + by intros [-> ->].
  - split.
    + intros E. rewrite E in H. by destruct H as [[_ ?]|[? _]].
    + intros Hso.
      destruct (compute_objective_function self so va) as [v|e].
      * by destruct H as [? _].
      * destruct H as [[-> _]|(_ & -> & _)]; [done|].
        destruct Hso. constructor.
  - intros e E. rewrite E in H. destruct H as [[-> _]|[-> _]]; auto.
Qed.

(** X13.  When an aisle is passed, every order index is accepted and the
    listed orders weigh no more than [2^53] together,
    [compute_objective_function] returns the double nearest to the units
    of the listed orders, each counted as often as it is listed and
    negative indices taken from the end, over the length of the aisle
    list; what the aisle indices are plays no role. *)
Theorem compute_objective_function_value (so va : list Z) :
  accepted (orders self) so →
  load (orders self) (from_end (orders self) <$> so) ≤ 2 ^ 53 →
  va ≠ [] →
  compute_objective_function self so va
  = Ok (round_double
          (inject_Z (py_sum ((λ o, units_of (entry_at (orders self)
                                    (from_end (orders self) o))) <$> so))
           / inject_Z (Z.of_nat (length va)))).
Proof.
  intros Hso Hload Hva. unfold compute_objective_function.
  rewrite (total_units_picked_from_end so Hso).
  rewrite (total_units_picked_exact self _ (accepted_from_end _ _ Hso) Hload).
  cbn [mbind result_bind].
  rewrite true_divide_exact_total.
  - by rewrite <- list_fmap_compose.
  - done.
  - destruct va; [done | cbn [length]; lia].
Qed.
End ValidatorEdges.

Lemma scenario_A_sized : Checker.numpy_sized Checker.scenario_A.
Proof.
  intros d v Hd Hv.
  repeat (apply elem_of_cons in Hd as [->|Hd]);
    [| |by apply elem_of_nil in Hd]; vm_compute in Hv;
    repeat (apply elem_of_cons in Hv as [->|Hv]);
    try (by apply elem_of_nil in Hv); lia.
Qed.

Lemma negative_indices_count_from_end_witness :
  accepted (Checker.orders Checker.scenario_A) [-2]
  ∧ accepted (Checker.aisles Checker.scenario_A) [-2]
  ∧ Checker.is_solution_feasible Checker.scenario_A [-2] [-2]
    = Checker.is_solution_feasible Checker.scenario_A [0] [0].
Proof.
  assert (H : Forall (λ i : Z, - 2 ≤ i < 2) [-2]).
  { apply Forall_singleton. lia. }
  split; [exact H|]. split; [exact H|].
  exact (proj1 (negative_indices_count_from_end Checker.scenario_A
                  [-2] [-2] H H)).
Defined.

Lemma is_solution_feasible_index_error_witness :
  Checker.numpy_sized Checker.scenario_A
  ∧ Checker.modest Checker.scenario_A
      (from_end (Checker.orders Checker.scenario_A) <$> [-1])
  ∧ Checker.is_solution_feasible Checker.scenario_A [-1] [0; 9]
    = Raise IndexError.
Proof.
  pose proof scenario_A_sized as Hs.
  assert (Hm : Checker.modest Checker.scenario_A
                 (from_end (Checker.orders Checker.scenario_A) <$> [-1]))
    by (by vm_compute).
  split; [exact Hs|]. split; [exact Hm|].
  apply (proj1 (is_solution_feasible_index_error Checker.scenario_A
                  [-1] [0; 9] Hs Hm)).
  right. split; [|split].
  - intros H. apply Forall_cons in H as [_ H].
    apply Forall_cons in H as [H _]. cbn in H. lia.
  - by vm_compute.
  - exists (-1), 0. split; [by left|]. vm_compute. by eexists.
Defined.

Lemma compute_objective_function_raises_witness :
  Checker.numpy_sized Checker.scenario_A
  ∧ Checker.compute_objective_function Checker.scenario_A [] []
    = Raise ZeroDivisionError
  ∧ Checker.compute_objective_function Checker.scenario_A [5] []
    = Raise IndexError.
Proof.
  pose proof scenario_A_sized as Hs.
  destruct (compute_objective_function_raises Checker.scenario_A [] [] Hs)
    as [[_ Hz] _].
  destruct (compute_objective_function_raises Checker.scenario_A [5] [] Hs)
    as (_ & [_ Hi] & _).
  split; [exact Hs|]. split; [by apply Hz|]. apply Hi.
  intros H. apply Forall_cons in H as [H _]. cbn in H. lia.
Defined.

Lemma compute_objective_function_value_witness :
  accepted (Checker.orders Checker.scenario_A) [0; -1; 0]
  ∧ Checker.load (Checker.orders Checker.scenario_A)
      (from_end (Checker.orders Checker.scenario_A) <$> [0; -1; 0]) ≤ 2 ^ 53
  ∧ [7; 7] ≠ ([] : list Z)
  ∧ Checker.compute_objective_function Checker.scenario_A [0; -1; 0] [7; 7]
    = Ok (Finite 5).
Proof.
  assert (H : accepted (Checker.orders Checker.scenario_A) [0; -1; 0]).
  { repeat constructor; cbn; lia. }
  assert (Hl : Checker.load (Checker.orders Checker.scenario_A)
                 (from_end (Checker.orders Checker.scenario_A) <$> [0; -1; 0])
               ≤ 2 ^ 53) by (by vm_compute).
  split; [exact H|]. split; [exact Hl|]. split; [done|].
  exact (compute_objective_function_value Checker.scenario_A
           [0; -1; 0] [7; 7] H Hl ltac:(done)).
Defined.

(** * Exceptions of the readers, and what [check_all_files] reports *)

Section ReaderErrors.
Import Files.

Lemma lift_getitem_raises {A : Type} (l : list A) (i : Z) (e : exception) :
  lift (py_getitem l i) = Raises e → parse_error e.
Proof.
  destruct (py_getitem l i) as [v|e'] eqn:E; [done|]. intros [= <-].
  right. by rewrite (py_getitem_raises _ _ _ E).
Qed.

Lemma int_raises (t : token) (e : exception) :
  int t = Raises e → parse_error e.
Proof. destruct t; [done|]. intros [= <-]. by left. Qed.

Lemma int_at_raises (tokens : line) (i : Z) (e : exception) :
  int_at tokens i = Raises e → parse_error e.
Proof.
  unfold int_at.
  destruct (lift (py_getitem tokens i)) as [t|e'] eqn:E;
    cbn [mbind outcome_bind].
  - apply int_raises.
  - intros [= <-]. by apply lift_getitem_raises in E.
Qed.

Lemma int_line_raises (lines : list line) (i : Z) (e : exception) :
  int_line lines i = Raises e → parse_error e.
Proof.
  unfold int_line.
  destruct (lift (py_getitem lines i)) as [l|e'] eqn:E;
    cbn [mbind outcome_bind].
  - destruct l as [|t [|t' l]]; cbn [int_stripped];
      [intros [= <-]; by left | apply int_raises | intros [= <-]; by left].
  - intros [= <-]. by apply lift_getitem_raises in E.
Qed.

Lemma collect_raises {A B : Type} (f : A → outcome B) (js : list A)
    (e : exception) :
  collect f js = Raises e → ∃ j, j ∈ js ∧ f j = Raises e.
Proof.
  induction js as [|j js IH]; [done|]. cbn [collect].
  destruct (f j) as [b|e'] eqn:E; cbn [mbind outcome_bind].
  - destruct (collect f js) as [bs|e'']; cbn [mbind outcome_bind]; [done|].
    intros [= <-]. destruct IH as (j' & Hj' & Hf); [done|].
    exists j'. split; [by right | done].
  - intros [= <-]. exists j. split; [by left | done].
Qed.

Lemma dict_comprehension_raises (tokens : line) (ks : list Z) (acc : gmap Z Z)
    (e : exception) :
  dict_comprehension tokens ks acc = Raises e → parse_error e.
Proof.
  revert acc. induction ks as [|k ks IH]; intros acc; [done|].
  cbn [dict_comprehension].
  destruct (int_at tokens (2 * k + 1)) as [key|e1] eqn:E1;
    cbn [mbind outcome_bind]; [|intros [= <-]; by apply int_at_raises in E1].
  destruct (int_at tokens (2 * k + 2)) as [val|e2] eqn:E2;
    cbn [mbind outcome_bind]; [|intros [= <-]; by apply int_at_raises in E2].
  apply IH.
Qed.

Lemma read_map_raises (tokens : line) (e : exception) :
  read_map tokens = Raises e → parse_error e.
Proof.
  unfold read_map.
  destruct (int_at tokens 0) as [d|e1] eqn:E1; cbn [mbind outcome_bind];
    [|intros [= <-]; by apply int_at_raises in E1].
  apply dict_comprehension_raises.
Qed.

Lemma read_map_line_raises (lines : list line) (g : Z → Z) (js : list Z)
    (e : exception) :
  collect (λ j, l ← lift (py_getitem lines (g j)); read_map l) js = Raises e →
  parse_error e.
Proof.
  intros (j & _ & Hj)%collect_raises.
  destruct (lift (py_getitem lines (g j))) as [l|e1] eqn:E1;
    cbn [mbind outcome_bind] in Hj.
  - by apply read_map_raises in Hj.
  - injection Hj as <-. by apply lift_getitem_raises in E1.
Qed.

Lemma read_input_raises (lines : list line) (e : exception) :
  read_input lines = Raises e → parse_error e.
Proof.
  unfold read_input.
  destruct (lift (py_getitem lines 0)) as [first_line|e1] eqn:E1;
    cbn [mbind outcome_bind];
    [|intros [= <-]; by apply lift_getitem_raises in E1].
  destruct (int_at first_line 0) as [o|e2] eqn:E2; cbn [mbind outcome_bind];
    [|intros [= <-]; by apply int_at_raises in E2].
  destruct (int_at first_line 1) as [i|e3] eqn:E3; cbn [mbind outcome_bind];
    [|intros [= <-]; by apply int_at_raises in E3].
  destruct (int_at first_line 2) as [a|e4] eqn:E4; cbn [mbind outcome_bind];
    [|intros [= <-]; by apply int_at_raises in E4].
  destruct (collect _ (seqZ 0 o)) as [os|e5] eqn:E5; cbn [mbind outcome_bind];
    [|intros [= <-];
      exact (read_map_line_raises lines (λ j, j + 1) _ _ E5)].
  destruct (collect _ (seqZ 0 a)) as [als|e6] eqn:E6; cbn [mbind outcome_bind];
    [|intros [= <-];
      exact (read_map_line_raises lines (λ j, j + o + 1) _ _ E6)].
  destruct (lift (py_getitem lines (o + a + 1))) as [bounds|e7] eqn:E7;
    cbn [mbind outcome_bind];
    [|intros [= <-]; by apply lift_getitem_raises in E7].
  destruct (int_at bounds 0) as [lb|e8] eqn:E8; cbn [mbind outcome_bind];
    [|intros [= <-]; by apply int_at_raises in E8].
  destruct (int_at bounds 1) as [ub|e9] eqn:E9; cbn [mbind outcome_bind];
    [|intros [= <-]; by apply int_at_raises in E9].
  done.
Qed.

Lemma read_instance_raises (lines : list line) (e : exception) :
  read_instance lines = Raises e → parse_error e.
Proof.
  unfold read_instance.
  destruct (lift (py_getitem lines 0)) as [first_line|e1] eqn:E1;
    cbn [mbind outcome_bind];
    [|intros [= <-]; by apply lift_getitem_raises in E1].
  destruct (int_at first_line 0) as [o|e2] eqn:E2; cbn [mbind outcome_bind];
    [|intros [= <-]; by apply int_at_raises in E2].
  destruct (int_at first_line 1) as [i|e3] eqn:E3; cbn [mbind outcome_bind];
    [|intros [= <-]; by apply int_at_raises in E3].
  destruct (int_at first_line 2) as [a|e4] eqn:E4; cbn [mbind outcome_bind];
    [|intros [= <-]; by apply int_at_raises in E4].
  destruct (collect _ (seqZ 1 o)) as [os|e5] eqn:E5; cbn [mbind outcome_bind];
    [|intros [= <-]; exact (read_map_line_raises lines id _ _ E5)].
  destruct (collect _ (seqZ (o + 1) a)) as [als|e6] eqn:E6;
    cbn [mbind outcome_bind];
    [|intros [= <-]; exact (read_map_line_raises lines id _ _ E6)].
  destruct (lift (py_getitem lines (o + a + 1))) as [bounds|e7] eqn:E7;
    cbn [mbind outcome_bind];
    [|intros [= <-]; by apply lift_getitem_raises in E7].
  destruct (int_at bounds 0) as [lb|e8] eqn:E8; cbn [mbind outcome_bind];
    [|intros [= <-]; by apply int_at_raises in E8].
  destruct (int_at bounds 1) as [ub|e9] eqn:E9; cbn [mbind outcome_bind];
    [|intros [= <-]; by apply int_at_raises in E9].
  done.
Qed.

Lemma int_lines_raises (lines : list line) (g : Z → Z) (js : list Z)
    (e : exception) :
  collect (λ i, int_line lines (g i)) js = Raises e → parse_error e.
Proof.
  intros (j & _ & Hj)%collect_raises. by apply int_line_raises in Hj.
Qed.

Lemma read_output_raises (lines : list line) (e : exception) :
  read_output lines = Raises e → parse_error e.
Proof.
  unfold read_output.
  destruct (int_line lines 0) as [n|e1] eqn:E1; cbn [mbind outcome_bind];
    [|intros [= <-]; by apply int_line_raises in E1].
  destruct (collect _ (seqZ 0 n)) as [so|e2] eqn:E2; cbn [mbind outcome_bind];
    [|intros [= <-]; exact (int_lines_raises lines (λ i, i + 1) _ _ E2)].
  destruct (int_line lines (n + 1)) as [k|e3] eqn:E3; cbn [mbind outcome_bind];
    [|intros [= <-]; by apply int_line_raises in E3].
  destruct (collect _ (seqZ 0 k)) as [va|e4] eqn:E4; cbn [mbind outcome_bind];
    [|intros [= <-]; exact (int_lines_raises lines (λ i, n + 2 + i) _ _ E4)].
  done.
Qed.

Lemma say_error_zero_division (e : exception) :
  say_error e = SayZeroDivision ↔ e = Builtin ZeroDivisionError.
Proof.
  split; [|by intros ->]. by destruct e as [[]|].
Qed.

Lemma parse_error_not_zero_division :
  ¬ parse_error (Builtin ZeroDivisionError).
Proof. by intros [?|?]. Qed.

(** X14.  The readers of the validator and of the scripts raise nothing
    but [ValueError] (a token that is no integer, a line of the output file
    that is not one integer) and [IndexError] (a missing line or token). *)
Theorem readers_raise_parse_errors (lines : list line) (e : exception) :
  read_input lines = Raises e ∨ read_instance lines = Raises e
  ∨ read_output lines = Raises e →
  e = ValueError ∨ e = Builtin IndexError.
Proof.
  intros [H|[H|H]].
  - by apply read_input_raises in H.
  - by apply read_instance_raises in H.
  - by apply read_output_raises in H.
Qed.

Lemma readers_raise_parse_errors_witness :
  read_output [[Num 1]; [Num 0; Num 0]] = Raises ValueError
  ∧ (ValueError = ValueError ∨ ValueError = Builtin IndexError).
Proof.
  assert (H : read_output [[Num 1]; [Num 0; Num 0]] = Raises ValueError)
    by reflexivity.
  split; [exact H|].
  exact (readers_raise_parse_errors _ _ (or_intror (or_intror H))).
Defined.

(** X15.  For an instance none of whose quantities exceeds the 64 bits of
    a numpy integer, [check_all_files] prints its "division by zero, no
    aisle visited" message for a pair of files exactly when both files are
    read, the output file lists no order and no aisle, and the bounds of
    the instance admit the empty wave.  An output file with orders and no
    aisle never gets the message. *)
Theorem check_pair_zero_division (input output : list line) :
  (∀ self, read_input input = Returns self → Checker.numpy_sized self) →
  SayZeroDivision ∈ check_pair input output
  ↔ ∃ self, read_input input = Returns self
            ∧ read_output output = Returns ([], [])
            ∧ Checker.wave_size_lb self ≤ 0 ≤ Checker.wave_size_ub self.
Proof.
  intros Hsized. unfold check_pair. split.
  - destruct (read_input input) as [self|e] eqn:Ein.
    2:{ intros ->%list_elem_of_singleton%eq_sym%say_error_zero_division.
        apply read_input_raises in Ein.
        by destruct parse_error_not_zero_division. }
    specialize (Hsized self eq_refl).
    destruct (read_output output) as [[so va]|e] eqn:Eout.
    2:{ intros ->%list_elem_of_singleton%eq_sym%say_error_zero_division.
        apply read_output_raises in Eout.
        by destruct parse_error_not_zero_division. }
    destruct (Checker.is_solution_feasible self so va) as [[]|e] eqn:Ef.
    + pose proof (objective_cases self so va Hsized) as Hobj.
      destruct (Checker.compute_objective_function self so va) as [v|e].
      * intros H. apply elem_of_cons in H as [[=]|H].
        by apply list_elem_of_singleton in H.
      * intros H. apply elem_of_cons in H as [[=]|H].
        apply list_elem_of_singleton, eq_sym, say_error_zero_division in H.
        injection H as ->.
        destruct Hobj as [[[=] _]|(_ & -> & ->)].
        exists self. split; [done|]. split; [done|].
        rewrite is_solution_feasible_nothing_selected in Ef.
        injection Ef as Ef. apply andb_true_iff in Ef as [? ?]. lia.
    + by intros [=]%list_elem_of_singleton.
    + intros [= ->]%list_elem_of_singleton%eq_sym%say_error_zero_division.
      by apply is_solution_feasible_raises in Ef as [[=]|[=]].
  - intros (self & -> & -> & Hlb & Hub).
    rewrite is_solution_feasible_nothing_selected.
    destruct (Z.leb_spec (Checker.wave_size_lb self) 0) as [_|?]; [|lia].
    destruct (Z.leb_spec 0 (Checker.wave_size_ub self)) as [_|?]; [|lia].
    cbn. apply elem_of_cons. right. by apply list_elem_of_singleton.
Qed.

Lemma check_pair_zero_division_witness :
  (∀ self, read_input (instance_lines 1 [[(0, 1)]] [[(0, 1)]] 0 5)
           = Returns self → Checker.numpy_sized self)
  ∧ SayZeroDivision
    ∈ check_pair (instance_lines 1 [[(0, 1)]] [[(0, 1)]] 0 5)
                 [[Num 0]; [Num 0]].
Proof.
  assert (Hs : ∀ self, read_input (instance_lines 1 [[(0, 1)]] [[(0, 1)]] 0 5)
                       = Returns self → Checker.numpy_sized self).
  { intros self Hself. vm_compute in Hself. injection Hself as <-.
    intros d v Hd Hv. cbn [Checker.orders] in Hd.
    apply list_elem_of_singleton in Hd as ->. vm_compute in Hv.
    apply list_elem_of_singleton in Hv as ->. lia. }
  split; [exact Hs|].
  apply (check_pair_zero_division _ _ Hs).
  eexists. split; [vm_compute; reflexivity|].
  split; [vm_compute; reflexivity|]. cbn. lia.
Defined.
End ReaderErrors.

(** * The four scripts *)

Section Scripts.
Import MathSolve.
Variable orders aisles : list (gmap Z Z).
Variable n_items wave_size_lb wave_size_ub : Z.
Variable optimize : Model → result Solution.

Lemma build_model_from_index (ito ita : gmap Z (list (nat * Z))) (k : Z) :
  build_index n_items orders = Ok ito →
  build_index n_items aisles = Ok ita →
  build_model orders aisles n_items wave_size_lb wave_size_ub k
  = model_from_index orders aisles n_items wave_size_lb wave_size_ub ito ita k.
Proof. intros Ho Ha. unfold build_model. by rewrite Ho, Ha. Qed.

Lemma build_index_build_model (ito ita : gmap Z (list (nat * Z))) :
  build_index n_items orders = Ok ito →
  build_index n_items aisles = Ok ita →
  ∃ m, build_model orders aisles n_items wave_size_lb wave_size_ub 1 = Ok m.
Proof.
  intros Ho Ha. eexists. apply build_model_ok.
  split; by eapply build_index_ok_inv.
Qed.

(** Every order stands in the PuLP problem when each has a quantity other
    than zero, and only then. *)
Lemma orders_count_in_problem :
  orders_count orders
  ↔ forallb (in_problem orders) (seq 0 (length orders)) = true.
Proof.
  unfold orders_count. rewrite <- Is_true_true, forallb_True, !Forall_forall.
  split.
  - intros Hall o Ho. apply elem_of_seq in Ho.
    destruct (orders !! o) as [d|] eqn:Hd.
    2:{ apply lookup_ge_None in Hd. lia. }
    destruct (Hall d (list_elem_of_lookup_2 _ _ _ Hd)) as (q & Hq & Hq0).
    unfold in_problem. rewrite Hd. cbn [default].
    apply existb_True, Exists_exists. exists q. split; [done|].
    apply Is_true_true, negb_true_iff, Z.eqb_neq. done.
  - intros Hall d Hd. apply list_elem_of_lookup_1 in Hd as [o Ho].
    assert (Hin : o ∈ seq 0 (length orders)).
    { apply elem_of_seq. apply lookup_lt_Some in Ho. lia. }
    specialize (Hall o Hin). unfold in_problem in Hall. rewrite Ho in Hall.
    cbn [default] in Hall.
    apply existb_True, Exists_exists in Hall as (q & Hq & Hq0).
    exists q. split; [done|].
    by apply Is_true_true, negb_true_iff, Z.eqb_neq in Hq0.
Qed.

(** The loop of the PuLP scripts is [sweep_pulp]: the indices are the same
    in every turn. *)
Lemma pulp_loop_sweep_pulp (ito ita : gmap Z (list (nat * Z)))
    (ks : list nat) (st : sweep_state) :
  build_index n_items orders = Ok ito →
  build_index n_items aisles = Ok ita →
  for_each
    (λ st k,
       m ← model_from_index orders aisles n_items wave_size_lb wave_size_ub
             ito ita (Z.of_nat k);
       sweep_step_pulp orders aisles optimize m k st) st ks
  = sweep_pulp orders aisles n_items wave_size_lb wave_size_ub optimize ks st.
Proof.
  intros Ho Ha. unfold sweep_pulp. apply for_each_ext.
  intros st' k. unfold formulation_pulp.
  by rewrite (build_model_from_index ito ita).
Qed.

(** One turn of the PuLP loop against one turn of the Gurobi loop. *)
Lemma sweep_step_pulp_cases (m : Model) (k : nat) (st : sweep_state) :
  match sweep_step_pulp orders aisles optimize m k st with
  | Ok st' => sweep_step orders aisles optimize m k st = Ok st'
  | Raise e =>
      sweep_step orders aisles optimize m k st = Raise e
      ∨ (e = TypeError
         ∧ forallb (in_problem orders) (seq 0 (length orders)) = false)
  end.
Proof.
  unfold sweep_step_pulp, sweep_step, selected_orders_pulp.
  destruct (optimize m) as [s|e]; cbn [mbind result_bind]; [|by left].
  destruct (sol_status s); [|done..].
  destruct (Qgtb _ _); [|done].
  destruct (forallb _ _); cbn [mbind result_bind]; [done | by right].
Qed.

Lemma sweep_pulp_cases (m : Model) (ks : list nat) (st : sweep_state) :
  build_model orders aisles n_items wave_size_lb wave_size_ub 1 = Ok m →
  match sweep_pulp orders aisles n_items wave_size_lb wave_size_ub optimize
          ks st with
  | Ok st' => sweep orders aisles optimize m ks st = Ok st'
  | Raise e =>
      sweep orders aisles optimize m ks st = Raise e
      ∨ (e = TypeError
         ∧ forallb (in_problem orders) (seq 0 (length orders)) = false)
  end.
Proof.
  intros Hm. unfold sweep_pulp, sweep, formulation_pulp. revert st.
  induction ks as [|k ks IH]; intros st; [done|]. cbn [for_each].
  rewrite (build_model_rhs _ _ _ _ _ 1 (Z.of_nat k) m Hm).
  cbn [mbind result_bind]. fold (formulation_gurobi m k).
  pose proof (sweep_step_pulp_cases (formulation_gurobi m k) k st) as Hstep.
  destruct (sweep_step_pulp _ _ _ _ k st) as [st1|e].
  - rewrite Hstep. cbn [mbind result_bind]. apply IH.
  - destruct Hstep as [->|?]; [by left | by right].
Qed.

Lemma sweep_step_events (m : Model) (k : nat) (st st' : sweep_state) :
  sweep_step orders aisles optimize m k st = Ok st' →
  Forall step_event (output st) → Forall step_event (output st').
Proof.
  unfold sweep_step. destruct (optimize m) as [s|]; [|done].
  cbn [mbind result_bind]. intros Hst' Hout.
  destruct (sol_status s); [destruct (Qgtb _ _)|..];
    injection Hst' as <-; cbn [output];
    repeat (apply Forall_app; split; [|by repeat constructor]); done.
Qed.

Lemma sweep_gurobi_events (m m' : Model) (ks : list nat)
    (st st' : sweep_state) :
  sweep_gurobi orders aisles optimize m ks st = Ok (m', st') →
  Forall step_event (output st) → Forall step_event (output st').
Proof.
  unfold sweep_gurobi. revert m st.
  induction ks as [|k ks IH]; intros m st; cbn [for_each].
  - by intros [= _ <-].
  - destruct (sweep_step _ _ _ _ k st) as [st1|] eqn:E1;
      cbn [mbind result_bind]; [|done].
    intros Hrun Hout. apply (IH _ _ Hrun).
    by apply (sweep_step_events _ _ _ _ E1).
Qed.

Lemma without_no_solution_steps (out : list event) :
  Forall step_event out → without_no_solution out = out.
Proof.
  unfold without_no_solution. induction 1 as [|e out He _ IH]; [done|].
  rewrite filter_cons_True; [by rewrite IH | by destruct e].
Qed.

Lemma without_no_solution_end (st : sweep_state) :
  Forall step_event (output st) →
  without_no_solution
    (match best_solution st with
     | Some (so, sa) => output st ++ [WriteOutput so sa; PrintDone (best_ratio st)]
     | None => output st ++ [PrintNoSolution]
     end)
  = match best_solution st with
    | Some (so, sa) => output st ++ [WriteOutput so sa; PrintDone (best_ratio st)]
    | None => output st
    end.
Proof.
  intros Hout. unfold without_no_solution.
  destruct (best_solution st) as [[so sa]|]; rewrite filter_app;
    fold (without_no_solution (output st));
    rewrite (without_no_solution_steps _ Hout).
  - done.
  - apply app_nil_r.
Qed.

(** The Gurobi script from its model on, through [sweep]. *)
Lemma solve_instance_through_sweep (m : Model) :
  build_model orders aisles n_items wave_size_lb wave_size_ub 1 = Ok m →
  solve_instance orders aisles n_items wave_size_lb wave_size_ub optimize
  = (st ← sweep orders aisles optimize m (seq 1 (k_max aisles)) initial_state;
     match best_solution st with
     | Some (so, sa) =>
         Ok (output st ++ [WriteOutput so sa; PrintDone (best_ratio st)])
     | None => Ok (output st ++ [PrintNoSolution])
     end).
Proof.
  intros Hm. unfold solve_instance. rewrite Hm. cbn [mbind result_bind].
  rewrite <- (sweep_gurobi_eq orders aisles optimize m m) by done.
  by destruct (sweep_gurobi _ _ _ _ _ _) as [[m' st]|e].
Qed.

Lemma sweep_events (m : Model) (st : sweep_state) :
  sweep orders aisles optimize m (seq 1 (k_max aisles)) initial_state = Ok st →
  Forall step_event (output st).
Proof.
  rewrite <- (sweep_gurobi_eq orders aisles optimize m m) by done.
  destruct (sweep_gurobi _ _ _ _ _ _) as [[m' st']|e] eqn:Hrun; [|done].
  intros [= <-]. apply (sweep_gurobi_events _ _ _ _ _ Hrun). constructor.
Qed.

(** X16.  A run of the PuLP script and the run of the Gurobi script, for a
    solver that answers equal models equally: when the PuLP script
    returns, the Gurobi script has the same prints and the same written
    solution; when it raises, the Gurobi script raises the same, unless
    the exception is the [TypeError] of an order that has no quantity
    other than zero, whose variable PuLP leaves without a value. *)
Theorem pulp_run_and_gurobi_run :
  (∀ log,
     solve_instance_pulp orders aisles n_items wave_size_lb wave_size_ub
       optimize = Ok log →
     solve_instance orders aisles n_items wave_size_lb wave_size_ub optimize
     = Ok log)
  ∧ ∀ e,
      solve_instance_pulp orders aisles n_items wave_size_lb wave_size_ub
        optimize = Raise e →
      solve_instance orders aisles n_items wave_size_lb wave_size_ub optimize
      = Raise e
      ∨ (e = TypeError ∧ ¬ orders_count orders).
Proof.
  unfold solve_instance_pulp.
  destruct (build_index n_items orders) as [ito|e0] eqn:Ho.
  2:{ split; [done|]. intros e [= <-]. left.
      unfold solve_instance, build_model. by rewrite Ho. }
  destruct (build_index n_items aisles) as [ita|e0] eqn:Ha.
  2:{ split; [done|]. intros e [= <-]. left.
      unfold solve_instance, build_model. by rewrite Ho, Ha. }
  cbn [mbind result_bind].
  destruct (build_index_build_model ito ita Ho Ha) as [m Hm].
  rewrite (pulp_loop_sweep_pulp ito ita _ _ Ho Ha).
  rewrite (solve_instance_through_sweep m Hm).
  pose proof (sweep_pulp_cases m (seq 1 (k_max aisles)) initial_state Hm)
    as Hcases.
  destruct (sweep_pulp _ _ _ _ _ _ _ _) as [st|e0]; cbn [mbind result_bind].
  - rewrite Hcases. cbn [mbind result_bind]. split; [|by destruct (best_solution st) as [[]|]].
    intros log Hlog. by rewrite <- Hlog.
  - split; [done|]. intros e [= <-].
    destruct Hcases as [->|[-> Hall]]; [by left|]. right. split; [done|].
    intros Hc. apply orders_count_in_problem in Hc. congruence.
Qed.

(** X17.  When every order has a quantity other than zero, the two PuLP
    scripts do what the Gurobi script does, for a solver that answers
    equal models equally: building a new model for every budget and moving
    the bound of [AisleLimit] on one retained model give the same prints,
    the same written solution and the same exception; the copy in
    [checker.py], which has no [else], stays silent where the others print
    "no solution found". *)
Theorem solve_instance_pulp_gurobi :
  orders_count orders →
  solve_instance_pulp orders aisles n_items wave_size_lb wave_size_ub optimize
  = solve_instance orders aisles n_items wave_size_lb wave_size_ub optimize
  ∧ solve_instance_checker orders aisles n_items wave_size_lb wave_size_ub
      optimize
    = without_no_solution
        <$> solve_instance orders aisles n_items wave_size_lb wave_size_ub
              optimize.
Proof.
  intros Hc. apply orders_count_in_problem in Hc.
  unfold solve_instance_pulp, solve_instance_checker.
  destruct (build_index n_items orders) as [ito|e0] eqn:Ho.
  2:{ unfold solve_instance, build_model. by rewrite Ho. }
  destruct (build_index n_items aisles) as [ita|e0] eqn:Ha.
  2:{ unfold solve_instance, build_model. by rewrite Ho, Ha. }
  cbn [mbind result_bind].
  destruct (build_index_build_model ito ita Ho Ha) as [m Hm].
  rewrite (pulp_loop_sweep_pulp ito ita _ _ Ho Ha).
  rewrite (solve_instance_through_sweep m Hm).
  rewrite (sweep_pulp_eq orders aisles n_items wave_size_lb wave_size_ub
             optimize m _ _ Hc Hm).
  pose proof (sweep_events m) as Hev.
  destruct (sweep _ _ _ _ _ _) as [st|e0]; cbn [mbind result_bind]; [|done].
  split; [done|].
  pose proof (without_no_solution_end st (Hev st eq_refl)) as Hw.
  destruct (best_solution st) as [[so sa]|]; cbn [fmap result_fmap];
    by rewrite Hw.
Qed.

(** X18.  The Gurobi script under [math_solve/], whose last [if] has no
    [else], differs from [solve_instance] in one line only: it prints and
    writes the same, and raises the same, but stays silent where the other
    prints "no solution found". *)
Theorem solve_instance_gurobi_silent :
  solve_instance_gurobi orders aisles n_items wave_size_lb wave_size_ub optimize
  = without_no_solution
      <$> solve_instance orders aisles n_items wave_size_lb wave_size_ub
            optimize.
Proof.
  unfold solve_instance_gurobi, solve_instance.
  destruct (build_model _ _ _ _ _ 1) as [m|e]; [|done].
  cbn [mbind result_bind].
  destruct (sweep_gurobi _ _ _ _ _ _) as [[m' st]|e] eqn:Hrun; [|done].
  cbn [mbind result_bind snd].
  assert (Hev : Forall step_event (output st)).
  { apply (sweep_gurobi_events _ _ _ _ _ Hrun). constructor. }
  pose proof (without_no_solution_end st Hev) as Hw.
  destruct (best_solution st) as [[so sa]|]; cbn [fmap result_fmap];
    by rewrite Hw.
Qed.
End Scripts.

Lemma solve_instance_pulp_gurobi_witness :
  MathSolve.orders_count MathSolve.scenario_A_orders
  ∧ MathSolve.solve_instance_pulp MathSolve.scenario_A_orders
      MathSolve.scenario_A_aisles 2 2 5 (MathSolve.enumerate_optimize 2 2)
    = MathSolve.scenario_A_run.
Proof.
  assert (Hc : MathSolve.orders_count MathSolve.scenario_A_orders).
  { repeat constructor.
    - exists 3. split; [vm_compute; by left | done].
    - exists 2. split; [vm_compute; by left | done]. }
  split; [exact Hc|].
  exact (proj1 (solve_instance_pulp_gurobi MathSolve.scenario_A_orders
                  MathSolve.scenario_A_aisles 2 2 5
                  (MathSolve.enumerate_optimize 2 2) Hc)).
Defined.
